(** * Libaudioverse: the audio processing graph, its public property API,
    the interpolated delay line and the late-reflections delay table.

    A shallow embedding of [src/libaudioverse/node.cpp] and
    [src/libaudioverse/implementations/delayline.cpp], with the
    de-interleaving loop of the pull node and the harmonics of the additive
    square wave.

    - Nodes live in a store indexed by node identifier; a [shared_ptr<Node>]
      is an identifier, the buffers, properties and connections of a node
      are fields of its record, and every access goes through the store, so
      that a subgraph node and its internal output node really share the
      same output buffers.
    - C++ methods that mutate the object graph or throw are computations in
      a state-and-exception monad [M]; recursion through virtual calls is
      bounded by a fuel argument, and running out of fuel stands for a call
      that does not return.
    - Samples are an abstract type with the operations the code uses
      (class [Float]); the delay line, whose code converts between seconds
      and sample counts, is modelled over the rationals. *)

From Stdlib Require Import ZArith QArith Qround Lia Lqa.
From stdpp Require Import base option list gmap.

Set Default Proof Using "Type".

(** ** Error codes and property types (closed enums of the public header) *)

Inductive LavError :=
| Lav_ERROR_NONE
| Lav_ERROR_RANGE
| Lav_ERROR_TYPE_MISMATCH
| Lav_ERROR_PROPERTY_IS_READ_ONLY
| Lav_ERROR_CAUSES_CYCLE
| Lav_ERROR_CANNOT_CONNECT_TO_PROPERTY
| Lav_ERROR_INVALID_HANDLE
| Lav_ERROR_INTERNAL.

Inductive PropertyType :=
| Lav_PROPERTYTYPE_INT
| Lav_PROPERTYTYPE_FLOAT
| Lav_PROPERTYTYPE_DOUBLE
| Lav_PROPERTYTYPE_STRING
| Lav_PROPERTYTYPE_FLOAT3
| Lav_PROPERTYTYPE_FLOAT6
| Lav_PROPERTYTYPE_FLOAT_ARRAY
| Lav_PROPERTYTYPE_INT_ARRAY
| Lav_PROPERTYTYPE_BUFFER.

#[global] Instance LavError_eq_dec : EqDecision LavError.
Proof. solve_decision. Defined.

#[global] Instance PropertyType_eq_dec : EqDecision PropertyType.
Proof. solve_decision. Defined.

(** C++ [type != t] on the integer tags of the property types. *)
Definition ptype_neqb (a b : PropertyType) : bool := negb (bool_decide (a = b)).

(** ** Sample arithmetic

    The operations of [float] that the graph code uses.  [fneqb] is the C++
    [!=] comparison. *)

Class Float (F : Type) := {
  fzero : F;
  fone : F;
  fmul : F -> F -> F;
  fadd : F -> F -> F;
  fneqb : F -> F -> bool
}.

(** Constants of [libaudioverse.h] and [libaudioverse_properties.h], which
    are not part of the sources at hand: the slots of the four properties
    every node has, and the two enum values [Node::tick] compares with. *)

Class NodeConstants := {
  Lav_NODE_STATE : Z;
  Lav_NODE_MUL : Z;
  Lav_NODE_ADD : Z;
  Lav_NODE_CHANNEL_INTERPRETATION : Z;
  Lav_NODESTATE_PAUSED : Z;
  Lav_CHANNEL_INTERPRETATION_SPEAKERS : Z
}.

(** ** The object graph *)

Abbreviation node_id := nat (only parsing).

Section Objects.
Context {F D : Type}.

(** One side of a connection.  An input side remembers the output sides
    connected to it, each named by its owning node and its index in that
    node's [output_connections]. *)
Record OutputConnection := {
  oc_start : nat;
  oc_count : nat
}.

Record InputConnection := {
  ic_start : nat;
  ic_count : nat;
  ic_connected : list (node_id * nat)
}.

(** The value part of a property: what [properties.hpp] keeps besides the
    automation input. [p_arate] holds the per-sample values of the current
    block when the property is a-rate. *)
Record PropertyData := {
  p_type : PropertyType;
  p_int : Z;
  p_float : F;
  p_default_int : Z;
  p_default_float : F;
  p_read_only : bool;
  p_modified : bool;
  p_arate : option (list F);
  p_min_length : nat;
  p_max_length : nat
}.

Record Property := {
  p_data : PropertyData;
  p_connection : option InputConnection
}.

(** The dynamic type of a node: [Node] itself (with whatever [process] its
    concrete subclass has) or [SubgraphNode] with its two internal nodes. *)
Inductive NodeClass :=
| NodeBase
| SubgraphNodeClass (subgraph_input subgraph_output : option node_id).

Record Node := {
  node_class : NodeClass;
  last_processed : Z;
  properties : gmap Z Property;
  forwarded_properties : gmap Z (node_id * Z);
  input_buffers : list (list F);
  output_buffers : list (list F);
  input_connections : list InputConnection;
  output_connections : list OutputConnection;
  block_size : nat;
  is_processing : bool;
  dsp : D;
  (** ghost: how many times [process()] has run on this node *)
  process_calls : nat
}.

Record Simulation := {
  tick_count : Z;
  sim_block_size : nat;
  final_output_connection : InputConnection;
  final_output_buffers : list (list F);
  nodes : list Node
}.

(** *** Outcomes and the monad of graph operations *)

Inductive result (A : Type) :=
| Ok (a : A) (s : Simulation)
| Throw (e : LavError) (s : Simulation)
| OutOfFuel.

Definition M (A : Type) : Type := Simulation -> result A.

Definition ret {A} (a : A) : M A := fun s => Ok A a s.

Definition bind {A B} (m : M A) (f : A -> M B) : M B :=
  fun s => match m s with
           | Ok _ a s' => f a s'
           | Throw _ e s' => Throw B e s'
           | OutOfFuel _ => OutOfFuel B
           end.

Definition throw {A} (e : LavError) : M A := fun s => Throw A e s.

Definition out_of_fuel {A} : M A := fun _ => OutOfFuel A.

Definition get : M Simulation := fun s => Ok _ s s.

Definition put (s' : Simulation) : M unit := fun _ => Ok _ tt s'.

End Objects.

Arguments OutputConnection : clear implicits.
Arguments InputConnection : clear implicits.
Arguments PropertyData : clear implicits.
Arguments Property : clear implicits.
Arguments Node : clear implicits.
Arguments Simulation : clear implicits.
Arguments result : clear implicits.
Arguments M : clear implicits.
Arguments Ok {F D A} a s.
Arguments Throw {F D A} e s.
Arguments OutOfFuel {F D A}.

Declare Scope graph_scope.
Delimit Scope graph_scope with graph.
Notation "'let*' x ':=' m 'in' k" := (bind m (fun x => k))
  (at level 10, x name, m at level 100, k at level 200) : graph_scope.
Notation "'let*' ' p ':=' m 'in' k" := (bind m (fun x => match x with p => k end))
  (at level 10, p pattern, m at level 100, k at level 200) : graph_scope.
Notation "m >> k" := (bind m (fun _ => k))
  (at level 100, k at level 200, right associativity) : graph_scope.
Open Scope graph_scope.

(** The parts of a node's behaviour that live in other translation units.

    - [process] is the virtual DSP kernel of the node's concrete class: it
      reads the node and yields the new private DSP state and the contents
      of the node's own output buffers.
    - [mix_into] is the accumulation step of [InputConnection::add]
      (connections.cpp): given the mixing flag, the producing output side
      with the producer's output buffers, and the consuming input side, it
      maps the consumer's buffers to their new contents.
    - [Property_receive] and [Property_advance] are what a property does
      with a block received on its automation input and at the end of
      [Property::tick] (properties.cpp).

    They are parameters: every statement below holds whatever they are. *)
Class Kernels (F D : Type) := {
  process : Node F D -> D * list (list F);
  mix_into : bool -> OutputConnection -> list (list F) -> InputConnection ->
             list (list F) -> list (list F);
  Property_receive : OutputConnection -> list (list F) -> PropertyData F -> PropertyData F;
  Property_advance : PropertyData F -> PropertyData F
}.

Section Operations.
Context {F D : Type} `{!Float F} `{!NodeConstants} `{!Kernels F D}.

Local Abbreviation M := (M F D).
Local Abbreviation Node := (Node F D).
Local Abbreviation Simulation := (Simulation F D).
Local Abbreviation Property := (Property F).
Local Abbreviation PropertyData := (PropertyData F).

(** *** Field updates *)

Definition set_last_processed (v : Z) (nd : Node) : Node :=
  {| node_class := node_class nd; last_processed := v;
     properties := properties nd; forwarded_properties := forwarded_properties nd;
     input_buffers := input_buffers nd; output_buffers := output_buffers nd;
     input_connections := input_connections nd;
     output_connections := output_connections nd;
     block_size := block_size nd; is_processing := is_processing nd;
     dsp := dsp nd; process_calls := process_calls nd |}.

Definition set_properties (v : gmap Z Property) (nd : Node) : Node :=
  {| node_class := node_class nd; last_processed := last_processed nd;
     properties := v; forwarded_properties := forwarded_properties nd;
     input_buffers := input_buffers nd; output_buffers := output_buffers nd;
     input_connections := input_connections nd;
     output_connections := output_connections nd;
     block_size := block_size nd; is_processing := is_processing nd;
     dsp := dsp nd; process_calls := process_calls nd |}.

Definition set_input_buffers (v : list (list F)) (nd : Node) : Node :=
  {| node_class := node_class nd; last_processed := last_processed nd;
     properties := properties nd; forwarded_properties := forwarded_properties nd;
     input_buffers := v; output_buffers := output_buffers nd;
     input_connections := input_connections nd;
     output_connections := output_connections nd;
     block_size := block_size nd; is_processing := is_processing nd;
     dsp := dsp nd; process_calls := process_calls nd |}.

Definition set_output_buffers (v : list (list F)) (nd : Node) : Node :=
  {| node_class := node_class nd; last_processed := last_processed nd;
     properties := properties nd; forwarded_properties := forwarded_properties nd;
     input_buffers := input_buffers nd; output_buffers := v;
     input_connections := input_connections nd;
     output_connections := output_connections nd;
     block_size := block_size nd; is_processing := is_processing nd;
     dsp := dsp nd; process_calls := process_calls nd |}.

Definition set_input_connections (v : list InputConnection) (nd : Node) : Node :=
  {| node_class := node_class nd; last_processed := last_processed nd;
     properties := properties nd; forwarded_properties := forwarded_properties nd;
     input_buffers := input_buffers nd; output_buffers := output_buffers nd;
     input_connections := v;
     output_connections := output_connections nd;
     block_size := block_size nd; is_processing := is_processing nd;
     dsp := dsp nd; process_calls := process_calls nd |}.

Definition set_is_processing (v : bool) (nd : Node) : Node :=
  {| node_class := node_class nd; last_processed := last_processed nd;
     properties := properties nd; forwarded_properties := forwarded_properties nd;
     input_buffers := input_buffers nd; output_buffers := output_buffers nd;
     input_connections := input_connections nd;
     output_connections := output_connections nd;
     block_size := block_size nd; is_processing := v;
     dsp := dsp nd; process_calls := process_calls nd |}.

(** The effect of one run of the virtual [process()] on the node record:
    new DSP state, new contents of the own output buffers, one more call. *)
Definition run_process (nd : Node) : Node :=
  {| node_class := node_class nd; last_processed := last_processed nd;
     properties := properties nd; forwarded_properties := forwarded_properties nd;
     input_buffers := input_buffers nd; output_buffers := (process nd).2;
     input_connections := input_connections nd;
     output_connections := output_connections nd;
     block_size := block_size nd; is_processing := is_processing nd;
     dsp := (process nd).1; process_calls := S (process_calls nd) |}.

Definition set_nodes (v : list Node) (s : Simulation) : Simulation :=
  {| tick_count := tick_count s; sim_block_size := sim_block_size s;
     final_output_connection := final_output_connection s;
     final_output_buffers := final_output_buffers s; nodes := v |}.

Definition set_tick_count (v : Z) (s : Simulation) : Simulation :=
  {| tick_count := v; sim_block_size := sim_block_size s;
     final_output_connection := final_output_connection s;
     final_output_buffers := final_output_buffers s; nodes := nodes s |}.

Definition set_final_output_connection (v : InputConnection) (s : Simulation) : Simulation :=
  {| tick_count := tick_count s; sim_block_size := sim_block_size s;
     final_output_connection := v;
     final_output_buffers := final_output_buffers s; nodes := nodes s |}.

Definition set_final_output_buffers (v : list (list F)) (s : Simulation) : Simulation :=
  {| tick_count := tick_count s; sim_block_size := sim_block_size s;
     final_output_connection := final_output_connection s;
     final_output_buffers := v; nodes := nodes s |}.

Definition set_p_data (v : PropertyData) (p : Property) : Property :=
  {| p_data := v; p_connection := p_connection p |}.

Definition set_p_connection (v : option InputConnection) (p : Property) : Property :=
  {| p_data := p_data p; p_connection := v |}.

Definition set_ic_connected (v : list (node_id * nat)) (c : InputConnection) : InputConnection :=
  {| ic_start := ic_start c; ic_count := ic_count c; ic_connected := v |}.

(** *** Store access *)

(** Dereferencing a node.  Strong references never dangle in the source; an
    identifier that does not resolve is reported the way the source reports
    an expired weak reference. *)
Definition getNode (n : node_id) : M Node :=
  fun s => match nodes s !! n with
           | Some nd => Ok nd s
           | None => Throw Lav_ERROR_INTERNAL s
           end.

Definition modifyNode (n : node_id) (f : Node -> Node) : M unit :=
  fun s => Ok tt (set_nodes (alter f n (nodes s)) s).

Definition getTickCount : M Z := fun s => Ok (tick_count s) s.

Definition getBlockSize : M nat := fun s => Ok (sim_block_size s) s.

(** *** Loops *)

Fixpoint forM {X} (l : list X) (f : X -> M unit) : M unit :=
  match l with
  | [] => ret tt
  | x :: l' => f x >> forM l' f
  end.

Fixpoint foldM {A X} (f : A -> X -> M A) (a : A) (l : list X) : M A :=
  match l with
  | [] => ret a
  | x :: l' => let* a' := f a x in foldM f a' l'
  end.

(** A loop that returns [false] at the first element on which the body
    does, and [true] when it runs to the end. *)
Fixpoint allM {X} (f : X -> M bool) (l : list X) : M bool :=
  match l with
  | [] => ret true
  | x :: l' => let* b := f x in if b then allM f l' else ret false
  end.


(** *** Properties (properties.cpp is not among the sources)

    Modelled from the spec: the accessors of a property return the stored
    current value; a property is a-rate for the tick iff it holds per-sample
    values, and [getFloatValue(i)] then returns the value at offset [i];
    [reset] restores the default and marks the property modified. *)

Definition getType (p : Property) : PropertyType := p_type (p_data p).
Definition getIntValue (p : Property) : Z := p_int (p_data p).
Definition getFloatValue (p : Property) : F := p_float (p_data p).
Definition isReadOnly (p : Property) : bool := p_read_only (p_data p).
Definition needsARate (p : Property) : bool := bool_decide (is_Some (p_arate (p_data p))).
Definition getFloatValueAt (p : Property) (i : nat) : F :=
  match p_arate (p_data p) with
  | Some vs => nth i vs (p_float (p_data p))
  | None => p_float (p_data p)
  end.
Definition getInputConnectionOfProperty (p : Property) : option InputConnection :=
  p_connection p.

Definition Property_reset (p : Property) : Property :=
  set_p_data
    {| p_type := p_type (p_data p);
       p_int := p_default_int (p_data p);
       p_float := p_default_float (p_data p);
       p_default_int := p_default_int (p_data p);
       p_default_float := p_default_float (p_data p);
       p_read_only := p_read_only (p_data p);
       p_modified := true;
       p_arate := p_arate (p_data p);
       p_min_length := p_min_length (p_data p);
       p_max_length := p_max_length (p_data p) |} p.

(** A [Property&] is the owning node together with the slot in its table. *)
Definition PropertyRef : Type := node_id * Z.

Definition readProperty (r : PropertyRef) : M Property :=
  let* nd := getNode r.1 in
  match properties nd !! r.2 with
  | Some p => ret p
  | None => throw Lav_ERROR_RANGE
  end.

Definition modifyProperty (r : PropertyRef) (f : Property -> Property) : M unit :=
  modifyNode r.1 (fun nd => set_properties (alter f r.2 (properties nd)) nd).

(** [Node::getProperty]: the forwarded case first, then the node's own
    table.  The weak reference of a forward that no longer resolves throws
    INTERNAL (through [getNode] in the recursive call). *)
Fixpoint getProperty (fuel : nat) (n : node_id) (slot : Z) : M PropertyRef :=
  match fuel with
  | O => out_of_fuel
  | S fuel' =>
    let* nd := getNode n in
    match forwarded_properties nd !! slot with
    | Some (target, s) => getProperty fuel' target s
    | None =>
      match properties nd !! slot with
      | None => throw Lav_ERROR_RANGE
      | Some _ => ret (n, slot)
      end
    end
  end.

(** *** Virtual accessors, overridden by [SubgraphNode] *)

Fixpoint getInputConnectionCount (fuel : nat) (n : node_id) : M nat :=
  match fuel with
  | O => out_of_fuel
  | S fuel' =>
    let* nd := getNode n in
    match node_class nd with
    | NodeBase => ret (length (input_connections nd))
    | SubgraphNodeClass (Some i) _ => getInputConnectionCount fuel' i
    | SubgraphNodeClass None _ => ret 0%nat
    end
  end.

(** A [shared_ptr<InputConnection>]: an input side of a node, the automation
    input of a property, or the final output connection of the simulation. *)
Inductive InputRef :=
| NodeInput (n : node_id) (i : nat)
| PropertyInput (r : PropertyRef)
| FinalOutput.

Fixpoint getInputConnection (fuel : nat) (n : node_id) (which : Z) : M InputRef :=
  match fuel with
  | O => out_of_fuel
  | S fuel' =>
    let* nd := getNode n in
    match node_class nd with
    | NodeBase =>
      if (which >=? Z.of_nat (length (input_connections nd)))%Z || (which <? 0)%Z
      then throw Lav_ERROR_RANGE
      else ret (NodeInput n (Z.to_nat which))
    | SubgraphNodeClass i _ =>
      let* count := getInputConnectionCount fuel n in
      if (which <? 0)%Z || (which >=? Z.of_nat count)%Z
      then throw Lav_ERROR_RANGE
      else match i with
           | Some i => getInputConnection fuel' i which
           | None => throw Lav_ERROR_INTERNAL
           end
    end
  end.

Fixpoint getOutputBufferCount (fuel : nat) (n : node_id) : M nat :=
  match fuel with
  | O => out_of_fuel
  | S fuel' =>
    let* nd := getNode n in
    match node_class nd with
    | NodeBase => ret (length (output_buffers nd))
    | SubgraphNodeClass _ (Some o) => getOutputBufferCount fuel' o
    | SubgraphNodeClass _ None => ret 0%nat
    end
  end.

(** A [float**]: the node whose [output_buffers] vector it points into, or
    [None] for [nullptr]. *)
Fixpoint getOutputBufferArray (fuel : nat) (n : node_id) : M (option node_id) :=
  match fuel with
  | O => out_of_fuel
  | S fuel' =>
    let* nd := getNode n in
    match node_class nd with
    | NodeBase =>
      if bool_decide (length (output_buffers nd) = 0%nat) then ret None else ret (Some n)
    | SubgraphNodeClass _ (Some o) => getOutputBufferArray fuel' o
    | SubgraphNodeClass _ None => ret None
    end
  end.

(** [getInputBufferCount] and [getInputBufferArray] are not overridden. *)
Definition getInputBufferCount (n : node_id) : M nat :=
  let* nd := getNode n in ret (length (input_buffers nd)).

Definition getInputBufferArray (n : node_id) : M (option node_id) :=
  let* nd := getNode n in
  if bool_decide (length (input_buffers nd) = 0%nat) then ret None else ret (Some n).

(** [Node::getOutputConnection]: the output side as a reference (owner and
    index) after the range check. *)
Definition getOutputConnection (n : node_id) (which : Z) : M (node_id * nat) :=
  let* nd := getNode n in
  if (which <? 0)%Z || (which >=? Z.of_nat (length (output_connections nd)))%Z
  then throw Lav_ERROR_RANGE
  else ret (n, Z.to_nat which).

(** *** Writing through a buffer pointer *)

(** [p[j]] updated by [f], for a [float** p] into output buffers.  Writing
    through [nullptr] or past the vector does not happen in the source (the
    loops are bounded by the buffer count); the model leaves the store as it
    is there. *)
Definition modifyOutputBuffer (p : option node_id) (j : nat)
    (f : list F -> list F) : M unit :=
  match p with
  | Some o => modifyNode o (fun nd => set_output_buffers (alter f j (output_buffers nd)) nd)
  | None => ret tt
  end.

Definition modifyInputBuffer (p : option node_id) (j : nat)
    (f : list F -> list F) : M unit :=
  match p with
  | Some o => modifyNode o (fun nd => set_input_buffers (alter f j (input_buffers nd)) nd)
  | None => ret tt
  end.

(** [memset(buf, 0, n*sizeof(float))]. *)
Definition memset0 (n : nat) (buf : list F) : list F :=
  replicate (min n (length buf)) fzero ++ drop n buf.

(** Modelled from the spec (kernels.hpp is not among the sources):
    elementwise multiply by a scalar and add a scalar over the first
    [length] samples, in place. *)
Definition scalarMultiplicationKernel (length : nat) (c : F) (buf : list F) : list F :=
  map (fun x => fmul x c) (take length buf) ++ drop length buf.

Definition scalarAdditionKernel (length : nat) (c : F) (buf : list F) : list F :=
  map (fun x => fadd x c) (take length buf) ++ drop length buf.


(** *** Connections (connections.cpp is not among the sources) *)

Definition readInput (r : InputRef) : M InputConnection :=
  match r with
  | NodeInput n i =>
    let* nd := getNode n in
    match input_connections nd !! i with
    | Some c => ret c
    | None => throw Lav_ERROR_RANGE
    end
  | PropertyInput pr =>
    let* p := readProperty pr in
    match p_connection p with
    | Some c => ret c
    | None => throw Lav_ERROR_CANNOT_CONNECT_TO_PROPERTY
    end
  | FinalOutput => fun s => Ok (final_output_connection s) s
  end.

Definition modifyInput (r : InputRef) (f : InputConnection -> InputConnection) : M unit :=
  match r with
  | NodeInput n i =>
    modifyNode n (fun nd => set_input_connections (alter f i (input_connections nd)) nd)
  | PropertyInput pr =>
    modifyProperty pr (fun p => set_p_connection (f <$> p_connection p) p)
  | FinalOutput =>
    fun s => Ok tt (set_final_output_connection (f (final_output_connection s)) s)
  end.

(** Modelled from the spec: the nodes owning the output sides connected to
    an input side. *)
Definition getConnectedNodes (r : InputRef) : M (list node_id) :=
  let* c := readInput r in ret (map fst (ic_connected c)).

(** Modelled from the spec ("Removing a previously-identical edge before
    adding is idempotent"): the edge is recorded once on the input side. *)
Definition makeConnection (output : node_id * nat) (input : InputRef) : M unit :=
  modifyInput input (fun c =>
    set_ic_connected
      (filter (fun e => e <> output) (ic_connected c) ++ [output]) c).

(** The block an output side delivers: the output connection of the
    producer and the producer's output buffers, read through the virtual
    accessor. *)
Definition outputBlock (fuel : nat) (producer : node_id) (which : nat)
    : M (OutputConnection * list (list F)) :=
  let* nd := getNode producer in
  match output_connections nd !! which with
  | None => throw Lav_ERROR_RANGE
  | Some oc =>
    let* p := getOutputBufferArray fuel producer in
    match p with
    | None => ret (oc, [])
    | Some o => let* ond := getNode o in ret (oc, output_buffers ond)
    end
  end.

(** Accumulating a delivered block on the consumer side. *)
Definition accumulate (r : InputRef) (mixing : bool)
    (block : OutputConnection * list (list F)) : M unit :=
  match r with
  | NodeInput n i =>
    let* c := readInput r in
    modifyNode n (fun nd =>
      set_input_buffers (mix_into mixing block.1 block.2 c (input_buffers nd)) nd)
  | PropertyInput pr =>
    modifyProperty pr (fun p =>
      set_p_data (Property_receive block.1 block.2 (p_data p)) p)
  | FinalOutput =>
    fun s => Ok tt (set_final_output_buffers
                      (mix_into mixing block.1 block.2 (final_output_connection s)
                                (final_output_buffers s)) s)
  end.

(** Modelled from the spec, [add(enable_mixing)]: "for each
    currently-connected output side, tick its owning node, then accumulate
    its contribution into the input side's backing input-buffer range".
    [tick] is the virtual [Node::tick] of the producer. *)
Definition InputConnection_add (tick : node_id -> M unit) (fuel : nat)
    (r : InputRef) (mixing : bool) : M unit :=
  let* c := readInput r in
  forM (ic_connected c) (fun e =>
    tick e.1 >>
    let* block := outputBlock fuel e.1 e.2 in
    accumulate r mixing block).

(** Modelled from the spec, [Property::tick]: a property with an automation
    input pulls the block of its producers, then advances by one block
    (automation position, modified-since-last-tick flag). *)
Definition Property_tick (tick : node_id -> M unit) (fuel : nat)
    (r : PropertyRef) : M unit :=
  let* p := readProperty r in
  (match p_connection p with
   | Some _ => InputConnection_add tick fuel (PropertyInput r) false
   | None => ret tt
   end) >>
  modifyProperty r (fun p => set_p_data (Property_advance (p_data p)) p).

(** *** Node *)

Definition tickProperties (tick : node_id -> M unit) (fuel : nat) (n : node_id) : M unit :=
  let* nd := getNode n in
  forM (map fst (map_to_list (properties nd))) (fun slot =>
    Property_tick tick fuel (n, slot)).

Definition getState (fuel : nat) (n : node_id) : M Z :=
  let* r := getProperty fuel n Lav_NODE_STATE in
  let* p := readProperty r in
  ret (getIntValue p).

Definition zeroOutputBuffers (fuel : nat) (n : node_id) : M unit :=
  let* outputBuffers := getOutputBufferArray fuel n in
  let* outputBufferCount := getOutputBufferCount fuel n in
  let* nd := getNode n in
  forM (seq 0 outputBufferCount) (fun i =>
    modifyOutputBuffer outputBuffers i (memset0 (block_size nd))).

Definition zeroInputBuffers (n : node_id) : M unit :=
  let* inputBufferCount := getInputBufferCount n in
  let* inputBuffers := getInputBufferArray n in
  forM (seq 0 inputBufferCount) (fun i =>
    let* bs := getBlockSize in
    modifyInputBuffer inputBuffers i (memset0 bs)).

(** The default [willProcessParents] of node.cpp: empty. *)
Definition willProcessParents (n : node_id) : M unit := ret tt.

(** The output gain and bias at the end of [Node::tick] and
    [SubgraphNode::tick] (the two copies are the same code). *)
Definition applyMulAdd (fuel : nat) (n : node_id) : M unit :=
  let* mulProp := getProperty fuel n Lav_NODE_MUL in
  let* addProp := getProperty fuel n Lav_NODE_ADD in
  let* outputs := getOutputBufferArray fuel n in
  let* nd := getNode n in
  let* mulP := readProperty mulProp in
  (if needsARate mulP then
     forM (seq 0 (block_size nd)) (fun i =>
       let* mulP := readProperty mulProp in
       let mul := getFloatValueAt mulP i in
       let* count := getOutputBufferCount fuel n in
       forM (seq 0 count) (fun j =>
         modifyOutputBuffer outputs j (alter (fun x => fmul x mul) i)))
   else if fneqb (getFloatValue mulP) fone then
     let* count := getOutputBufferCount fuel n in
     forM (seq 0 count) (fun i =>
       let* mulP := readProperty mulProp in
       modifyOutputBuffer outputs i
         (scalarMultiplicationKernel (block_size nd) (getFloatValue mulP)))
   else ret tt) >>
  let* addP := readProperty addProp in
  (if needsARate addP then
     forM (seq 0 (block_size nd)) (fun i =>
       let* addP := readProperty addProp in
       let add := getFloatValueAt addP i in
       let* count := getOutputBufferCount fuel n in
       forM (seq 0 count) (fun j =>
         modifyOutputBuffer outputs j (alter (fun x => fadd x add) i)))
   else if fneqb (getFloatValue addP) fzero then
     let* count := getOutputBufferCount fuel n in
     forM (seq 0 count) (fun i =>
       let* addP := readProperty addProp in
       modifyOutputBuffer outputs i
         (scalarAdditionKernel (block_size nd) (getFloatValue addP)))
   else ret tt).

(** [Node::tick] up to and including the call of [process()], for a node
    that passed the two early returns. *)
Definition Node_tick_process (tick : node_id -> M unit) (fuel : nat) (n : node_id) : M unit :=
  tickProperties tick fuel n >>
  willProcessParents n >>
  zeroInputBuffers n >>
  let* r := getProperty fuel n Lav_NODE_CHANNEL_INTERPRETATION in
  let* p := readProperty r in
  let needsMixing := bool_decide (getIntValue p = Lav_CHANNEL_INTERPRETATION_SPEAKERS) in
  let* count := getInputConnectionCount fuel n in
  forM (seq 0 count) (fun i =>
    let* c := getInputConnection fuel n (Z.of_nat i) in
    InputConnection_add tick fuel c needsMixing) >>
  modifyNode n (set_is_processing true) >>
  modifyNode n run_process.

(** [Node::tick].  [tick] is the virtual call used for the producers. *)
Definition Node_tick (tick : node_id -> M unit) (fuel : nat) (n : node_id) : M unit :=
  let* nd := getNode n in
  let* tc := getTickCount in
  if bool_decide (last_processed nd = tc) then ret tt else
  modifyNode n (set_last_processed tc) >>
  zeroOutputBuffers fuel n >>
  let* st := getState fuel n in
  if bool_decide (st = Lav_NODESTATE_PAUSED) then ret tt else
  Node_tick_process tick fuel n >>
  applyMulAdd fuel n >>
  modifyNode n (set_is_processing false).

(** [SubgraphNode::tick]. *)
Definition SubgraphNode_tick (tick : node_id -> M unit) (fuel : nat) (n : node_id)
    (subgraph_output : option node_id) : M unit :=
  let* nd := getNode n in
  let* tc := getTickCount in
  if bool_decide (last_processed nd = tc) then ret tt else
  modifyNode n (set_last_processed tc) >>
  let* st := getState fuel n in
  if bool_decide (st = Lav_NODESTATE_PAUSED) then ret tt else
  tickProperties tick fuel n >>
  willProcessParents n >>
  match subgraph_output with
  | None => ret tt
  | Some o =>
    tick o >>
    applyMulAdd fuel n
  end.

(** The virtual [tick()]: dispatch on the dynamic type of the node. *)
Fixpoint tick (fuel : nat) (n : node_id) : M unit :=
  match fuel with
  | O => out_of_fuel
  | S fuel' =>
    let* nd := getNode n in
    match node_class nd with
    | NodeBase => Node_tick (tick fuel') fuel n
    | SubgraphNodeClass _ o => SubgraphNode_tick (tick fuel') fuel n o
    end
  end.

(** Modelled from the spec (the server is not among the sources): "the
    server's tick advances a monotonic counter, then calls tick() on its
    final node", through the final output connection. *)
Definition Simulation_tick (fuel : nat) : M unit :=
  (fun s => Ok tt (set_tick_count (tick_count s + 1) s)) >>
  InputConnection_add (tick fuel) fuel FinalOutput false.

(** *** Dependencies and the cycle check *)

(** [Node::getDependencies]: the producers on the (virtual) input
    connections, then those on the automation inputs of the own property
    table. *)
Definition getDependencies (fuel : nat) (n : node_id) : M (gset node_id) :=
  let* count := getInputConnectionCount fuel n in
  let* retval :=
    foldM (fun (retval : gset node_id) i =>
             let* c := getInputConnection fuel n (Z.of_nat i) in
             let* j := getConnectedNodes c in
             ret (retval ∪ list_to_set j))
          ∅ (seq 0 count) in
  let* nd := getNode n in
  ret (foldr (fun (p : Z * Property) (retval : gset node_id) =>
                match p_connection p.2 with
                | Some conn => retval ∪ list_to_set (map fst (ic_connected conn))
                | None => retval
                end)
             retval (map_to_list (properties nd))).

(** [doesEdgePreserveAcyclicity(start, end)]. *)
Fixpoint doesEdgePreserveAcyclicity (fuel : nat) (start end_ : node_id) : M bool :=
  match fuel with
  | O => out_of_fuel
  | S fuel' =>
    if bool_decide (start = end_) then ret false else
    let* deps := getDependencies fuel start in
    allM (fun n => doesEdgePreserveAcyclicity fuel' n end_) (elements deps)
  end.

(** [Node::connect]. *)
Definition connect (fuel : nat) (n : node_id) (output : Z) (toNode : node_id) (input : Z)
    : M unit :=
  let* ok := doesEdgePreserveAcyclicity fuel n toNode in
  if negb ok then throw Lav_ERROR_CAUSES_CYCLE else
  let* outputConnection := getOutputConnection n output in
  let* inputConnection := getInputConnection fuel toNode input in
  makeConnection outputConnection inputConnection.

(** [Node::connectProperty]. *)
Definition connectProperty (fuel : nat) (n : node_id) (output : Z) (node : node_id) (slot : Z)
    : M unit :=
  let* ok := doesEdgePreserveAcyclicity fuel n node in
  if negb ok then throw Lav_ERROR_CAUSES_CYCLE else
  let* prop := getProperty fuel node slot in
  let* p := readProperty prop in
  match getInputConnectionOfProperty p with
  | None => throw Lav_ERROR_CANNOT_CONNECT_TO_PROPERTY
  | Some _ =>
    let* outputConn := getOutputConnection n output in
    makeConnection outputConn (PropertyInput prop)
  end.


(** *** The public API (node.cpp, "begin public api") *)

(** Modelled from the spec (memory.hpp is not among the sources): a handle
    is an opaque integer naming a live object; here the handle of a node is
    its identifier, and any other integer is an invalid handle. *)
Definition incomingObject (handle : Z) : M node_id :=
  fun s =>
    if (0 <=? handle)%Z && (handle <? Z.of_nat (length (nodes s)))%Z
    then Ok (Z.to_nat handle) s
    else Throw Lav_ERROR_INVALID_HANDLE s.

(** [PUB_BEGIN ... PUB_END] (macros.hpp is not among the sources; modelled
    from the spec, "all public operations translate domain failures into
    error codes at the boundary"): the body runs, a thrown error becomes the
    returned code, and a body that runs to the end returns NONE.  [None] is
    a call that does not return. *)
Definition PUB (body : M unit) (s : Simulation) : option (LavError * Simulation) :=
  match body s with
  | Ok _ s' => Some (Lav_ERROR_NONE, s')
  | Throw e s' => Some (e, s')
  | OutOfFuel => None
  end.

(** The same for an operation with out-parameters: the body yields what it
    assigned through them, [None] when it assigned nothing; a body that
    throws has assigned nothing (the assignments are its last statements). *)
Definition PUB_out {A} (body : M (option A)) (s : Simulation)
    : option (LavError * option A * Simulation) :=
  match body s with
  | Ok o s' => Some (Lav_ERROR_NONE, o, s')
  | Throw e s' => Some (e, None, s')
  | OutOfFuel => None
  end.

Definition Lav_nodeConnect (fuel : nat) (nodeHandle : Z) (output : Z)
    (destHandle : Z) (input : Z) : Simulation -> option (LavError * Simulation) :=
  PUB (let* node := incomingObject nodeHandle in
       let* dest := incomingObject destHandle in
       connect fuel node output dest input).

(** [Lav_nodeResetProperty]: [auto prop = node_ptr->getProperty(slot)]
    copies the property into a local; [prop.reset()] acts on the local,
    which goes out of scope at the end of the body. *)
Definition Lav_nodeResetProperty (fuel : nat) (nodeHandle : Z) (slot : Z)
    : Simulation -> option (LavError * Simulation) :=
  PUB (let* node_ptr := incomingObject nodeHandle in
       let* r := getProperty fuel node_ptr slot in
       let* prop := readProperty r in
       if isReadOnly prop then throw Lav_ERROR_PROPERTY_IS_READ_ONLY else
       let prop := Property_reset prop in
       ret tt).

(** [Lav_nodeGetArrayPropertyLengthRange]: the two out-parameters are
    [destinationMin] and [destinationMax]; the body has no assignment to
    either. *)
Definition Lav_nodeGetArrayPropertyLengthRange (fuel : nat) (nodeHandle : Z) (slot : Z)
    : Simulation -> option (LavError * option (nat * nat) * Simulation) :=
  PUB_out (let* ptr := incomingObject nodeHandle in
           let* r := getProperty fuel ptr slot in
           let* prop := readProperty r in
           let type := getType prop in
           if ptype_neqb type Lav_PROPERTYTYPE_FLOAT_ARRAY
              || ptype_neqb type Lav_PROPERTYTYPE_INT_ARRAY
           then throw Lav_ERROR_TYPE_MISMATCH
           else ret None).

(** What the operation is specified to do: the check the spec asks for,
    following its words ("check type not in {float-array, int-array} ->
    TYPE_MISMATCH, else return [min_len, max_len]"). *)
Definition spec_GetArrayPropertyLengthRange (fuel : nat) (nodeHandle : Z) (slot : Z)
    : Simulation -> option (LavError * option (nat * nat) * Simulation) :=
  PUB_out (let* ptr := incomingObject nodeHandle in
           let* r := getProperty fuel ptr slot in
           let* prop := readProperty r in
           let type := getType prop in
           if ptype_neqb type Lav_PROPERTYTYPE_FLOAT_ARRAY
              && ptype_neqb type Lav_PROPERTYTYPE_INT_ARRAY
           then throw Lav_ERROR_TYPE_MISMATCH
           else ret (Some (p_min_length (p_data prop), p_max_length (p_data prop)))).

End Operations.

(** ** A concrete instance, for running the model

    Samples are integers; the constants take arbitrary distinct values; the
    DSP state of a node is the constant it emits when it has no inputs, and
    a node with inputs copies its input buffers to its outputs. *)

#[global] Instance Z_Float : Float Z := {|
  fzero := 0%Z;
  fone := 1%Z;
  fmul := Z.mul;
  fadd := Z.add;
  fneqb := fun a b => negb (a =? b)%Z
|}.

#[global] Instance example_constants : NodeConstants := {|
  Lav_NODE_STATE := (-1)%Z;
  Lav_NODE_MUL := (-2)%Z;
  Lav_NODE_ADD := (-3)%Z;
  Lav_NODE_CHANNEL_INTERPRETATION := (-4)%Z;
  Lav_NODESTATE_PAUSED := 0%Z;
  Lav_CHANNEL_INTERPRETATION_SPEAKERS := 1%Z
|}.

Definition example_process (nd : Node Z Z) : Z * list (list Z) :=
  (dsp nd,
   match input_buffers nd with
   | [] => map (map (fun _ => dsp nd)) (output_buffers nd)
   | ins => ins
   end).

Definition example_mix (mixing : bool) (oc : OutputConnection) (block : list (list Z))
    (ic : InputConnection) (bufs : list (list Z)) : list (list Z) :=
  imap (fun k b => match block !! k with
                   | Some c => zip_with Z.add b c
                   | None => b
                   end) bufs.

#[global] Instance example_kernels : Kernels Z Z := {|
  process := example_process;
  mix_into := example_mix;
  Property_receive := fun _ _ d => d;
  Property_advance := fun d => d
|}.

Definition example_int_property (v : Z) : Property Z :=
  {| p_data := {| p_type := Lav_PROPERTYTYPE_INT; p_int := v; p_float := 0%Z;
                  p_default_int := 1%Z; p_default_float := 0%Z;
                  p_read_only := false; p_modified := false; p_arate := None;
                  p_min_length := 0; p_max_length := 0 |};
     p_connection := None |}.

Definition example_float_property (v : Z) : Property Z :=
  {| p_data := {| p_type := Lav_PROPERTYTYPE_FLOAT; p_int := 0%Z; p_float := v;
                  p_default_int := 0%Z; p_default_float := 1%Z;
                  p_read_only := false; p_modified := false; p_arate := None;
                  p_min_length := 0; p_max_length := 0 |};
     p_connection := Some {| ic_start := 0; ic_count := 1; ic_connected := [] |} |}.

Definition example_array_property (t : PropertyType) : Property Z :=
  {| p_data := {| p_type := t; p_int := 0%Z; p_float := 0%Z;
                  p_default_int := 0%Z; p_default_float := 0%Z;
                  p_read_only := false; p_modified := false; p_arate := None;
                  p_min_length := 1; p_max_length := 8 |};
     p_connection := None |}.

(** The four properties every node has: state, mul, add, channel
    interpretation. *)
Definition example_properties (state mul add : Z) : gmap Z (Property Z) :=
  <[(-1)%Z := example_int_property state]>
  (<[(-2)%Z := example_float_property mul]>
  (<[(-3)%Z := example_float_property add]>
  (<[(-4)%Z := example_int_property 0]> ∅))).

(** A playing (or paused) node of class [Node] with one input and one
    output channel of two samples, fed by the given producers. *)
Definition example_node (state mul add : Z) (emits : Z) (inputs : nat)
    (producers : list (node_id * nat)) (out : list Z) : Node Z Z :=
  {| node_class := NodeBase; last_processed := (-1)%Z;
     properties := example_properties state mul add;
     forwarded_properties := ∅;
     input_buffers := replicate inputs [0%Z; 0%Z];
     output_buffers := [out];
     input_connections :=
       replicate inputs {| ic_start := 0; ic_count := 1; ic_connected := producers |};
     output_connections := [ {| oc_start := 0; oc_count := 1 |} ];
     block_size := 2; is_processing := false; dsp := emits; process_calls := 0 |}.

Definition example_subgraph (state : Z) (i o : option node_id) : Node Z Z :=
  {| node_class := SubgraphNodeClass i o; last_processed := (-1)%Z;
     properties := example_properties state 1 0;
     forwarded_properties := ∅;
     input_buffers := []; output_buffers := [];
     input_connections := [];
     output_connections := [ {| oc_start := 0; oc_count := 1 |} ];
     block_size := 2; is_processing := false; dsp := 0%Z; process_calls := 0 |}.

Definition example_simulation (root : list (node_id * nat)) (ns : list (Node Z Z))
    : Simulation Z Z :=
  {| tick_count := 0; sim_block_size := 2;
     final_output_connection := {| ic_start := 0; ic_count := 1; ic_connected := root |};
     final_output_buffers := [[0%Z; 0%Z]];
     nodes := ns |}.

(** Diamond: node 0 feeds nodes 1 and 2, which both feed node 3, which is
    connected to the final output. *)
Definition diamond : Simulation Z Z :=
  example_simulation [(3, 0)]
    [ example_node 1 1 0 5 0 [] [0%Z; 0%Z];
      example_node 1 1 0 0 1 [(0, 0)] [0%Z; 0%Z];
      example_node 1 1 0 0 1 [(0, 0)] [0%Z; 0%Z];
      example_node 1 1 0 0 1 [(1, 0); (2, 0)] [0%Z; 0%Z] ].

(** A paused subgraph node (1) whose internal output node (0) still holds
    the block it produced earlier. *)
Definition paused_subgraph : Simulation Z Z :=
  example_simulation [(1, 0)]
    [ example_node 1 1 0 7 0 [] [7%Z; 7%Z];
      example_subgraph 0 None (Some 0) ].

(** The samples a consumer of node [n] reads: the buffers behind the
    virtual [getOutputBufferArray]. *)
Definition visible_outputs {F D} (fuel : nat) (n : node_id) (s : Simulation F D)
    : option (list (list F)) :=
  match getOutputBufferArray fuel n s with
  | Ok (Some o) _ => output_buffers <$> nodes s !! o
  | Ok None _ => Some []
  | _ => None
  end.

(** ** The interpolated delay line (implementations/delayline.cpp)

    Samples, weights and seconds are rationals.  The header with the member
    declarations is not among the sources: [delay] and [new_delay] index
    [line], so they are unsigned integers, and the initial values of the
    members are whatever the record holds. *)

Module DelayLine.

Local Open Scope Q_scope.

Record LavDelayLine := {
  sr : Q;
  line_length : Z;
  line : list Q;
  write_head : Z;
  delay : Z;
  new_delay : Z;
  weight1 : Q;
  weight2 : Q;
  interpolation_delta : Q;
  is_interpolating : bool
}.

(** [(unsigned int)x] for a float [x]: the fractional part is discarded.
    (Out of the range of [unsigned int] the conversion is undefined in C++;
    the model wraps.) *)
Definition to_unsigned (x : Q) : Z :=
  ((Z.quot (Qnum x) (Z.pos (Qden x))) mod 2 ^ 32)%Z.

(** Modelled from the spec ("positive-modulus"; dspmath.cpp is not among the
    sources): the remainder with the sign of the divisor. *)
Definition ringmodi (dividend divisor : Z) : Z := (dividend mod divisor)%Z.

Definition Qlt_bool (a b : Q) : bool := negb (Qle_bool b a).

(** The constructor; [contents] is what the freshly allocated array holds
    and [init] supplies the members the constructor does not assign. *)
Definition LavDelayLine_new (maxDelay sr_ : Q) (contents : list Q) (init : LavDelayLine)
    : LavDelayLine :=
  {| sr := sr_;
     line_length := ((to_unsigned (sr_ * maxDelay) + 1) mod 2 ^ 32)%Z;
     line := contents;
     write_head := write_head init; delay := delay init; new_delay := new_delay init;
     weight1 := weight1 init; weight2 := weight2 init;
     interpolation_delta := interpolation_delta init;
     is_interpolating := is_interpolating init |}.

(** [setDelay]: the local [newDelay] is computed and clamped; the member
    [new_delay] is assigned the parameter [delay]. *)
Definition setDelay (dl : LavDelayLine) (delay_ : Q) : LavDelayLine :=
  let newDelay := to_unsigned (delay_ * sr dl) in
  let newDelay := if (newDelay >=? line_length dl)%Z
                  then ((line_length dl - 1) mod 2 ^ 32)%Z else newDelay in
  {| sr := sr dl; line_length := line_length dl; line := line dl;
     write_head := write_head dl; delay := delay dl;
     new_delay := to_unsigned delay_;
     weight1 := weight1 dl; weight2 := weight2 dl;
     interpolation_delta := interpolation_delta dl;
     is_interpolating := true |}.

Definition setInterpolationDelta (dl : LavDelayLine) (d : Q) : LavDelayLine :=
  {| sr := sr dl; line_length := line_length dl; line := line dl;
     write_head := write_head dl; delay := delay dl; new_delay := new_delay dl;
     weight1 := weight1 dl; weight2 := weight2 dl;
     interpolation_delta := d;
     is_interpolating := is_interpolating dl |}.

(** [line[i]]; reading past the array does not happen for indexes below
    [line_length] and yields 0 in the model. *)
Definition line_at (dl : LavDelayLine) (i : Z) : Q := nth (Z.to_nat i) (line dl) 0.

Definition read (dl : LavDelayLine) : Q :=
  weight1 dl * line_at dl (delay dl) + weight2 dl * line_at dl (new_delay dl).

Definition write (dl : LavDelayLine) (head : Z) (sample : Q) : LavDelayLine :=
  {| sr := sr dl; line_length := line_length dl;
     line := <[Z.to_nat head := sample]> (line dl);
     write_head := head; delay := delay dl; new_delay := new_delay dl;
     weight1 := weight1 dl; weight2 := weight2 dl;
     interpolation_delta := interpolation_delta dl;
     is_interpolating := is_interpolating dl |}.

Definition set_weights (dl : LavDelayLine) (w1 w2 : Q) : LavDelayLine :=
  {| sr := sr dl; line_length := line_length dl; line := line dl;
     write_head := write_head dl; delay := delay dl; new_delay := new_delay dl;
     weight1 := w1; weight2 := w2;
     interpolation_delta := interpolation_delta dl;
     is_interpolating := is_interpolating dl |}.

Definition finish_interpolation (dl : LavDelayLine) : LavDelayLine :=
  {| sr := sr dl; line_length := line_length dl; line := line dl;
     write_head := write_head dl; delay := new_delay dl; new_delay := new_delay dl;
     weight1 := 1; weight2 := 0;
     interpolation_delta := interpolation_delta dl;
     is_interpolating := false |}.

Definition advance (dl : LavDelayLine) (sample : Q) : LavDelayLine :=
  let dl := write dl (ringmodi (write_head dl + 1)%Z (line_length dl)) sample in
  if is_interpolating dl then
    let dl := set_weights dl (weight1 dl - interpolation_delta dl) (weight2 dl) in
    let dl := if Qlt_bool (weight1 dl) 0 then set_weights dl 0 (weight2 dl) else dl in
    let dl := set_weights dl (weight1 dl) (weight2 dl + interpolation_delta dl) in
    if Qle_bool 1 (weight2 dl) then finish_interpolation dl else dl
  else dl.

(** What the spec says [setDelay] stores ("clamps to line_length-1 samples,
    sets delay_samples_new"), following its words. *)
Definition spec_new_delay (dl : LavDelayLine) (delay_ : Q) : Z :=
  Z.min (to_unsigned (delay_ * sr dl)) (line_length dl - 1)%Z.

(** A line of 9 samples at 4 Hz, all zero, with the crossfade idle, and a
    delta that finishes a crossfade in one step. *)
Definition example_line : LavDelayLine :=
  {| sr := 4; line_length := 9%Z; line := replicate 9 0;
     write_head := 0%Z; delay := 0%Z; new_delay := 0%Z;
     weight1 := 1; weight2 := 0; interpolation_delta := 1;
     is_interpolating := false |}.

End DelayLine.

(** ** The delay table of the late-reflections node

    [LateReflectionsNode::recompute] up to [fdn.setDelays(delays)].  The
    arithmetic of [math.h] is abstract: the statements hold for any
    [log], [pow], [round] and [min]. *)

Class Libm (R : Type) := {
  of_int : Z -> R;
  rmul : R -> R -> R;
  rdiv : R -> R -> R;
  rlog : R -> R;
  rpow : R -> R -> R;
  rround : R -> Z;
  rmin : R -> R -> R;
  rone : R
}.

Module LateReflections.

Definition order : nat := 16.

Definition coprimes : list Z :=
  [ 3; 4; 5; 7;
    9; 11; 13; 16;
    17; 19; 23; 27;
    29; 31; 35; 37 ]%Z.

Section Recompute.
Context {R : Type} `{!Libm R}.






Definition spec_prime_order : list Z :=
  map (fun i => nth ((i mod 4) * 4 + i / 4) coprimes 0%Z) (seq 0 16).


End Recompute.

End LateReflections.

(** ** Vocabulary of the statements about the graph *)

Section Vocabulary.
Context {F D : Type} `{!Float F} `{!NodeConstants} `{!Kernels F D}.

Local Abbreviation M := (M F D).
Local Abbreviation Node := (Node F D).
Local Abbreviation Simulation := (Simulation F D).

Implicit Types (s : Simulation) (nd : Node) (bufs : list (list F))
  (P : Simulation -> Prop) (R : Simulation -> Simulation -> Prop).

(** [spec oof P R m]: started in a store satisfying [P], the computation
    [m] ends, normally or by an exception, in a store related by [R] to the
    initial one; [oof] is what is claimed of a run that exhausts its fuel
    ([True] for statements about runs that return, [False] for
    termination). *)
Definition spec {A} (oof : Prop) (P : Simulation -> Prop)
    (R : Simulation -> Simulation -> Prop) (m : M A) : Prop :=
  forall s, P s ->
    match m s with
    | Ok _ s' => R s s'
    | Throw _ s' => R s s'
    | OutOfFuel => oof
    end.

(** The part of a node that ticking never changes. *)
Definition node_skeleton (nd : Node) :=
  (node_class nd, forwarded_properties nd, input_connections nd,
   output_connections nd, block_size nd, p_connection <$> properties nd).

Definition structure (s : Simulation) :=
  (tick_count s, sim_block_size s, final_output_connection s,
   node_skeleton <$> nodes s).

(** The dedup counter and the number of [process()] calls of every node. *)
Definition marks (s : Simulation) : list (Z * nat) :=
  (fun nd => (last_processed nd, process_calls nd)) <$> nodes s.

Definition framed (s s' : Simulation) : Prop :=
  structure s' = structure s /\ marks s' = marks s.

(** What one tick may do to a node: a node already processed in this tick
    stays so and is not processed again; a node not yet processed is
    processed at most once, and is then marked. *)
Definition node_step (tc : Z) (nd nd' : Node) : Prop :=
  (last_processed nd = tc -> last_processed nd' = tc) /\
  (process_calls nd' = process_calls nd \/
   (last_processed nd <> tc /\ last_processed nd' = tc /\
    process_calls nd' = S (process_calls nd))).

Definition dedup_rel (s s' : Simulation) : Prop :=
  forall m nd nd', nodes s !! m = Some nd -> nodes s' !! m = Some nd' ->
    node_step (tick_count s) nd nd'.

Definition tick_rel (s s' : Simulation) : Prop :=
  structure s' = structure s /\ dedup_rel s s'.

(** The body of [Node::tick] on node [n] after it has marked [n]: the other
    nodes step as in any tick, and [n], which is marked, has [process()]
    called at most once. *)
Definition node_step_marked (tc : Z) (nd nd' : Node) : Prop :=
  last_processed nd = tc ->
  last_processed nd' = tc /\
  (process_calls nd' = process_calls nd \/ process_calls nd' = S (process_calls nd)).

Definition body_rel (n : node_id) (s s' : Simulation) : Prop :=
  structure s' = structure s /\
  forall m nd nd', nodes s !! m = Some nd -> nodes s' !! m = Some nd' ->
    if decide (m = n) then node_step_marked (tick_count s) nd nd'
    else node_step (tick_count s) nd nd'.

(** [P] is kept by [R]-steps. *)
Definition stable P R : Prop := forall s s', P s -> R s s' -> P s'.

(** A node update that touches neither the skeleton nor the marks. *)
Definition benign (f : Node -> Node) : Prop :=
  forall nd, node_skeleton (f nd) = node_skeleton nd /\
             last_processed (f nd) = last_processed nd /\
             process_calls (f nd) = process_calls nd.

(** The nodes a node's accessors recurse into: the two internal nodes of a
    subgraph node and the targets of its property forwards. *)
Definition node_links (nd : Node) : list node_id :=
  match node_class nd with
  | NodeBase => []
  | SubgraphNodeClass i o => option_list i ++ option_list o
  end ++ ((fun e => e.2.1) <$> map_to_list (forwarded_properties nd)).

(** The links are well founded: they descend along a ranking bounded by
    [L]. *)
Definition well_linked (lrank : node_id -> nat) (L : nat) (s : Simulation) : Prop :=
  forall n nd, nodes s !! n = Some nd ->
    lrank n < L /\ forall m, m ∈ node_links nd -> lrank m < lrank n.

(** A computation that only reads the store. *)
Definition reads {A} (m : M A) : Prop :=
  forall s, match m s with
            | Ok _ s' => s' = s
            | Throw _ s' => s' = s
            | OutOfFuel => True
            end.

(** Enough fuel for the accessors of node [n]. *)
Definition fuel_for (lrank : node_id -> nat) (s : Simulation) (n : node_id) (fuel : nat) :=
  0 < fuel /\ forall nd, nodes s !! n = Some nd -> lrank n < fuel.

(** The number of nodes not yet processed in the current tick. *)
Definition unprocessed (s : Simulation) : nat :=
  length (filter (fun nd => last_processed nd <> tick_count s) (nodes s)).

(** The store after [last_processed = simulation->getTickCount()] on [n]. *)
Definition mark (n : node_id) (s : Simulation) : Simulation :=
  set_nodes (alter (set_last_processed (tick_count s)) n (nodes s)) s.

(** Processed nodes stay processed. *)
Definition mono_rel (s s' : Simulation) : Prop :=
  structure s' = structure s /\
  forall m nd nd', nodes s !! m = Some nd -> nodes s' !! m = Some nd' ->
    last_processed nd = tick_count s -> last_processed nd' = tick_count s.

(** The precondition of a tick in the statements that include termination:
    the links are well founded and at most [k] nodes are unprocessed.  With
    [oof] it is vacuous. *)
Definition tick_pre (oof : Prop) (lrank : node_id -> nat) (L : nat)
    (k : nat) (s : Simulation) : Prop :=
  oof \/ (well_linked lrank L s /\ unprocessed s <= k).

(** [m] is a dependency of [n]: a member of what [getDependencies] returns
    for [n]. *)
Definition dep (s : Simulation) (n m : node_id) : Prop :=
  exists fuel deps, getDependencies fuel n s = Ok deps s /\ m ∈ deps.

(** No node is a transitive dependency of itself. *)
Definition acyclic (s : Simulation) : Prop := forall n, ~ tc (dep s) n n.

(** The input side [c] with the edge from output side [e] recorded. *)
Definition add_edge (e : nat * nat) (c : InputConnection) : InputConnection :=
  set_ic_connected (filter (fun e' => e' <> e) (ic_connected c) ++ [e]) c.

(** [s'] is [s] with exactly the edge from [e] to the input side [r]
    added: [r] has the edge, once, after the edges it had, and every other
    input side reads as before. *)
Definition edge_added (s s' : Simulation) (e : nat * nat) (r : InputRef) : Prop :=
  exists c,
    readInput r s = Ok c s /\
    readInput r s' = Ok (add_edge e c) s' /\
    forall r' c', r' <> r -> readInput r' s = Ok c' s -> readInput r' s' = Ok c' s'.

(** The store in which the output buffers of node [n] hold [bufs]. *)
Definition with_outputs (n : nat) bufs (s : Simulation) : Simulation :=
  set_nodes (alter (set_output_buffers bufs) n (nodes s)) s.

(** The k-rate gain and bias stages of [applyMulAdd] on one buffer. *)
Definition mul_stage (len : nat) (m : F) (buf : list F) : list F :=
  if fneqb m fone then scalarMultiplicationKernel len m buf else buf.

Definition add_stage (len : nat) (a : F) (buf : list F) : list F :=
  if fneqb a fzero then scalarAdditionKernel len a buf else buf.

(** The store of [Node::tick] on an unprocessed node [n] when it reaches
    the test of the node state: [n] is marked and its output buffers are
    zeroed. *)
Definition zeroed (n : nat) (nd : Node) (s : Simulation) : Simulation :=
  with_outputs n (memset0 (block_size nd) <$> output_buffers nd) (mark n s).

End Vocabulary.

(** Further stores for running the model: a playing node with gain 3 and
    bias 2 that emits the constant 5, and a node with a float-array
    property in slot 7. *)
Definition gain_example : Simulation Z Z :=
  example_simulation [(0, 0)] [ example_node 1 3 2 5 0 [] [0%Z; 0%Z] ].

Definition array_example : Simulation Z Z :=
  example_simulation []
    [ set_properties
        (<[7%Z := example_array_property Lav_PROPERTYTYPE_FLOAT_ARRAY]>
           (example_properties 1 1 0))
        (example_node 1 1 0 0 0 [] [0%Z; 0%Z]) ].

(** A one-second line at 44100 Hz, idle. *)
Definition line_44100 : DelayLine.LavDelayLine :=
  DelayLine.LavDelayLine_new 1 44100 (replicate (Z.to_nat 44101) 0%Q) DelayLine.example_line.

(** Integer stand-ins for the functions of [math.h], for running the delay
    table. *)
#[global] Instance example_libm : Libm Z := {|
  of_int := fun z => z;
  rmul := Z.mul;
  rdiv := Z.div;
  rlog := Z.log2;
  rpow := Z.pow;
  rround := fun z => z;
  rmin := Z.min;
  rone := 1%Z
|}.

(** The diamond after a tick of node 3. *)
Definition diamond_ticked : Simulation Z Z :=
  match tick 4 3 diamond with
  | Ok _ s' => s'
  | _ => diamond
  end.

(** The store in which [process()] has just returned in the tick of node 0
    of [gain_example]. *)
Definition gain_processed : Simulation Z Z :=
  match Node_tick_process (tick 1) 2 0
          (zeroed 0 (example_node 1 3 2 5 0 [] [0%Z; 0%Z]) gain_example) with
  | Ok _ s_p => s_p
  | _ => gain_example
  end.

(** ** Further operations of node.cpp *)

Section MoreOperations.
Context {F D : Type} `{!Float F} `{!NodeConstants} `{!Kernels F D}.

Local Abbreviation M := (M F D).
Local Abbreviation Node := (Node F D).
Local Abbreviation Simulation := (Simulation F D).
Local Abbreviation Property := (Property F).
Local Abbreviation PropertyData := (PropertyData F).

Definition set_forwarded_properties (v : gmap Z (node_id * Z)) (nd : Node) : Node :=
  {| node_class := node_class nd; last_processed := last_processed nd;
     properties := properties nd; forwarded_properties := v;
     input_buffers := input_buffers nd; output_buffers := output_buffers nd;
     input_connections := input_connections nd;
     output_connections := output_connections nd;
     block_size := block_size nd; is_processing := is_processing nd;
     dsp := dsp nd; process_calls := process_calls nd |}.

Definition set_node_class (v : NodeClass) (nd : Node) : Node :=
  {| node_class := v; last_processed := last_processed nd;
     properties := properties nd; forwarded_properties := forwarded_properties nd;
     input_buffers := input_buffers nd; output_buffers := output_buffers nd;
     input_connections := input_connections nd;
     output_connections := output_connections nd;
     block_size := block_size nd; is_processing := is_processing nd;
     dsp := dsp nd; process_calls := process_calls nd |}.

(** [Node::connectSimulation]: no cycle check, the input side is the final
    output connection of the simulation. *)
Definition connectSimulation (n : node_id) (which : Z) : M unit :=
  let* outputConnection := getOutputConnection n which in
  let inputConnection := FinalOutput in
  makeConnection outputConnection inputConnection.

(** [Node::forwardProperty]: [forwarded_properties[ourProperty] =
    make_tuple(toNode, toProperty)]. *)
Definition forwardProperty (n : node_id) (ourProperty : Z) (toNode : node_id)
    (toProperty : Z) : M unit :=
  modifyNode n (fun nd =>
    set_forwarded_properties
      (<[ourProperty := (toNode, toProperty)]> (forwarded_properties nd)) nd).

(** [Node::stopForwardingProperty]. *)
Definition stopForwardingProperty (n : node_id) (ourProperty : Z) : M unit :=
  let* nd := getNode n in
  if bool_decide (is_Some (forwarded_properties nd !! ourProperty))
  then modifyNode n (fun nd =>
         set_forwarded_properties (delete ourProperty (forwarded_properties nd)) nd)
  else throw Lav_ERROR_INTERNAL.

(** [SubgraphNode::setInputNode]; the argument is a [shared_ptr], which
    may be null. *)
Definition setInputNode (n : node_id) (node : option node_id) : M unit :=
  modifyNode n (fun nd =>
    match node_class nd with
    | SubgraphNodeClass _ o => set_node_class (SubgraphNodeClass node o) nd
    | NodeBase => nd
    end).

(** *** More of the public API *)

Definition Lav_nodeConnectSimulation (nodeHandle : Z) (output : Z)
    : Simulation -> option (LavError * Simulation) :=
  PUB (let* node := incomingObject nodeHandle in
       connectSimulation node output).

Definition Lav_nodeConnectProperty (fuel : nat) (nodeHandle : Z) (output : Z)
    (otherHandle : Z) (slot : Z) : Simulation -> option (LavError * Simulation) :=
  PUB (let* n := incomingObject nodeHandle in
       let* o := incomingObject otherHandle in
       connectProperty fuel n output o slot).

(** [PROP_PREAMBLE(n, s, t)]: the node behind the handle, a reference to
    its property in slot [s], and the type check. *)
Definition PROP_PREAMBLE (fuel : nat) (n : Z) (s : Z) (t : PropertyType)
    : M (PropertyRef * Property) :=
  let* node_ptr := incomingObject n in
  let* r := getProperty fuel node_ptr s in
  let* prop := readProperty r in
  if ptype_neqb (getType prop) t then throw Lav_ERROR_TYPE_MISMATCH
  else ret (r, prop).

Definition Lav_nodeGetIntProperty (fuel : nat) (nodeHandle : Z) (slot : Z)
    : Simulation -> option (LavError * option Z * Simulation) :=
  PUB_out (let* ' (r, prop) := PROP_PREAMBLE fuel nodeHandle slot Lav_PROPERTYTYPE_INT in
           ret (Some (getIntValue prop))).

End MoreOperations.

(** ** Vocabulary of the further statements about the graph *)

Section MoreVocabulary.
Context {F D : Type} `{!Float F} `{!NodeConstants} `{!Kernels F D}.

(** What a run returned, without the store: a value, an error, or nothing
    when it did not return. *)
Definition outcome {A} (r : result F D A) : option (A + LavError) :=
  match r with
  | Ok a _ => Some (inl a)
  | Throw e _ => Some (inr e)
  | OutOfFuel => None
  end.

(** Every link of every node names a node of the store (a [shared_ptr]
    does not dangle, and no forward has expired). *)
Definition links_valid (s : Simulation F D) : Prop :=
  forall n nd, nodes s !! n = Some nd ->
    forall m, m ∈ node_links nd -> m < length (nodes s).

(** A store without subgraph nodes and without property forwards. *)
Definition plain (s : Simulation F D) : Prop :=
  forall n nd, nodes s !! n = Some nd ->
    node_class nd = NodeBase /\ forwarded_properties nd = ∅.

(** Node [m] owns an output side connected to an input connection of [nd]
    or to the automation input of a property of [nd]. *)
Definition feeds (nd : Node F D) (m : node_id) : Prop :=
  (exists i c out, input_connections nd !! i = Some c /\ (m, out) ∈ ic_connected c) \/
  (exists slot p c out, properties nd !! slot = Some p /\ p_connection p = Some c /\
                        (m, out) ∈ ic_connected c).

(** The store in which the input buffers of node [n] hold [bufs]. *)
Definition with_inputs (n : nat) (bufs : list (list F)) (s : Simulation F D)
    : Simulation F D :=
  set_nodes (alter (set_input_buffers bufs) n (nodes s)) s.

(** The value of a property at sample offset [i] of the block: the
    per-sample value when the property is a-rate, the current value
    otherwise. *)
Definition value_at (p : Property F) (i : nat) : F :=
  if needsARate p then getFloatValueAt p i else getFloatValue p.

(** The a-rate gain and bias loops of [applyMulAdd] on one buffer. *)
Definition arate_stage (op : F -> F -> F) (len : nat) (p : Property F) (buf : list F)
    : list F :=
  foldl (fun b i => alter (fun x => op x (getFloatValueAt p i)) i b) buf (seq 0 len).

(** The gain stage and the bias stage of [applyMulAdd] on one buffer, for a
    property of either rate. *)
Definition mul_stage_of (len : nat) (p : Property F) (buf : list F) : list F :=
  if needsARate p then arate_stage fmul len p buf
  else mul_stage len (getFloatValue p) buf.

Definition add_stage_of (len : nat) (p : Property F) (buf : list F) : list F :=
  if needsARate p then arate_stage fadd len p buf
  else add_stage len (getFloatValue p) buf.

End MoreVocabulary.

(** ** The typed property setters of the public API

    [Property::setIntValue] is in properties.cpp, which is not among the
    sources; it is a parameter: given the new value and the property it
    yields the updated property, or the error it throws.  The statements
    hold whatever it is. *)

Class PropertySetters (F : Type) := {
  setIntValue : Z -> Property F -> LavError + Property F
}.

Section Setters.
Context {F D : Type} `{!Float F} `{!NodeConstants} `{!Kernels F D} `{!PropertySetters F}.

(** [READONLY_CHECK]. *)
Definition READONLY_CHECK (prop : Property F) : M F D unit :=
  if isReadOnly prop then throw Lav_ERROR_PROPERTY_IS_READ_ONLY else ret tt.

(** [Lav_nodeSetIntProperty]: [prop] is a reference into the table of the
    node that the slot resolves to, so [prop.setIntValue(value)] updates
    that table. *)
Definition Lav_nodeSetIntProperty (fuel : nat) (nodeHandle : Z) (slot : Z) (value : Z)
    : Simulation F D -> option (LavError * Simulation F D) :=
  PUB (let* ' (r, prop) := PROP_PREAMBLE fuel nodeHandle slot Lav_PROPERTYTYPE_INT in
       READONLY_CHECK prop >>
       match setIntValue value prop with
       | inl e => throw e
       | inr prop' => modifyProperty r (fun _ => prop')
       end).

End Setters.

(** A store with a dependency cycle: nodes 0 and 1 feed each other; node 2
    is connected to nothing. *)
Definition cyclic_example : Simulation Z Z :=
  example_simulation []
    [ example_node 1 1 0 0 1 [(1, 0)] [0%Z; 0%Z];
      example_node 1 1 0 0 1 [(0, 0)] [0%Z; 0%Z];
      example_node 1 1 0 0 0 [] [0%Z; 0%Z] ].

(** A subgraph node (2) whose input node is node 1 and whose output node is
    node 0. *)
Definition subgraph_example : Simulation Z Z :=
  example_simulation [(2, 0)]
    [ example_node 1 1 0 7 0 [] [7%Z; 7%Z];
      example_node 1 1 0 0 1 [] [0%Z; 0%Z];
      example_subgraph 1 (Some 1) (Some 0) ].

(** A setter that stores the value, marks the property modified, and
    rejects negative values. *)
#[global] Instance example_setters : PropertySetters Z := {|
  setIntValue := fun v p =>
    if (v <? 0)%Z then inl Lav_ERROR_RANGE
    else inr (set_p_data
                {| p_type := p_type (p_data p); p_int := v;
                   p_float := p_float (p_data p);
                   p_default_int := p_default_int (p_data p);
                   p_default_float := p_default_float (p_data p);
                   p_read_only := p_read_only (p_data p);
                   p_modified := true;
                   p_arate := p_arate (p_data p);
                   p_min_length := p_min_length (p_data p);
                   p_max_length := p_max_length (p_data p) |} p)
|}.


(** A paused node of class [Node] whose output buffer holds the block 7, 7
    of an earlier tick. *)
Definition paused_example : Simulation Z Z :=
  example_simulation [(0, 0)] [ example_node 0 1 0 7 0 [] [7%Z; 7%Z] ].

(** A node whose output buffer holds 5, 5 and whose mul property is a-rate
    with the per-sample values 2 and 3; its add property is k-rate with
    value 1. *)
Definition arate_example : Simulation Z Z :=
  example_simulation [(0, 0)]
    [ set_properties
        (<[(-2)%Z := set_p_data
                       {| p_type := Lav_PROPERTYTYPE_FLOAT; p_int := 0%Z; p_float := 1%Z;
                          p_default_int := 0%Z; p_default_float := 1%Z;
                          p_read_only := false; p_modified := false;
                          p_arate := Some [2%Z; 3%Z];
                          p_min_length := 0; p_max_length := 0 |}
                       (example_float_property 1)]>
           (example_properties 1 1 1))
        (example_node 1 1 1 5 0 [] [5%Z; 5%Z]) ].

(** The diamond after node 0 has also been connected to input 0 of node 3,
    and after it has been connected to the mul property of node 3. *)
Definition diamond_connected : Simulation Z Z :=
  match connect 5 0 0 3 0 diamond with
  | Ok _ s' => s'
  | _ => diamond
  end.

Definition diamond_modulated : Simulation Z Z :=
  match connectProperty 5 0 0 3 (-2) diamond with
  | Ok _ s' => s'
  | _ => diamond
  end.

(** ** The pull node (the end of [PullNode::process])

    The loop that spreads the interleaved block the resampler delivered
    over the output buffers.  [resampled_buffer] holds [block_size] frames
    of [channels] samples; reading past it does not happen in the source
    and yields [d] in the model. *)

Module PullNode.

Section Uninterleave.
Context {A : Type} (d : A).

(** The inner loop, for one frame starting at offset [i]:
    [output_buffers[j][i/channels] = resampled_buffer[i+j]] for [j] from 0
    to [channels - 1]. *)
Definition frame (channels : nat) (resampled_buffer : list A) (i : nat)
    (output_buffers : list (list A)) : list (list A) :=
  foldl (fun bufs j => alter (<[i / channels := nth (i + j) resampled_buffer d]>) j bufs)
        output_buffers (seq 0 channels).

(** The outer loop from offset [i], [i += channels] while
    [i < block_size * channels]; [fuel] bounds the number of iterations. *)
Fixpoint frames (fuel : nat) (block_size channels : nat) (resampled_buffer : list A)
    (i : nat) (output_buffers : list (list A)) : list (list A) :=
  match fuel with
  | O => output_buffers
  | S fuel' =>
    if i <? block_size * channels
    then frames fuel' block_size channels resampled_buffer (i + channels)
           (frame channels resampled_buffer i output_buffers)
    else output_buffers
  end.

(** The whole loop; it runs [block_size] times when [channels] is positive
    and not at all when it is 0. *)
Definition uninterleave (block_size channels : nat) (resampled_buffer : list A)
    (output_buffers : list (list A)) : list (list A) :=
  frames block_size block_size channels resampled_buffer 0 output_buffers.

End Uninterleave.

End PullNode.

(** ** The pan-reduction delays of the late-reflections node

    The end of [LateReflectionsNode::recompute]: the delay each of the
    [pan_reducers] is set to.  Seconds are rationals. *)

Module PanReduction.

Local Open Scope Q_scope.




End PanReduction.

(** ** The additive square wave (the header with [AdditiveSquare])

    The number of sine oscillators [readjustHarmonics] settles on, and the
    frequencies [setFrequency] hands to them.  Frequencies are rationals;
    [SinOsc] itself is not among the sources and is not modelled. *)

Module AdditiveSquare.

Local Open Scope Q_scope.




End AdditiveSquare.

(** ** Facts about the monad and the relations *)





Section MonadFacts.
Context {F D : Type} `{!Float F} `{!NodeConstants} `{!Kernels F D}.

Local Abbreviation M := (M F D).
Local Abbreviation Node := (Node F D).
Local Abbreviation Simulation := (Simulation F D).

Implicit Types (s : Simulation) (P : Simulation -> Prop)
  (R : Simulation -> Simulation -> Prop) (oof : Prop).

Lemma spec_ret {A} oof P R `{!Reflexive R} (a : A) : spec oof P R (ret a).
Proof. intros s _. simpl. reflexivity. Qed.

Lemma spec_throw {A} oof P R `{!Reflexive R} e : spec oof P R (throw (A:=A) e).
Proof. intros s _. simpl. reflexivity. Qed.

(** Sequencing, with possibly different relations and preconditions for
    the two halves. *)
Lemma spec_bind_gen {A B} oof P P' R1 R2 R3 (m : M A) (f : A -> M B) :
  (forall s s', P s -> R1 s s' -> P' s') ->
  (forall s s', R1 s s' -> R3 s s') ->
  (forall s s' s'', R1 s s' -> R2 s' s'' -> R3 s s'') ->
  spec oof P R1 m ->
  (forall a, spec oof P' R2 (f a)) ->
  spec oof P R3 (bind m f).
Proof.
  intros HP H13 H123 Hm Hf s Ps. unfold bind.
  specialize (Hm s Ps). destruct (m s) as [a s'|e s'|]; [|by auto|done].
  specialize (Hf a s' (HP _ _ Ps Hm)).
  destruct (f a s') as [b s''|e s''|]; eauto.
Qed.

Lemma spec_bind {A B} oof P R `{!Transitive R} (m : M A) (f : A -> M B) :
  stable P R ->
  spec oof P R m ->
  (forall a, spec oof P R (f a)) ->
  spec oof P R (bind m f).
Proof.
  intros HP. apply spec_bind_gen; eauto.
Qed.

Lemma spec_weaken {A} oof P P' R R' (m : M A) :
  (forall s, P' s -> P s) ->
  (forall s s', R s s' -> R' s s') ->
  spec oof P R m -> spec oof P' R' m.
Proof.
  intros HP HR Hm s Ps. specialize (Hm s (HP _ Ps)).
  destruct (m s); auto.
Qed.

Lemma spec_forM {X} oof P R `{!PreOrder R} (l : list X) (f : X -> M unit) :
  stable P R ->
  (forall x, x ∈ l -> spec oof P R (f x)) ->
  spec oof P R (forM l f).
Proof.
  intros HP. induction l as [|x l IH]; intros Hf; simpl.
  - apply spec_ret; apply _.
  - apply spec_bind; [apply _|done| |].
    + apply Hf. by left.
    + intros _. apply IH. intros y Hy. apply Hf. by right.
Qed.

Lemma spec_foldM {A X} oof P R `{!PreOrder R} (l : list X) (f : A -> X -> M A) a :
  stable P R ->
  (forall a x, x ∈ l -> spec oof P R (f a x)) ->
  spec oof P R (foldM f a l).
Proof.
  intros HP. revert a. induction l as [|x l IH]; intros a Hf; simpl.
  - apply spec_ret; apply _.
  - apply spec_bind; [apply _|done| |].
    + apply Hf. by left.
    + intros a'. apply IH. intros b y Hy. apply Hf. by right.
Qed.

Lemma spec_allM {X} oof P R `{!PreOrder R} (l : list X) (f : X -> M bool) :
  stable P R ->
  (forall x, x ∈ l -> spec oof P R (f x)) ->
  spec oof P R (allM f l).
Proof.
  intros HP. induction l as [|x l IH]; intros Hf; simpl.
  - apply spec_ret; apply _.
  - apply spec_bind; [apply _|done| |].
    + apply Hf. by left.
    + intros [].
      * apply IH. intros y Hy. apply Hf. by right.
      * apply spec_ret; apply _.
Qed.

End MonadFacts.

Section Relations.
Context {F D : Type} `{!Float F} `{!NodeConstants} `{!Kernels F D}.

Local Abbreviation M := (M F D).
Local Abbreviation Node := (Node F D).
Local Abbreviation Simulation := (Simulation F D).

Implicit Types (s : Simulation) (P : Simulation -> Prop)
  (R : Simulation -> Simulation -> Prop) (oof : Prop).

Lemma structure_length s s' :
  structure s' = structure s -> length (nodes s') = length (nodes s).
Proof.
  intros Hs. assert (Hl : node_skeleton <$> nodes s' = node_skeleton <$> nodes s)
    by (unfold structure in Hs; congruence).
  apply (f_equal length) in Hl. by rewrite !length_fmap in Hl.
Qed.

Lemma structure_tick_count s s' :
  structure s' = structure s -> tick_count s' = tick_count s.
Proof. unfold structure. congruence. Qed.

Lemma structure_skeleton s s' n nd :
  structure s' = structure s -> nodes s !! n = Some nd ->
  exists nd', nodes s' !! n = Some nd' /\ node_skeleton nd' = node_skeleton nd.
Proof.
  intros Hs Hn.
  assert (Hl : node_skeleton <$> nodes s' = node_skeleton <$> nodes s)
    by (unfold structure in Hs; congruence).
  apply (f_equal (fun l => l !! n)) in Hl. rewrite !list_lookup_fmap, Hn in Hl.
  destruct (nodes s' !! n) as [nd'|]; [|done]. exists nd'. split; [done|].
  simpl in Hl. congruence.
Qed.

Lemma marks_lookup s s' n nd nd' :
  marks s' = marks s -> nodes s !! n = Some nd -> nodes s' !! n = Some nd' ->
  last_processed nd' = last_processed nd /\ process_calls nd' = process_calls nd.
Proof.
  intros Hm Hn Hn'. apply (f_equal (fun l => l !! n)) in Hm.
  unfold marks in Hm. rewrite !list_lookup_fmap, Hn, Hn' in Hm. simpl in Hm.
  split; congruence.
Qed.

#[global] Instance framed_preorder : PreOrder (framed (F:=F) (D:=D)).
Proof.
  split.
  - intros s. by split.
  - intros s1 s2 s3 [H1 H1'] [H2 H2']. split; congruence.
Qed.

Lemma node_step_refl tc (nd : Node) : node_step tc nd nd.
Proof. split; auto. Qed.

Lemma node_step_trans tc (nd1 nd2 nd3 : Node) :
  node_step tc nd1 nd2 -> node_step tc nd2 nd3 -> node_step tc nd1 nd3.
Proof.
  intros [Ha Hb] [Hc Hd]. split; [auto|].
  destruct Hb as [Hb|(Hb1 & Hb2 & Hb3)], Hd as [Hd|(Hd1 & Hd2 & Hd3)].
  - left. congruence.
  - right. repeat split; [|done|congruence].
    intros Heq. apply Hd1. auto.
  - right. repeat split; [done|auto|congruence].
  - done.
Qed.

#[global] Instance tick_rel_preorder : PreOrder (tick_rel (F:=F) (D:=D)).
Proof.
  split.
  - intros s. split; [done|]. intros m nd nd' H1 H2.
    assert (nd' = nd) as -> by congruence. apply node_step_refl.
  - intros s1 s2 s3 [H1 H1'] [H2 H2']. split; [congruence|].
    intros m nd nd3 Hn Hn3.
    destruct (structure_skeleton _ _ _ _ H1 Hn) as (nd2 & Hn2 & _).
    eapply node_step_trans; [by eapply H1'|].
    rewrite <- (structure_tick_count _ _ H1). by eapply H2'.
Qed.

Lemma framed_tick_rel s s' : framed s s' -> tick_rel s s'.
Proof.
  intros [Hs Hm]. split; [done|]. intros m nd nd' Hn Hn'.
  destruct (marks_lookup _ _ _ _ _ Hm Hn Hn') as [Hl Hc].
  split; [congruence|]. by left.
Qed.

Lemma tick_rel_body_rel n s s' : tick_rel s s' -> body_rel n s s'.
Proof.
  intros [Hs Hd]. split; [done|]. intros m nd nd' Hn Hn'.
  specialize (Hd m nd nd' Hn Hn'). case_decide; [|done].
  intros Hl. destruct Hd as [Ha Hb]. split; [auto|].
  destruct Hb as [Hb|(Hb & _)]; [by left|done].
Qed.

Lemma tick_rel_body_rel_trans n s1 s2 s3 :
  tick_rel s1 s2 -> body_rel n s2 s3 -> body_rel n s1 s3.
Proof.
  intros [H1 H1'] [H2 H2']. split; [congruence|].
  intros m nd nd3 Hn Hn3.
  destruct (structure_skeleton _ _ _ _ H1 Hn) as (nd2 & Hn2 & _).
  specialize (H1' m nd nd2 Hn Hn2). specialize (H2' m nd2 nd3 Hn2 Hn3).
  rewrite (structure_tick_count _ _ H1) in H2'.
  case_decide.
  - intros Hl. destruct H1' as [Ha Hb].
    destruct (H2' (Ha Hl)) as [Hc Hd]. split; [done|].
    destruct Hb as [Hb|(Hb & _)]; [|done]. by rewrite <- Hb.
  - by eapply node_step_trans.
Qed.

Lemma body_rel_framed_trans n s1 s2 s3 :
  body_rel n s1 s2 -> framed s2 s3 -> body_rel n s1 s3.
Proof.
  intros [H1 H1'] [H2 H2']. split; [congruence|].
  intros m nd nd3 Hn Hn3.
  destruct (structure_skeleton _ _ _ _ H1 Hn) as (nd2 & Hn2 & _).
  specialize (H1' m nd nd2 Hn Hn2).
  destruct (marks_lookup _ _ _ _ _ H2' Hn2 Hn3) as [Hl Hc].
  unfold node_step_marked, node_step in *. rewrite Hl, Hc. done.
Qed.

(** *** Primitive steps *)

Lemma spec_getNode oof P R `{!Reflexive R} n : spec oof P R (getNode n).
Proof. intros s _. unfold getNode. destruct (nodes s !! n); reflexivity. Qed.

Lemma spec_getTickCount oof P R `{!Reflexive R} : spec oof P R getTickCount.
Proof. intros s _. simpl. reflexivity. Qed.

Lemma spec_getBlockSize oof P R `{!Reflexive R} : spec oof P R getBlockSize.
Proof. intros s _. simpl. reflexivity. Qed.

Lemma spec_out_of_fuel {A} P R : spec True P R (out_of_fuel (A:=A)).
Proof. by intros s _. Qed.

Lemma spec_modifyNode oof P n f :
  benign f -> spec oof P framed (modifyNode n f).
Proof.
  intros Hf s _. simpl. split.
  - unfold structure. simpl. f_equal.
    rewrite (list_fmap_alter _ _ id).
    + by apply list_alter_id.
    + apply Forall_forall. intros nd _. apply Hf.
  - unfold marks. simpl.
    rewrite (list_fmap_alter _ _ id).
    + by apply list_alter_id.
    + apply Forall_forall. intros nd _. simpl.
      destruct (Hf nd) as (_ & -> & ->). done.
Qed.

Lemma benign_set_output_buffers g :
  benign (fun nd : Node => set_output_buffers (g nd) nd).
Proof. by intros nd. Qed.

Lemma benign_set_input_buffers g :
  benign (fun nd : Node => set_input_buffers (g nd) nd).
Proof. by intros nd. Qed.

Lemma benign_set_is_processing b : benign (F:=F) (D:=D) (set_is_processing b).
Proof. by intros nd. Qed.

Lemma benign_set_properties (g : Property F -> Property F) k :
  (forall p, p_connection (g p) = p_connection p) ->
  benign (fun nd : Node => set_properties (alter g k (properties nd)) nd).
Proof.
  intros Hg nd. repeat split. unfold node_skeleton. simpl. f_equal.
  rewrite (fmap_alter _ _ id).
  - apply alter_id. done.
  - intros p _. apply Hg.
Qed.

End Relations.

Section Getters.
Context {F D : Type} `{!Float F} `{!NodeConstants} `{!Kernels F D}.

Local Abbreviation M := (M F D).
Local Abbreviation Node := (Node F D).
Local Abbreviation Simulation := (Simulation F D).

Implicit Types (s : Simulation) (P : Simulation -> Prop)
  (R : Simulation -> Simulation -> Prop) (oof : Prop).

Lemma reads_spec {A} oof P R `{!Reflexive R} (m : M A) :
  reads m -> (forall s, P s -> oof \/ m s <> OutOfFuel) -> spec oof P R m.
Proof.
  intros Hm Ht s Ps. specialize (Hm s). specialize (Ht s Ps).
  destruct (m s); subst; try reflexivity. by destruct Ht.
Qed.

Lemma well_linked_structure lrank L s s' :
  structure s' = structure s -> well_linked lrank L s -> well_linked lrank L s'.
Proof.
  intros Hs Hw n nd' Hn'.
  destruct (structure_skeleton s' s n nd' (eq_sym Hs) Hn') as (nd & Hn & Hsk).
  destruct (Hw n nd Hn) as [HL Hlinks]. split; [done|].
  intros m Hm. apply Hlinks. unfold node_links in *.
  unfold node_skeleton in Hsk.
  replace (node_class nd) with (node_class nd') by congruence.
  replace (forwarded_properties nd) with (forwarded_properties nd') by congruence.
  done.
Qed.

Lemma node_links_forward (nd : Node) slot target sl :
  forwarded_properties nd !! slot = Some (target, sl) -> target ∈ node_links nd.
Proof.
  intros Hf. unfold node_links. apply elem_of_app. right.
  apply list_elem_of_fmap. exists (slot, (target, sl)). split; [done|].
  by apply elem_of_map_to_list.
Qed.

Lemma node_links_input (nd : Node) i o :
  node_class nd = SubgraphNodeClass (Some i) o -> i ∈ node_links nd.
Proof.
  intros Hc. unfold node_links. rewrite Hc. apply elem_of_app. left.
  simpl. by left.
Qed.

Lemma node_links_output (nd : Node) i o :
  node_class nd = SubgraphNodeClass i (Some o) -> o ∈ node_links nd.
Proof.
  intros Hc. unfold node_links. rewrite Hc. apply elem_of_app. left.
  apply elem_of_app. right. simpl. by left.
Qed.

Lemma fuel_for_link lrank L s n nd m fuel :
  well_linked lrank L s -> nodes s !! n = Some nd -> m ∈ node_links nd ->
  fuel_for lrank s n (S fuel) -> fuel_for lrank s m fuel.
Proof.
  intros Hw Hn Hm [_ Hf]. destruct (Hw n nd Hn) as [_ Hl].
  specialize (Hl m Hm). specialize (Hf nd Hn). split; [lia|]. intros _ _. lia.
Qed.

Lemma getProperty_reads fuel n slot : reads (F:=F) (D:=D) (getProperty fuel n slot).
Proof.
  revert n slot. induction fuel as [|fuel IH]; intros n slot s; [done|].
  simpl. unfold bind, getNode. destruct (nodes s !! n) as [nd|]; [|done].
  destruct (forwarded_properties nd !! slot) as [[target sl]|].
  - apply IH.
  - by destruct (properties nd !! slot).
Qed.

Lemma getProperty_total lrank L s fuel n slot :
  well_linked lrank L s -> fuel_for lrank s n fuel ->
  getProperty fuel n slot s <> OutOfFuel.
Proof.
  intros Hw. revert n slot. induction fuel as [|fuel IH]; intros n slot Hf.
  { destruct Hf. lia. }
  simpl. unfold bind, getNode. destruct (nodes s !! n) as [nd|] eqn:Hn; [|done].
  destruct (forwarded_properties nd !! slot) as [[target sl]|] eqn:Hfw.
  - apply IH. eapply fuel_for_link; eauto using node_links_forward.
  - by destruct (properties nd !! slot).
Qed.

Lemma getInputConnectionCount_reads fuel n : reads (F:=F) (D:=D) (getInputConnectionCount fuel n).
Proof.
  revert n. induction fuel as [|fuel IH]; intros n s; [done|].
  simpl. unfold bind, getNode. destruct (nodes s !! n) as [nd|]; [|done].
  destruct (node_class nd) as [|[i|] o]; [done| |done]. apply IH.
Qed.

Lemma getInputConnectionCount_total lrank L s fuel n :
  well_linked lrank L s -> fuel_for lrank s n fuel ->
  getInputConnectionCount fuel n s <> OutOfFuel.
Proof.
  intros Hw. revert n. induction fuel as [|fuel IH]; intros n Hf.
  { destruct Hf. lia. }
  simpl. unfold bind, getNode. destruct (nodes s !! n) as [nd|] eqn:Hn; [|done].
  destruct (node_class nd) as [|[i|] o] eqn:Hc; [done| |done].
  apply IH. eapply fuel_for_link; eauto using node_links_input.
Qed.

Lemma getInputConnection_reads fuel n which : reads (F:=F) (D:=D) (getInputConnection fuel n which).
Proof.
  revert n. induction fuel as [|fuel IH]; intros n s; [done|].
  cbn [getInputConnection]. unfold bind at 1. unfold getNode.
  destruct (nodes s !! n) as [nd|]; [|done].
  destruct (node_class nd) as [|i o].
  - by destruct (_ || _).
  - unfold bind. pose proof (getInputConnectionCount_reads (S fuel) n s) as Hc.
    destruct (getInputConnectionCount (S fuel) n s) as [c s'| |]; subst; [|done|done].
    destruct (_ || _); [done|]. destruct i; [apply IH|done].
Qed.

Lemma getInputConnection_total lrank L s fuel n which :
  well_linked lrank L s -> fuel_for lrank s n fuel ->
  getInputConnection fuel n which s <> OutOfFuel.
Proof.
  intros Hw. revert n. induction fuel as [|fuel IH]; intros n Hf.
  { destruct Hf. lia. }
  cbn [getInputConnection]. unfold bind at 1. unfold getNode.
  destruct (nodes s !! n) as [nd|] eqn:Hn; [|done].
  destruct (node_class nd) as [|i o] eqn:Hc.
  - by destruct (_ || _).
  - unfold bind. pose proof (getInputConnectionCount_reads (S fuel) n s) as Hr.
    pose proof (getInputConnectionCount_total lrank L s (S fuel) n Hw Hf) as Ht.
    destruct (getInputConnectionCount (S fuel) n s) as [c s'| |]; subst; [|done|done].
    destruct (_ || _); [done|]. destruct i as [i|]; [|done].
    apply IH. eapply fuel_for_link; eauto using node_links_input.
Qed.

Lemma getOutputBufferCount_reads fuel n : reads (F:=F) (D:=D) (getOutputBufferCount fuel n).
Proof.
  revert n. induction fuel as [|fuel IH]; intros n s; [done|].
  simpl. unfold bind, getNode. destruct (nodes s !! n) as [nd|]; [|done].
  destruct (node_class nd) as [|i [o|]]; [done| |done]. apply IH.
Qed.

Lemma getOutputBufferCount_total lrank L s fuel n :
  well_linked lrank L s -> fuel_for lrank s n fuel ->
  getOutputBufferCount fuel n s <> OutOfFuel.
Proof.
  intros Hw. revert n. induction fuel as [|fuel IH]; intros n Hf.
  { destruct Hf. lia. }
  simpl. unfold bind, getNode. destruct (nodes s !! n) as [nd|] eqn:Hn; [|done].
  destruct (node_class nd) as [|i [o|]] eqn:Hc; [done| |done].
  apply IH. eapply fuel_for_link; eauto using node_links_output.
Qed.

Lemma getOutputBufferArray_reads fuel n : reads (F:=F) (D:=D) (getOutputBufferArray fuel n).
Proof.
  revert n. induction fuel as [|fuel IH]; intros n s; [done|].
  simpl. unfold bind, getNode. destruct (nodes s !! n) as [nd|]; [|done].
  destruct (node_class nd) as [|i [o|]]; [by case_bool_decide| |done]. apply IH.
Qed.

Lemma getOutputBufferArray_total lrank L s fuel n :
  well_linked lrank L s -> fuel_for lrank s n fuel ->
  getOutputBufferArray fuel n s <> OutOfFuel.
Proof.
  intros Hw. revert n. induction fuel as [|fuel IH]; intros n Hf.
  { destruct Hf. lia. }
  simpl. unfold bind, getNode. destruct (nodes s !! n) as [nd|] eqn:Hn; [|done].
  destruct (node_class nd) as [|i [o|]] eqn:Hc; [by case_bool_decide| |done].
  apply IH. eapply fuel_for_link; eauto using node_links_output.
Qed.

End Getters.

(** Steps through a computation built from [bind], [ret], [throw], loops
    and case distinctions, leaving the calls for the hint base. *)
Ltac spec_go :=
  repeat first
    [ solve [eauto 3 with spec]
    | apply spec_ret; apply _
    | apply spec_throw; apply _
    | apply spec_bind; [apply _ | assumption | | intros ?]
    | apply spec_forM; [apply _ | assumption | intros ? _; cbv beta]
    | apply spec_foldM; [apply _ | assumption | intros ? ? _; cbv beta]
    | match goal with
      | |- spec _ _ _ (match ?x with _ => _ end) => destruct x
      | |- spec _ _ _ (if ?x then _ else _) => destruct x
      end ].

Create HintDb spec discriminated.

Section Frames.
Context {F D : Type} `{!Float F} `{!NodeConstants} `{!Kernels F D}.

Local Abbreviation M := (M F D).
Local Abbreviation Node := (Node F D).
Local Abbreviation Simulation := (Simulation F D).

Variables (oof : Prop) (P : Simulation -> Prop)
  (R : Simulation -> Simulation -> Prop) (fuel : nat)
  (lrank : node_id -> nat) (L : nat).
Context `{!PreOrder R}.
Hypothesis Hframed : forall s s', framed s s' -> R s s'.
Hypothesis HP : stable P R.
Hypothesis Hfuel : oof \/ (L <= fuel /\ 0 < fuel).
Hypothesis Hlinked : forall s, P s -> oof \/ well_linked lrank L s.

Lemma enough_fuel s n : P s -> oof \/ fuel_for lrank s n fuel.
Proof using Hfuel Hlinked.
  intros Ps. destruct Hfuel as [?|(HL & H0)]; [by left|].
  destruct (Hlinked s Ps) as [?|Hw]; [by left|right].
  split; [done|]. intros nd Hn. destruct (Hw n nd Hn). lia.
Qed.

Lemma well_linked_P s : P s -> oof \/ well_linked lrank L s.
Proof using Hlinked. apply Hlinked. Qed.

Lemma spec_getProperty n slot : spec oof P R (getProperty fuel n slot).
Proof using Hfuel Hlinked PreOrder0.
  apply reads_spec; [apply _|apply getProperty_reads|]. intros s Ps.
  destruct (enough_fuel s n Ps) as [?|Hf]; [by left|].
  destruct (well_linked_P s Ps) as [?|Hw]; [by left|right].
  by eapply getProperty_total.
Qed.

Lemma spec_getInputConnectionCount n : spec oof P R (getInputConnectionCount fuel n).
Proof using Hfuel Hlinked PreOrder0.
  apply reads_spec; [apply _|apply getInputConnectionCount_reads|]. intros s Ps.
  destruct (enough_fuel s n Ps) as [?|Hf]; [by left|].
  destruct (well_linked_P s Ps) as [?|Hw]; [by left|right].
  by eapply getInputConnectionCount_total.
Qed.

Lemma spec_getInputConnection n which : spec oof P R (getInputConnection fuel n which).
Proof using Hfuel Hlinked PreOrder0.
  apply reads_spec; [apply _|apply getInputConnection_reads|]. intros s Ps.
  destruct (enough_fuel s n Ps) as [?|Hf]; [by left|].
  destruct (well_linked_P s Ps) as [?|Hw]; [by left|right].
  by eapply getInputConnection_total.
Qed.

Lemma spec_getOutputBufferCount n : spec oof P R (getOutputBufferCount fuel n).
Proof using Hfuel Hlinked PreOrder0.
  apply reads_spec; [apply _|apply getOutputBufferCount_reads|]. intros s Ps.
  destruct (enough_fuel s n Ps) as [?|Hf]; [by left|].
  destruct (well_linked_P s Ps) as [?|Hw]; [by left|right].
  by eapply getOutputBufferCount_total.
Qed.

Lemma spec_getOutputBufferArray n : spec oof P R (getOutputBufferArray fuel n).
Proof using Hfuel Hlinked PreOrder0.
  apply reads_spec; [apply _|apply getOutputBufferArray_reads|]. intros s Ps.
  destruct (enough_fuel s n Ps) as [?|Hf]; [by left|].
  destruct (well_linked_P s Ps) as [?|Hw]; [by left|right].
  by eapply getOutputBufferArray_total.
Qed.

Lemma spec_getNode' n : spec oof P R (getNode n).
Proof using PreOrder0. apply spec_getNode; apply _. Qed.

Lemma spec_getTickCount' : spec oof P R getTickCount.
Proof using PreOrder0. apply spec_getTickCount; apply _. Qed.

Lemma spec_getBlockSize' : spec oof P R getBlockSize.
Proof using PreOrder0. apply spec_getBlockSize; apply _. Qed.

Lemma spec_modifyNode' n f : benign f -> spec oof P R (modifyNode n f).
Proof using Hframed.
  intros Hf. eapply spec_weaken; [| |by apply (spec_modifyNode oof P n f)]; auto.
Qed.

Hint Resolve spec_getProperty spec_getInputConnectionCount spec_getInputConnection
  spec_getOutputBufferCount spec_getOutputBufferArray spec_getNode'
  spec_getTickCount' spec_getBlockSize' : spec.

Lemma spec_readProperty r : spec oof P R (readProperty r).
Proof using PreOrder0 HP. unfold readProperty. spec_go. Qed.

Lemma spec_modifyProperty r g :
  (forall p, p_connection (g p) = p_connection p) ->
  spec oof P R (modifyProperty r g).
Proof using Hframed.
  intros Hg. unfold modifyProperty. apply spec_modifyNode'.
  by apply benign_set_properties.
Qed.

Lemma spec_modifyOutputBuffer p j g : spec oof P R (modifyOutputBuffer p j g).
Proof using Hframed PreOrder0.
  unfold modifyOutputBuffer. destruct p; [|spec_go].
  apply spec_modifyNode', benign_set_output_buffers.
Qed.

Lemma spec_modifyInputBuffer p j g : spec oof P R (modifyInputBuffer p j g).
Proof using Hframed PreOrder0.
  unfold modifyInputBuffer. destruct p; [|spec_go].
  apply spec_modifyNode', benign_set_input_buffers.
Qed.

Hint Resolve spec_readProperty spec_modifyOutputBuffer spec_modifyInputBuffer : spec.

Lemma spec_readInput r : spec oof P R (readInput r).
Proof using PreOrder0 HP.
  unfold readInput. destruct r; spec_go.
Qed.

Hint Resolve spec_readInput : spec.

Lemma spec_getConnectedNodes r : spec oof P R (getConnectedNodes r).
Proof using PreOrder0 HP. unfold getConnectedNodes. spec_go. Qed.

Lemma spec_outputBlock producer which : spec oof P R (outputBlock fuel producer which).
Proof using Hfuel Hlinked PreOrder0 HP. unfold outputBlock. spec_go. Qed.

Lemma spec_accumulate r mixing block : spec oof P R (accumulate r mixing block).
Proof using Hframed PreOrder0 HP.
  unfold accumulate. destruct r; spec_go.
  - apply spec_modifyNode'. apply benign_set_input_buffers.
  - by apply spec_modifyProperty.
  - intros s _. apply Hframed. by split.
Qed.

Lemma spec_getState n : spec oof P R (getState fuel n).
Proof using Hfuel Hlinked PreOrder0 HP. unfold getState. spec_go. Qed.

Lemma spec_zeroOutputBuffers n : spec oof P R (zeroOutputBuffers fuel n).
Proof using Hfuel Hlinked Hframed PreOrder0 HP. unfold zeroOutputBuffers. spec_go. Qed.

Lemma spec_getInputBufferCount n : spec oof P R (getInputBufferCount n).
Proof using PreOrder0 HP. unfold getInputBufferCount. spec_go. Qed.

Lemma spec_getInputBufferArray n : spec oof P R (getInputBufferArray n).
Proof using PreOrder0 HP. unfold getInputBufferArray. spec_go. Qed.

Hint Resolve spec_getInputBufferCount spec_getInputBufferArray : spec.

Lemma spec_zeroInputBuffers n : spec oof P R (zeroInputBuffers n).
Proof using Hframed PreOrder0 HP. unfold zeroInputBuffers. spec_go. Qed.

Lemma spec_willProcessParents n : spec oof P R (willProcessParents n).
Proof using PreOrder0. unfold willProcessParents. spec_go. Qed.

Lemma spec_applyMulAdd n : spec oof P R (applyMulAdd fuel n).
Proof using Hfuel Hlinked Hframed PreOrder0 HP. unfold applyMulAdd. spec_go. Qed.

Hint Resolve spec_outputBlock spec_accumulate spec_getState spec_zeroOutputBuffers
  spec_zeroInputBuffers spec_willProcessParents spec_applyMulAdd
  spec_getConnectedNodes : spec.

Lemma spec_getDependencies n : spec oof P R (getDependencies fuel n).
Proof using Hfuel Hlinked PreOrder0 HP. unfold getDependencies. spec_go. Qed.

(** *** Steps that tick other nodes *)

Variable rec : node_id -> M unit.
Hypothesis Hrec : forall m, spec oof P R (rec m).

Lemma spec_InputConnection_add r mixing :
  spec oof P R (InputConnection_add rec fuel r mixing).
Proof using All. unfold InputConnection_add. spec_go. Qed.

Hint Resolve spec_InputConnection_add : spec.

Lemma spec_Property_tick r : spec oof P R (Property_tick rec fuel r).
Proof using All.
  unfold Property_tick. spec_go. by apply spec_modifyProperty.
Qed.

Hint Resolve spec_Property_tick : spec.

Lemma spec_tickProperties n : spec oof P R (tickProperties rec fuel n).
Proof using All. unfold tickProperties. spec_go. Qed.

(** [Node::tick] from [tickProperties] up to the point where
    [is_processing] is set, just before [process()]. *)
Lemma spec_gather_inputs n (k : M unit) :
  spec oof P R k ->
  spec oof P R
    (tickProperties rec fuel n >>
     willProcessParents n >>
     zeroInputBuffers n >>
     let* r := getProperty fuel n Lav_NODE_CHANNEL_INTERPRETATION in
     let* p := readProperty r in
     let needsMixing := bool_decide (getIntValue p = Lav_CHANNEL_INTERPRETATION_SPEAKERS) in
     let* count := getInputConnectionCount fuel n in
     forM (seq 0 count) (fun i =>
       let* c := getInputConnection fuel n (Z.of_nat i) in
       InputConnection_add rec fuel c needsMixing) >> k).
Proof using All.
  intros Hk. pose proof spec_tickProperties. spec_go.
Qed.

End Frames.

Section Tick.
Context {F D : Type} `{!Float F} `{!NodeConstants} `{!Kernels F D}.

Local Abbreviation M := (M F D).
Local Abbreviation Node := (Node F D).
Local Abbreviation Simulation := (Simulation F D).

Implicit Types (s : Simulation) (nd : Node).

Lemma unprocessed_mono_list (tc : Z) (l l' : list Node) :
  Forall2 (fun nd nd' => last_processed nd = tc -> last_processed nd' = tc) l l' ->
  length (filter (fun nd => last_processed nd <> tc) l') <=
  length (filter (fun nd => last_processed nd <> tc) l).
Proof.
  induction 1 as [|nd nd' l l' Hnd Hl IH]; [done|].
  rewrite !filter_cons.
  destruct (decide (last_processed nd' <> tc)) as [Hne'|He'];
    destruct (decide (last_processed nd <> tc)) as [Hne|He]; simpl; lia.
Qed.

Lemma unprocessed_mark_list (tc : Z) (l : list Node) n nd :
  l !! n = Some nd -> last_processed nd <> tc ->
  S (length (filter (fun nd => last_processed nd <> tc)
               (alter (set_last_processed tc) n l))) =
  length (filter (fun nd => last_processed nd <> tc) l).
Proof.
  revert n. induction l as [|x l IH]; intros [|n] Hn Hne; simplify_eq/=.
  - rewrite !filter_cons. simpl.
    destruct (decide (tc <> tc)); [done|].
    by destruct (decide (last_processed nd <> tc)).
  - rewrite !filter_cons.
    destruct (decide (last_processed x <> tc)); simpl; by rewrite (IH n).
Qed.

Lemma mark_structure n s : structure (mark n s) = structure s.
Proof.
  unfold structure, mark. simpl. f_equal.
  rewrite (list_fmap_alter _ _ id); [by apply list_alter_id|].
  by apply Forall_forall.
Qed.

Lemma tick_rel_mono s s' : tick_rel s s' -> mono_rel s s'.
Proof.
  intros [Hs Hd]. split; [done|]. intros m nd nd' Hn Hn'.
  by destruct (Hd m nd nd' Hn Hn').
Qed.

Lemma body_rel_mono n s s' : body_rel n s s' -> mono_rel s s'.
Proof.
  intros [Hs Hd]. split; [done|]. intros m nd nd' Hn Hn' Hl.
  specialize (Hd m nd nd' Hn Hn'). case_decide.
  - by destruct (Hd Hl).
  - destruct Hd. auto.
Qed.

Lemma unprocessed_mono s s' : mono_rel s s' -> unprocessed s' <= unprocessed s.
Proof.
  intros [Hs Hm]. unfold unprocessed. rewrite (structure_tick_count _ _ Hs).
  apply unprocessed_mono_list. apply Forall2_same_length_lookup_2.
  - symmetry. by apply structure_length.
  - intros i nd nd' Hn Hn'. by eapply Hm.
Qed.

Lemma unprocessed_mark n s nd :
  nodes s !! n = Some nd -> last_processed nd <> tick_count s ->
  S (unprocessed (mark n s)) = unprocessed s.
Proof. intros Hn Hne. by apply unprocessed_mark_list with nd. Qed.

Lemma body_rel_refl n s : body_rel n s s.
Proof. apply tick_rel_body_rel. reflexivity. Qed.

(** A node that was not processed, is marked, and then runs the body of its
    tick, has made one step of the tick relation. *)
Lemma mark_body_tick_rel n s nd s' :
  nodes s !! n = Some nd -> last_processed nd <> tick_count s ->
  body_rel n (mark n s) s' -> tick_rel s s'.
Proof.
  intros Hn Hne [Hs Hb]. rewrite mark_structure in Hs. split; [done|].
  intros m nd0 nd' Hm Hm'.
  specialize (Hb m). unfold mark in Hb. simpl in Hb.
  destruct (decide (m = n)) as [->|Hnm].
  - rewrite list_lookup_alter_eq, Hm in Hb. simpl in Hb.
    specialize (Hb _ nd' eq_refl Hm').
    assert (nd0 = nd) as -> by congruence.
    destruct (Hb eq_refl) as [Hl Hc]. split; [done|].
    destruct Hc as [Hc|Hc]; [by left|by right].
  - rewrite list_lookup_alter_ne in Hb by done. by apply Hb.
Qed.

Lemma run_process_body_rel oof P n :
  spec oof P (body_rel n) (modifyNode n run_process).
Proof.
  intros s _. simpl. split.
  - unfold structure. simpl. f_equal.
    rewrite (list_fmap_alter _ _ id); [by apply list_alter_id|].
    by apply Forall_forall.
  - intros m nd nd' Hm Hm'. simpl in Hm'.
    destruct (decide (m = n)) as [->|Hnm].
    + rewrite list_lookup_alter_eq, Hm in Hm'. simplify_eq/=.
      intros Hl. split; [done|]. by right.
    + rewrite list_lookup_alter_ne in Hm' by done. simplify_eq.
      apply node_step_refl.
Qed.

(** *** The tick relation holds of [tick], and [tick] terminates

    [oof] selects the reading: with [oof := True] the statement is about
    the runs that return, with [oof := False] it includes termination, from
    stores whose links are well founded and in which at most [k] nodes are
    unprocessed, with fuel above [k + L]. *)

Variables (oof : Prop) (lrank : node_id -> nat) (L : nat).

Lemma tick_pre_stable k R :
  (forall s s', R s s' -> mono_rel s s') -> stable (tick_pre oof lrank L k) R.
Proof.
  intros HR s s' [?|[Hw Hu]] Hss'; [by left|right].
  apply HR in Hss'. split.
  - eapply well_linked_structure; [apply Hss'|done].
  - pose proof (unprocessed_mono _ _ Hss'). lia.
Qed.

Lemma tick_pre_linked k s : tick_pre oof lrank L k s -> oof \/ well_linked lrank L s.
Proof. intros [?|[? ?]]; auto. Qed.

Lemma tick_pre_mark k n s nd :
  nodes s !! n = Some nd -> last_processed nd <> tick_count s ->
  tick_pre oof lrank L k s -> tick_pre oof lrank L (pred k) (mark n s) /\ (oof \/ 0 < k).
Proof.
  intros Hn Hne [?|[Hw Hu]]; [split; by left|].
  pose proof (unprocessed_mark n s nd Hn Hne). split; [|right; lia].
  right. split; [|lia].
  eapply well_linked_structure; [apply mark_structure|done].
Qed.

Lemma framed_mono s s' : framed s s' -> mono_rel s s'.
Proof. intros Hf. by apply tick_rel_mono, framed_tick_rel. Qed.

Section Bodies.
Variables (fuel k : nat) (rec : node_id -> M unit).
Hypothesis Hfuel : oof \/ (L <= fuel /\ 0 < fuel).
Hypothesis Hrec : forall m, spec oof (tick_pre oof lrank L k) tick_rel (rec m).

Local Hint Resolve tick_pre_stable tick_rel_mono body_rel_mono framed_mono
  framed_tick_rel tick_pre_linked : core.

Lemma spec_bind_body {A B} n (m : M A) (f : A -> M B) :
  spec oof (tick_pre oof lrank L k) tick_rel m ->
  (forall a, spec oof (tick_pre oof lrank L k) (body_rel n) (f a)) ->
  spec oof (tick_pre oof lrank L k) (body_rel n) (bind m f).
Proof.
  apply spec_bind_gen.
  - apply tick_pre_stable. auto.
  - apply tick_rel_body_rel.
  - apply tick_rel_body_rel_trans.
Qed.

Tactic Notation "frames" uconstr(lem) := eapply lem; try apply _; eauto.

Lemma spec_Node_tick_process n :
  spec oof (tick_pre oof lrank L k) (body_rel n) (Node_tick_process rec fuel n).
Proof using All.
  unfold Node_tick_process.
  apply spec_bind_body; [frames spec_tickProperties|intros _].
  apply spec_bind_body; [frames spec_willProcessParents|intros _].
  apply spec_bind_body; [frames spec_zeroInputBuffers|intros _].
  apply spec_bind_body; [frames spec_getProperty|intros r].
  apply spec_bind_body; [frames spec_readProperty|intros p].
  apply spec_bind_body; [frames spec_getInputConnectionCount|intros count].
  apply spec_bind_body.
  - eapply spec_forM; [apply _|by auto|]. intros i _.
    eapply spec_bind; [apply _|by auto| |intros c].
    + frames spec_getInputConnection.
    + frames spec_InputConnection_add.
  - intros _. apply spec_bind_body.
    + frames spec_modifyNode'. apply benign_set_is_processing.
    + intros _. apply run_process_body_rel.
Qed.

(** The rest of [Node::tick] after the node has been marked. *)
Lemma spec_Node_tick_rest n :
  spec oof (tick_pre oof lrank L k) (body_rel n)
    (zeroOutputBuffers fuel n >>
     let* st := getState fuel n in
     if bool_decide (st = Lav_NODESTATE_PAUSED) then ret tt else
     Node_tick_process rec fuel n >>
     applyMulAdd fuel n >>
     modifyNode n (set_is_processing false)).
Proof using All.
  apply spec_bind_body; [frames spec_zeroOutputBuffers|intros _].
  apply spec_bind_body; [frames spec_getState|intros st].
  case_bool_decide.
  { intros s _. apply body_rel_refl. }
  eapply (spec_bind_gen _ _ (tick_pre oof lrank L k) (body_rel n) framed (body_rel n)).
  - apply tick_pre_stable. apply body_rel_mono.
  - auto.
  - apply body_rel_framed_trans.
  - apply spec_Node_tick_process.
  - intros _. eapply spec_bind; [apply _|by auto| |intros _].
    + frames spec_applyMulAdd.
    + frames spec_modifyNode'. apply benign_set_is_processing.
Qed.

Lemma spec_SubgraphNode_tick_rest n o :
  spec oof (tick_pre oof lrank L k) tick_rel
    (let* st := getState fuel n in
     if bool_decide (st = Lav_NODESTATE_PAUSED) then ret tt else
     tickProperties rec fuel n >>
     willProcessParents n >>
     match o with
     | None => ret tt
     | Some o => rec o >> applyMulAdd fuel n
     end).
Proof using All.
  pose proof (tick_pre_stable k tick_rel tick_rel_mono).
  eapply spec_bind; [apply _|done| |intros st].
  { frames spec_getState. }
  case_bool_decide; [apply spec_ret; apply _|].
  eapply spec_bind; [apply _|done| |intros _].
  { frames spec_tickProperties. }
  eapply spec_bind; [apply _|done| |intros _].
  { frames spec_willProcessParents. }
  destruct o as [o|]; [|apply spec_ret; apply _].
  eapply spec_bind; [apply _|done|apply Hrec|intros _].
  frames spec_applyMulAdd.
Qed.

End Bodies.

Lemma spec_tick fuel k n :
  oof \/ k + L < fuel ->
  spec oof (tick_pre oof lrank L k) tick_rel (tick fuel n).
Proof.
  revert k n. induction fuel as [|fuel IH]; intros k n Hfuel.
  { intros s _. simpl. destruct Hfuel; [done|lia]. }
  assert (Hf : oof \/ (L <= S fuel /\ 0 < S fuel)).
  { destruct Hfuel; [by left|right; lia]. }
  intros s Ps. cbn [tick]. unfold bind at 1. unfold getNode.
  destruct (nodes s !! n) as [nd|] eqn:Hn; [|simpl; reflexivity].
  assert (Hrest : forall (rest : M unit),
    (oof \/ 0 < k -> spec oof (tick_pre oof lrank L (pred k)) (body_rel n) rest) ->
    match (let* nd := getNode n in
           let* tc := getTickCount in
           if bool_decide (last_processed nd = tc) then ret tt else
           modifyNode n (set_last_processed tc) >> rest) s with
    | Ok _ s' => tick_rel s s'
    | Throw _ s' => tick_rel s s'
    | OutOfFuel => oof
    end).
  { intros rest Hrest. unfold bind at 1. unfold getNode. rewrite Hn.
    unfold bind at 1. unfold getTickCount.
    case_bool_decide as Hlp; [simpl; reflexivity|].
    unfold bind at 1. unfold modifyNode.
    destruct (tick_pre_mark k n s nd Hn Hlp Ps) as [Pm Hk].
    specialize (Hrest Hk (mark n s) Pm). unfold mark in Hrest.
    destruct (rest _) as [[] s'|e s'|]; [| |done];
      by eapply mark_body_tick_rel. }
  assert (Hrec : oof \/ 0 < k ->
                 forall m, spec oof (tick_pre oof lrank L (pred k)) tick_rel (tick fuel m)).
  { intros Hk m. apply IH. destruct Hfuel as [?|Hfuel]; [by left|].
    destruct Hk as [?|Hk]; [by left|right]. lia. }
  destruct (node_class nd) as [|i o].
  - apply Hrest. intros Hk. apply spec_Node_tick_rest; auto.
  - apply Hrest. intros Hk. eapply spec_weaken; [done|apply tick_rel_body_rel|].
    apply spec_SubgraphNode_tick_rest; auto.
Qed.

End Tick.

Section TickResults.
Context {F D : Type} `{!Float F} `{!NodeConstants} `{!Kernels F D}.

Local Abbreviation M := (M F D).
Local Abbreviation Node := (Node F D).
Local Abbreviation Simulation := (Simulation F D).

Implicit Types (s : Simulation) (nd : Node).

Lemma tick_tick_rel fuel n s :
  match tick fuel n s with
  | Ok _ s' => tick_rel s s'
  | Throw _ s' => tick_rel s s'
  | OutOfFuel => True
  end.
Proof.
  apply (spec_tick True (fun _ => 0) 0 fuel 0 n); by left.
Qed.

Lemma tick_terminates lrank L fuel n s :
  well_linked lrank L s -> unprocessed s + L < fuel ->
  tick fuel n s <> OutOfFuel.
Proof.
  intros Hw Hfuel.
  pose proof (spec_tick False lrank L fuel (unprocessed s) n (or_intror Hfuel) s) as Ht.
  intros Heq. rewrite Heq in Ht. apply Ht. right. split; [done|lia].
Qed.

Lemma set_tick_count_structure tc s s' :
  tick_rel (set_tick_count tc s) s' ->
  tick_count s' = tc /\ length (nodes s') = length (nodes s) /\
  dedup_rel (set_tick_count tc s) s'.
Proof.
  intros [Hs Hd]. split; [|split; [|done]].
  - by rewrite (structure_tick_count _ _ Hs).
  - by rewrite (structure_length _ _ Hs).
Qed.


Lemma Simulation_tick_terminates lrank L fuel s :
  well_linked lrank L s -> length (nodes s) + L < fuel ->
  Simulation_tick fuel s <> OutOfFuel.
Proof.
  intros Hw Hfuel Heq. unfold Simulation_tick, bind at 1 in Heq.
  assert (Hf1 : False \/ (L <= fuel /\ 0 < fuel)) by (right; lia).
  assert (Hf2 : False \/ length (nodes s) + L < fuel) by (right; lia).
  pose proof (spec_InputConnection_add False
                (tick_pre False lrank L (length (nodes s))) tick_rel fuel lrank L
                framed_tick_rel
                (tick_pre_stable False lrank L _ tick_rel tick_rel_mono)
                Hf1
                (tick_pre_linked False lrank L _)
                (tick fuel)
                (fun m => spec_tick False lrank L fuel _ m Hf2)
                FinalOutput false
                (set_tick_count (tick_count s + 1) s)) as Hs.
  rewrite Heq in Hs. apply Hs. right. split; [done|].
  unfold unprocessed. simpl. apply length_filter.
Qed.

End TickResults.

Section Dependencies.
Context {F D : Type} `{!Float F} `{!NodeConstants} `{!Kernels F D}.

Local Abbreviation M := (M F D).
Local Abbreviation Node := (Node F D).
Local Abbreviation Simulation := (Simulation F D).

Implicit Types (s : Simulation) (nd : Node).

(** *** More fuel does not change a result *)

Lemma bind_more_fuel {A B} (m m' : M A) (f f' : A -> M B) s :
  bind m f s <> OutOfFuel ->
  (m s <> OutOfFuel -> m' s = m s) ->
  (forall a s', m s = Ok a s' -> f a s' <> OutOfFuel -> f' a s' = f a s') ->
  bind m' f' s = bind m f s.
Proof.
  unfold bind. intros Hb Hm Hf.
  destruct (m s) as [a s'|e s'|] eqn:Hms; [| |done].
  - rewrite Hm by done. by apply Hf.
  - by rewrite Hm.
Qed.

Lemma foldM_more_fuel {A X} (f f' : A -> X -> M A) a (l : list X) s :
  foldM f a l s <> OutOfFuel ->
  (forall a x s', f a x s' <> OutOfFuel -> f' a x s' = f a x s') ->
  foldM f' a l s = foldM f a l s.
Proof.
  intros Hb Hf. revert a s Hb. induction l as [|x l IH]; intros a s Hb; [done|].
  simpl in *. apply bind_more_fuel; [done|apply Hf|]. intros a' s' _. apply IH.
Qed.

Lemma getInputConnectionCount_more_fuel fuel fuel' n s :
  fuel <= fuel' -> getInputConnectionCount fuel n s <> OutOfFuel ->
  getInputConnectionCount fuel' n s = getInputConnectionCount fuel n s.
Proof.
  revert fuel' n s. induction fuel as [|fuel IH]; intros [|fuel'] n s Hle Hne;
    [done|done|lia|].
  cbn [getInputConnectionCount] in *. apply bind_more_fuel; [done|done|].
  intros nd s' Hnd Hne'.
  destruct (node_class nd) as [|[i|] o]; [done| |done].
  apply IH; [lia|done].
Qed.

Lemma getInputConnection_more_fuel fuel fuel' n which s :
  fuel <= fuel' -> getInputConnection fuel n which s <> OutOfFuel ->
  getInputConnection fuel' n which s = getInputConnection fuel n which s.
Proof.
  revert fuel' n s. induction fuel as [|fuel IH]; intros [|fuel'] n s Hle Hne;
    [done|done|lia|].
  cbn [getInputConnection] in *. apply bind_more_fuel; [done|done|].
  intros nd s' Hnd Hne'.
  destruct (node_class nd) as [|i o]; [done|].
  apply bind_more_fuel; [done| |].
  - apply getInputConnectionCount_more_fuel. lia.
  - intros c s'' _ Hne''. destruct (_ || _); [done|].
    destruct i as [i|]; [|done]. apply IH; [lia|done].
Qed.

Lemma getDependencies_more_fuel fuel fuel' n s :
  fuel <= fuel' -> getDependencies fuel n s <> OutOfFuel ->
  getDependencies fuel' n s = getDependencies fuel n s.
Proof.
  intros Hle Hne. unfold getDependencies in *.
  apply bind_more_fuel; [done| |].
  { by apply getInputConnectionCount_more_fuel. }
  intros count s' _ Hne'. apply bind_more_fuel; [done| |done].
  intros Hne''. apply foldM_more_fuel; [done|].
  intros retval i s'' Hne3. apply bind_more_fuel; [done| |done].
  by apply getInputConnection_more_fuel.
Qed.

Lemma getDependencies_reads fuel n : reads (F:=F) (D:=D) (getDependencies fuel n).
Proof.
  intros s.
  pose proof (spec_getDependencies True (fun _ => True) eq fuel (fun _ => 0) 0
                ltac:(by intros ? ? _ _) (or_introl I) (fun _ _ => or_introl I)
                n s I) as Hs.
  destruct (getDependencies fuel n s); auto.
Qed.

Lemma getDependencies_total lrank L fuel n s :
  well_linked lrank L s -> L <= fuel -> 0 < fuel ->
  getDependencies fuel n s <> OutOfFuel.
Proof.
  intros Hw HL H0 Heq.
  pose proof (spec_getDependencies False (fun x => x = s) eq fuel lrank L
                ltac:(by intros ? ? -> <-) (or_intror (conj HL H0))
                ltac:(intros ? ->; by right) n s eq_refl) as Hs.
  by rewrite Heq in Hs.
Qed.

Lemma getDependencies_valid fuel n s deps s' :
  getDependencies fuel n s = Ok deps s' -> is_Some (nodes s !! n).
Proof.
  unfold getDependencies. intros Hd.
  destruct (nodes s !! n) eqn:Hn; [done|]. exfalso.
  destruct fuel as [|fuel]; [done|].
  cbn [getInputConnectionCount] in Hd. unfold bind at 1 2 in Hd.
  unfold getNode in Hd. by rewrite Hn in Hd.
Qed.

Lemma dep_elem fuel n s deps s' m :
  getDependencies fuel n s = Ok deps s' -> dep s n m <-> m ∈ deps.
Proof.
  intros Hd. pose proof (getDependencies_reads fuel n s) as Hr.
  rewrite Hd in Hr. subst s'. split.
  - intros (fuel' & deps' & Hd' & Hm).
    assert (getDependencies (max fuel fuel') n s = Ok deps s) as H1.
    { rewrite <- Hd. apply getDependencies_more_fuel; [lia|by rewrite Hd]. }
    assert (getDependencies (max fuel fuel') n s = Ok deps' s) as H2.
    { rewrite <- Hd'. apply getDependencies_more_fuel; [lia|by rewrite Hd']. }
    congruence.
  - intros Hm. by exists fuel, deps.
Qed.

Lemma dep_valid s n m : dep s n m -> n < length (nodes s).
Proof.
  intros (fuel & deps & Hd & _). apply lookup_lt_is_Some.
  by eapply getDependencies_valid.
Qed.

(** *** The depth-first search *)

Lemma allM_reads {X} (f : X -> M bool) (l : list X) :
  (forall x, reads (f x)) -> reads (allM f l).
Proof.
  intros Hf. induction l as [|x l IH]; intros s; simpl; [done|].
  unfold bind. specialize (Hf x s). destruct (f x s) as [[] s'| |]; subst; try done.
  apply IH.
Qed.

Lemma doesEdgePreserveAcyclicity_reads fuel start end_ :
  reads (F:=F) (D:=D) (doesEdgePreserveAcyclicity fuel start end_).
Proof.
  revert start. induction fuel as [|fuel IH]; intros start s; [done|].
  cbn [doesEdgePreserveAcyclicity]. case_bool_decide; [done|].
  unfold bind. pose proof (getDependencies_reads (S fuel) start s) as Hr.
  destruct (getDependencies (S fuel) start s) as [deps s'| |]; subst; try done.
  apply allM_reads. intros n. apply IH.
Qed.

Lemma allM_total {X} (f : X -> M bool) (l : list X) s :
  (forall x, reads (f x)) ->
  (forall x, x ∈ l -> f x s <> OutOfFuel) ->
  allM f l s <> OutOfFuel.
Proof.
  intros Hr. induction l as [|x l IH]; intros Hf; simpl; [done|].
  unfold bind. specialize (Hr x s).
  pose proof (Hf x (list_elem_of_here _ _)) as Hx.
  destruct (f x s) as [[] s'| |]; subst; try done.
  apply IH. intros y Hy. apply Hf. by right.
Qed.

Lemma allM_false {X} (f : X -> M bool) (l : list X) s s' :
  (forall x, reads (f x)) ->
  allM f l s = Ok false s' -> exists x, x ∈ l /\ f x s = Ok false s.
Proof.
  intros Hr. induction l as [|x l IH]; simpl; [done|].
  unfold bind. pose proof (Hr x s) as Hx.
  destruct (f x s) as [[] s1| |] eqn:Hfx; subst; try done.
  - intros Hl. destruct (IH Hl) as (y & Hy & Hfy). exists y. split; [by right|done].
  - intros _. exists x. split; [by left|done].
Qed.

Lemma allM_true {X} (f : X -> M bool) (l : list X) s s' :
  (forall x, reads (f x)) ->
  allM f l s = Ok true s' -> forall x, x ∈ l -> f x s = Ok true s.
Proof.
  intros Hr. induction l as [|x l IH]; simpl; [by intros _ y Hy%elem_of_nil|].
  unfold bind. pose proof (Hr x s) as Hx.
  destruct (f x s) as [[] s1| |] eqn:Hfx; subst; try done.
  intros Hl y Hy. apply elem_of_cons in Hy as [->|Hy]; [done|]. by apply IH.
Qed.

(** The search answers [false] exactly when [end_] is [start] or one of its
    direct or transitive dependencies. *)
Lemma doesEdgePreserveAcyclicity_reach fuel start end_ s b s' :
  doesEdgePreserveAcyclicity fuel start end_ s = Ok b s' ->
  b = false <-> rtc (dep s) start end_.
Proof.
  revert start b s'. induction fuel as [|fuel IH]; intros start b s'; [done|].
  cbn [doesEdgePreserveAcyclicity]. case_bool_decide as Hse.
  { intros [= <- <-]. subst. done. }
  unfold bind. pose proof (getDependencies_reads (S fuel) start s) as Hr.
  destruct (getDependencies (S fuel) start s) as [deps s1| |] eqn:Hd; subst; try done.
  intros Hall.
  assert (Hreads : forall n, reads (F:=F) (D:=D) (doesEdgePreserveAcyclicity fuel n end_))
    by (intros n; apply doesEdgePreserveAcyclicity_reads).
  destruct b.
  - split; [done|]. intros Hrtc. exfalso.
    apply rtc_inv in Hrtc as [->|(n & Hdep & Hrtc)]; [done|].
    eapply dep_elem in Hdep; [|done].
    pose proof (allM_true _ _ _ _ Hreads Hall n) as Hn.
    rewrite elem_of_elements in Hn. specialize (Hn Hdep).
    by apply IH in Hn as [_ Hn]; specialize (Hn Hrtc).
  - split; [|done]. intros _.
    destruct (allM_false _ _ _ _ Hreads Hall) as (n & Hn & Hfn).
    apply elem_of_elements in Hn.
    eapply rtc_l; [by eapply dep_elem|]. by eapply IH.
Qed.

Lemma doesEdgePreserveAcyclicity_total_visited lrank L s end_ :
  well_linked lrank L s -> acyclic s ->
  forall fuel (visited : gset nat) start,
    (forall v, v ∈ visited -> tc (dep s) v start) ->
    (forall v, v ∈ visited -> v < length (nodes s)) ->
    length (nodes s) + L < fuel + size visited ->
    doesEdgePreserveAcyclicity fuel start end_ s <> OutOfFuel.
Proof.
  intros Hw Hacyc. induction fuel as [|fuel IH]; intros visited start Hreach Hvalid Hfuel.
  all: assert (size visited <= length (nodes s)) as Hsize.
  1,3: rewrite <- (size_set_seq (C:=gset nat) 0 (length (nodes s)));
       apply subseteq_size; intros v Hv; apply elem_of_set_seq;
       specialize (Hvalid v Hv); lia.
  { lia. }
  cbn [doesEdgePreserveAcyclicity]. case_bool_decide as Hse; [done|].
  unfold bind. pose proof (getDependencies_reads (S fuel) start s) as Hr.
  pose proof (getDependencies_total lrank L (S fuel) start s Hw) as Ht.
  destruct (getDependencies (S fuel) start s) as [deps s1| |] eqn:Hd; subst; try done.
  2: { exfalso. apply Ht; [lia|lia|done]. }
  apply allM_total; [intros n; apply doesEdgePreserveAcyclicity_reads|].
  intros n Hn%elem_of_elements.
  assert (dep s start n) as Hdep by (by eapply dep_elem).
  assert (start ∉ visited) as Hfresh.
  { intros Hv. by apply (Hacyc start), Hreach. }
  apply (IH (visited ∪ {[start]})).
  - intros v [Hv| ->%elem_of_singleton]%elem_of_union.
    + eapply tc_r; [by apply Hreach|done].
    + by apply tc_once.
  - intros v [Hv| ->%elem_of_singleton]%elem_of_union; [by apply Hvalid|].
    by eapply dep_valid.
  - rewrite size_union by set_solver. rewrite size_singleton. lia.
Qed.

Lemma doesEdgePreserveAcyclicity_total lrank L s fuel start end_ :
  well_linked lrank L s -> acyclic s ->
  length (nodes s) + L < fuel ->
  doesEdgePreserveAcyclicity fuel start end_ s <> OutOfFuel.
Proof.
  intros Hw Hacyc Hfuel.
  apply (doesEdgePreserveAcyclicity_total_visited lrank L s end_ Hw Hacyc fuel ∅).
  - set_solver.
  - set_solver.
  - rewrite size_empty. lia.
Qed.

(** A ranking that descends along the dependencies rules out cycles. *)
Lemma ranked_acyclic (rank : nat -> nat) s :
  (forall n m, dep s n m -> rank m < rank n) -> acyclic s.
Proof.
  intros Hrank n Hn.
  assert (forall a b, tc (dep s) a b -> rank b < rank a) as Htc.
  { induction 1 as [a b Hab|a b c Hab _ IH]; [by apply Hrank|].
    specialize (Hrank _ _ Hab). lia. }
  specialize (Htc n n Hn). lia.
Qed.

End Dependencies.

Section Connect.
Context {F D : Type} `{!Float F} `{!NodeConstants} `{!Kernels F D}.

Local Abbreviation M := (M F D).
Local Abbreviation Node := (Node F D).
Local Abbreviation Simulation := (Simulation F D).

Implicit Types (s : Simulation) (nd : Node).

Lemma add_edge_once e (c : InputConnection) :
  length (filter (fun e' => e' = e) (ic_connected (add_edge e c))) = 1.
Proof.
  unfold add_edge. simpl. rewrite filter_app, length_app.
  rewrite filter_cons, decide_True by done. simpl.
  destruct (filter _ (filter _ _)) as [|x xs] eqn:Hf; [done|].
  assert (x ∈ x :: xs) as Hx by left. rewrite <- Hf in Hx.
  apply list_elem_of_filter in Hx as [-> Hx].
  by apply list_elem_of_filter in Hx as [? _].
Qed.


Lemma makeConnection_NodeInput e owner i s c :
  readInput (NodeInput owner i) s = Ok c s ->
  exists s', makeConnection e (NodeInput owner i) s = Ok tt s' /\
             edge_added s s' e (NodeInput owner i).
Proof.
  unfold readInput, bind, getNode. intros Hr.
  destruct (nodes s !! owner) as [ond|] eqn:Ho; [|done].
  destruct (input_connections ond !! i) as [c0|] eqn:Hi; [|done].
  injection Hr as ->. eexists. split; [reflexivity|].
  exists c. split; [|split].
  - unfold readInput, bind, getNode. by rewrite Ho, Hi.
  - unfold readInput, bind, getNode. simpl.
    rewrite list_lookup_alter_eq, Ho. simpl.
    by rewrite list_lookup_alter_eq, Hi.
  - intros r' c' Hne. destruct r' as [m j|pr|]; simpl.
    + unfold bind, getNode. simpl.
      destruct (decide (m = owner)) as [->|Hm].
      * rewrite list_lookup_alter_eq, Ho. simpl.
        assert (j <> i) by congruence.
        rewrite list_lookup_alter_ne by done.
        destruct (input_connections ond !! j); [|done]. by intros [= ->].
      * rewrite list_lookup_alter_ne by done.
        destruct (nodes s !! m) as [mnd|]; [|done].
        destruct (input_connections mnd !! j); [|done]. by intros [= ->].
    + unfold readProperty, bind, getNode. simpl.
      destruct (decide (pr.1 = owner)) as [Hp|Hp].
      * rewrite Hp, list_lookup_alter_eq, Ho. simpl.
        destruct (properties ond !! pr.2) as [p|]; [|done]. simpl.
        destruct (p_connection p); [|done]. by intros [= ->].
      * rewrite list_lookup_alter_ne by done.
        destruct (nodes s !! pr.1) as [mnd|]; [|done].
        destruct (properties mnd !! pr.2) as [p|]; [|done]. simpl.
        destruct (p_connection p); [|done]. by intros [= ->].
    + by intros [= ->].
Qed.


End Connect.

Section Gain.
Context {F D : Type} `{!Float F} `{!NodeConstants} `{!Kernels F D}.

Local Abbreviation M := (M F D).
Local Abbreviation Node := (Node F D).
Local Abbreviation Simulation := (Simulation F D).

Implicit Types (s : Simulation) (nd : Node) (bufs : list (list F)).

Lemma with_outputs_lookup n bufs s nd :
  nodes s !! n = Some nd ->
  nodes (with_outputs n bufs s) !! n = Some (set_output_buffers bufs nd).
Proof. intros Hn. simpl. by rewrite list_lookup_alter_eq, Hn. Qed.

Lemma with_outputs_lookup_ne n m bufs s :
  m <> n -> nodes (with_outputs n bufs s) !! m = nodes s !! m.
Proof. intros Hn. simpl. by rewrite list_lookup_alter_ne. Qed.

Lemma with_outputs_twice n bufs bufs' s :
  with_outputs n bufs' (with_outputs n bufs s) = with_outputs n bufs' s.
Proof.
  unfold with_outputs, set_nodes. simpl. f_equal.
  rewrite list_alter_alter_eq. apply list_alter_ext; [|done]. by intros nd _.
Qed.

Lemma with_outputs_same n s nd :
  nodes s !! n = Some nd -> with_outputs n (output_buffers nd) s = s.
Proof.
  intros Hn. unfold with_outputs. destruct s as [tc bs fc fb ns]. simpl in *.
  unfold set_nodes. simpl. f_equal.
  apply list_eq. intros i. rewrite list_lookup_alter.
  case_decide; [|done]. subst. rewrite Hn. simpl. by destruct nd.
Qed.

Lemma readProperty_with_outputs r n bufs s p :
  readProperty r s = Ok p s ->
  readProperty r (with_outputs n bufs s) = Ok p (with_outputs n bufs s).
Proof.
  destruct r as [m slot]. unfold readProperty, bind, getNode. simpl.
  destruct (decide (m = n)) as [->|Hm].
  - rewrite list_lookup_alter_eq.
    destruct (nodes s !! n) as [nd|]; [|done]. simpl.
    destruct (properties nd !! slot); [|done]. by intros [= ->].
  - rewrite list_lookup_alter_ne by done.
    destruct (nodes s !! m) as [nd|]; [|done].
    destruct (properties nd !! slot); [|done]. by intros [= ->].
Qed.

Lemma getOutputBufferCount_base fuel n s nd :
  nodes s !! n = Some nd -> node_class nd = NodeBase ->
  getOutputBufferCount (S fuel) n s = Ok (length (output_buffers nd)) s.
Proof.
  intros Hn Hc. cbn [getOutputBufferCount]. unfold bind, getNode.
  by rewrite Hn, Hc.
Qed.

Lemma getOutputBufferArray_base fuel n s nd :
  nodes s !! n = Some nd -> node_class nd = NodeBase ->
  getOutputBufferArray (S fuel) n s =
  Ok (if bool_decide (length (output_buffers nd) = 0) then None else Some n) s.
Proof.
  intros Hn Hc. cbn [getOutputBufferArray]. unfold bind, getNode.
  rewrite Hn, Hc. by case_bool_decide.
Qed.

Lemma modifyOutputBuffer_with_outputs n j g bufs s :
  modifyOutputBuffer (Some n) j g (with_outputs n bufs s) =
  Ok tt (with_outputs n (alter g j bufs) s).
Proof.
  unfold modifyOutputBuffer, modifyNode. f_equal.
  unfold with_outputs, set_nodes. simpl. f_equal.
  rewrite list_alter_alter_eq. apply list_alter_ext; [|done]. by intros nd _.
Qed.

(** A loop that rewrites the buffers [a], ..., [a + k - 1] one by one. *)
Lemma foldl_alter_lookup (g : list F -> list F) k a bufs j :
  foldl (fun acc i => alter g i acc) bufs (seq a k) !! j =
  if decide (a <= j < a + k) then g <$> bufs !! j else bufs !! j.
Proof.
  revert a bufs. induction k as [|k IH]; intros a bufs; simpl.
  { case_decide; [lia|done]. }
  rewrite IH, list_lookup_alter.
  repeat case_decide; subst; try lia; done.
Qed.

Lemma foldl_alter_all (g : list F -> list F) bufs :
  foldl (fun acc i => alter g i acc) bufs (seq 0 (length bufs)) = g <$> bufs.
Proof.
  apply list_eq. intros j. rewrite foldl_alter_lookup, list_lookup_fmap.
  case_decide as Hj; [done|].
  rewrite (lookup_ge_None_2 bufs j) by lia. done.
Qed.

Lemma forM_buffers n s nd r p (g : Property F -> list F -> list F) k a bufs :
  nodes s !! n = Some nd ->
  readProperty r s = Ok p s ->
  forM (seq a k) (fun i =>
    let* q := readProperty r in
    modifyOutputBuffer (Some n) i (g q)) (with_outputs n bufs s) =
  Ok tt (with_outputs n (foldl (fun acc i => alter (g p) i acc) bufs (seq a k)) s).
Proof.
  intros Hn Hr. revert a bufs. induction k as [|k IH]; intros a bufs; [done|].
  cbn [forM seq]. unfold bind at 1. unfold bind at 1.
  rewrite (readProperty_with_outputs _ _ _ _ _ Hr). cbv beta iota.
  rewrite modifyOutputBuffer_with_outputs. apply IH.
Qed.

Lemma forM_memset n s k a bs bufs :
  forM (seq a k) (fun i => modifyOutputBuffer (Some n) i (memset0 bs))
    (with_outputs n bufs s) =
  Ok tt (with_outputs n (foldl (fun acc i => alter (memset0 bs) i acc) bufs (seq a k)) s).
Proof.
  revert a bufs. induction k as [|k IH]; intros a bufs; [done|].
  cbn [forM seq]. unfold bind at 1.
  rewrite modifyOutputBuffer_with_outputs. apply IH.
Qed.

(** *** The two kernels, sample by sample *)

Lemma scalarMultiplicationKernel_lookup len c (buf : list F) i y :
  i < len -> buf !! i = Some y ->
  scalarMultiplicationKernel len c buf !! i = Some (fmul y c).
Proof.
  intros Hi Hy. unfold scalarMultiplicationKernel.
  pose proof (lookup_lt_Some _ _ _ Hy).
  rewrite lookup_app_l by (rewrite length_map, length_take; lia).
  change (map ?f ?l) with (f <$> l).
  by rewrite list_lookup_fmap, lookup_take_lt, Hy by done.
Qed.

Lemma scalarAdditionKernel_lookup len c (buf : list F) i y :
  i < len -> buf !! i = Some y ->
  scalarAdditionKernel len c buf !! i = Some (fadd y c).
Proof.
  intros Hi Hy. unfold scalarAdditionKernel.
  pose proof (lookup_lt_Some _ _ _ Hy).
  rewrite lookup_app_l by (rewrite length_map, length_take; lia).
  change (map ?f ?l) with (f <$> l).
  by rewrite list_lookup_fmap, lookup_take_lt, Hy by done.
Qed.

Lemma scalarMultiplicationKernel_length len c (buf : list F) :
  length (scalarMultiplicationKernel len c buf) = length buf.
Proof.
  unfold scalarMultiplicationKernel.
  rewrite length_app, length_map, length_take, length_drop. lia.
Qed.

Lemma scalarAdditionKernel_length len c (buf : list F) :
  length (scalarAdditionKernel len c buf) = length buf.
Proof.
  unfold scalarAdditionKernel.
  rewrite length_app, length_map, length_take, length_drop. lia.
Qed.

Lemma memset0_lookup len (buf : list F) i :
  i < len -> i < length buf -> memset0 len buf !! i = Some fzero.
Proof.
  intros Hi Hb. unfold memset0.
  rewrite lookup_app_l by (rewrite length_replicate; lia).
  apply lookup_replicate_2. lia.
Qed.

Lemma applyMulAdd_k_rate fuel n s nd mulProp addProp mulP addP :
  nodes s !! n = Some nd -> node_class nd = NodeBase ->
  getProperty fuel n Lav_NODE_MUL s = Ok mulProp s ->
  getProperty fuel n Lav_NODE_ADD s = Ok addProp s ->
  readProperty mulProp s = Ok mulP s -> needsARate mulP = false ->
  readProperty addProp s = Ok addP s -> needsARate addP = false ->
  applyMulAdd fuel n s =
  Ok tt (with_outputs n
           ((fun buf => add_stage (block_size nd) (getFloatValue addP)
                          (mul_stage (block_size nd) (getFloatValue mulP) buf))
              <$> output_buffers nd) s).
Proof.
  intros Hn Hc Hmul Hadd HmulP Hkm HaddP Hka.
  destruct fuel as [|fuel]; [done|].
  unfold applyMulAdd. unfold bind at 1. rewrite Hmul.
  unfold bind at 1. rewrite Hadd.
  unfold bind at 1. rewrite (getOutputBufferArray_base _ _ _ _ Hn Hc).
  unfold bind at 1. unfold getNode at 1. rewrite Hn.
  unfold bind at 1. rewrite HmulP. rewrite Hkm.
  set (bs := block_size nd).
  assert (Hmulstage :
    (if fneqb (getFloatValue mulP) fone then
       let* count := getOutputBufferCount (S fuel) n in
       forM (seq 0 count) (fun i =>
         let* mulP := readProperty mulProp in
         modifyOutputBuffer
           (if bool_decide (length (output_buffers nd) = 0) then None else Some n) i
           (scalarMultiplicationKernel bs (getFloatValue mulP)))
     else ret tt) s =
    Ok tt (with_outputs n (mul_stage bs (getFloatValue mulP) <$> output_buffers nd) s)).
  { unfold mul_stage. destruct (fneqb (getFloatValue mulP) fone).
    - unfold bind at 1. rewrite (getOutputBufferCount_base _ _ _ _ Hn Hc).
      case_bool_decide as Hlen.
      + rewrite Hlen. apply nil_length_inv in Hlen. rewrite Hlen. simpl.
        rewrite <- Hlen. by rewrite (with_outputs_same _ _ _ Hn).
      + rewrite <- (with_outputs_same n s nd Hn) at 1.
        rewrite (forM_buffers n s nd mulProp mulP
                   (fun q => scalarMultiplicationKernel bs (getFloatValue q))
                   _ _ _ Hn HmulP).
        by rewrite foldl_alter_all.
    - rewrite list_fmap_id. by rewrite (with_outputs_same _ _ _ Hn). }
  unfold bind at 1. rewrite Hmulstage.
  set (bufs1 := mul_stage bs (getFloatValue mulP) <$> output_buffers nd).
  unfold bind at 1. rewrite (readProperty_with_outputs _ _ _ _ _ HaddP). rewrite Hka.
  unfold add_stage.
  destruct (fneqb (getFloatValue addP) fzero) eqn:Ha.
  - unfold bind at 1.
    rewrite (getOutputBufferCount_base _ _ _ _ (with_outputs_lookup _ _ _ _ Hn) Hc).
    simpl output_buffers. unfold bufs1 at 1. rewrite length_fmap.
    case_bool_decide as Hlen.
    + rewrite Hlen. simpl. f_equal. f_equal.
      apply nil_length_inv in Hlen. unfold bufs1. by rewrite Hlen.
    + rewrite <- (length_fmap (mul_stage bs (getFloatValue mulP))). fold bufs1.
      rewrite (forM_buffers n s nd addProp addP
                 (fun q => scalarAdditionKernel bs (getFloatValue q))
                 _ _ _ Hn HaddP).
      rewrite foldl_alter_all. unfold bufs1. by rewrite <- list_fmap_compose.
  - simpl. f_equal.
Qed.

End Gain.

Section NodeTick.
Context {F D : Type} `{!Float F} `{!NodeConstants} `{!Kernels F D}.

Local Abbreviation M := (M F D).
Local Abbreviation Node := (Node F D).
Local Abbreviation Simulation := (Simulation F D).

Implicit Types (s : Simulation) (nd : Node) (bufs : list (list F)).

Lemma mark_lookup n s nd :
  nodes s !! n = Some nd ->
  nodes (mark n s) !! n = Some (set_last_processed (tick_count s) nd).
Proof. intros Hn. simpl. by rewrite list_lookup_alter_eq, Hn. Qed.

Lemma zeroOutputBuffers_base fuel n s nd :
  nodes s !! n = Some nd -> node_class nd = NodeBase ->
  zeroOutputBuffers (S fuel) n s =
  Ok tt (with_outputs n (memset0 (block_size nd) <$> output_buffers nd) s).
Proof.
  intros Hn Hc. unfold zeroOutputBuffers.
  unfold bind at 1. rewrite (getOutputBufferArray_base _ _ _ _ Hn Hc).
  unfold bind at 1. rewrite (getOutputBufferCount_base _ _ _ _ Hn Hc).
  unfold bind at 1. unfold getNode. rewrite Hn.
  case_bool_decide as Hlen.
  - rewrite Hlen. apply nil_length_inv in Hlen. rewrite Hlen. simpl.
    rewrite <- Hlen. by rewrite (with_outputs_same _ _ _ Hn).
  - rewrite <- (with_outputs_same n s nd Hn) at 1.
    rewrite forM_memset. by rewrite foldl_alter_all.
Qed.

Lemma zeroed_lookup n s nd :
  nodes s !! n = Some nd ->
  nodes (zeroed n nd s) !! n =
  Some (set_output_buffers (memset0 (block_size nd) <$> output_buffers nd)
          (set_last_processed (tick_count s) nd)).
Proof.
  intros Hn. unfold zeroed. by rewrite (with_outputs_lookup _ _ _ _ (mark_lookup _ _ _ Hn)).
Qed.

(** [Node::tick] up to the test of the node state. *)
Lemma Node_tick_unfold rec fuel n s nd :
  nodes s !! n = Some nd -> node_class nd = NodeBase ->
  last_processed nd <> tick_count s ->
  Node_tick rec (S fuel) n s =
  (let* st := getState (S fuel) n in
   if bool_decide (st = Lav_NODESTATE_PAUSED) then ret tt else
   Node_tick_process rec (S fuel) n >>
   applyMulAdd (S fuel) n >>
   modifyNode n (set_is_processing false)) (zeroed n nd s).
Proof.
  intros Hn Hc Hlp. unfold Node_tick.
  unfold bind at 1. unfold getNode at 1. rewrite Hn.
  unfold bind at 1. unfold getTickCount at 1.
  rewrite bool_decide_false by done.
  unfold bind at 1. unfold modifyNode at 1.
  change (set_nodes _ s) with (mark n s).
  unfold bind at 1.
  rewrite (zeroOutputBuffers_base _ _ _ _ (mark_lookup _ _ _ Hn) Hc).
  done.
Qed.

(** A paused node of class [Node]: the output buffers are zeroed and the
    tick returns; [process()] has not been called. *)
Lemma Node_tick_paused rec fuel n s nd :
  nodes s !! n = Some nd -> node_class nd = NodeBase ->
  last_processed nd <> tick_count s ->
  getState (S fuel) n (zeroed n nd s) = Ok Lav_NODESTATE_PAUSED (zeroed n nd s) ->
  Node_tick rec (S fuel) n s = Ok tt (zeroed n nd s) /\
  exists nd', nodes (zeroed n nd s) !! n = Some nd' /\
    process_calls nd' = process_calls nd /\
    length (output_buffers nd') = length (output_buffers nd) /\
    forall j buf i, output_buffers nd' !! j = Some buf ->
      i < block_size nd -> i < length buf -> buf !! i = Some fzero.
Proof.
  intros Hn Hc Hlp Hst. split.
  - rewrite (Node_tick_unfold _ _ _ _ _ Hn Hc Hlp).
    unfold bind at 1. rewrite Hst. by rewrite bool_decide_true.
  - eexists. split; [by apply zeroed_lookup|]. simpl. split; [done|].
    split; [by rewrite length_fmap|].
    intros j buf i Hj Hi Hlen. rewrite list_lookup_fmap in Hj.
    destruct (output_buffers nd !! j) as [buf0|]; [|done]. simpl in Hj.
    injection Hj as <-. apply memset0_lookup; [done|].
    unfold memset0 in Hlen.
    rewrite length_app, length_replicate, length_drop in Hlen. lia.
Qed.

(** Gain and bias at the end of the tick of a playing node of class
    [Node], from the store [s_p] that [process()] left. *)
Lemma Node_tick_gain rec fuel n s nd s_p nd_p st mulProp addProp mulP addP :
  nodes s !! n = Some nd -> node_class nd = NodeBase ->
  last_processed nd <> tick_count s ->
  getState fuel n (zeroed n nd s) = Ok st (zeroed n nd s) ->
  st <> Lav_NODESTATE_PAUSED ->
  Node_tick_process rec fuel n (zeroed n nd s) = Ok tt s_p ->
  nodes s_p !! n = Some nd_p -> node_class nd_p = NodeBase ->
  getProperty fuel n Lav_NODE_MUL s_p = Ok mulProp s_p ->
  getProperty fuel n Lav_NODE_ADD s_p = Ok addProp s_p ->
  readProperty mulProp s_p = Ok mulP s_p -> needsARate mulP = false ->
  readProperty addProp s_p = Ok addP s_p -> needsARate addP = false ->
  exists s' nd',
    Node_tick rec fuel n s = Ok tt s' /\
    nodes s' !! n = Some nd' /\
    output_buffers nd' =
      (fun buf => add_stage (block_size nd_p) (getFloatValue addP)
                    (mul_stage (block_size nd_p) (getFloatValue mulP) buf))
        <$> output_buffers nd_p.
Proof.
  intros Hn Hc Hlp Hst Hplay Hproc Hnp Hcp Hmul Hadd HmulP Hkm HaddP Hka.
  destruct fuel as [|fuel]; [done|].
  rewrite (Node_tick_unfold _ _ _ _ _ Hn Hc Hlp).
  unfold bind at 1. rewrite Hst. rewrite bool_decide_false by done.
  unfold bind at 1. rewrite Hproc.
  unfold bind at 1.
  rewrite (applyMulAdd_k_rate _ _ _ _ _ _ _ _ Hnp Hcp Hmul Hadd HmulP Hkm HaddP Hka).
  eexists _, _. split; [reflexivity|]. simpl.
  rewrite list_lookup_alter_eq, list_lookup_alter_eq, Hnp. simpl. done.
Qed.

Lemma gain_sample (m a : F) len (buf : list F) i y :
  (fneqb m fone = false -> forall x, fmul x m = x) ->
  (fneqb a fzero = false -> forall x, fadd x a = x) ->
  i < len -> buf !! i = Some y ->
  add_stage len a (mul_stage len m buf) !! i = Some (fadd (fmul y m) a).
Proof.
  intros Hone Hzero Hi Hy. unfold add_stage, mul_stage.
  destruct (fneqb m fone) eqn:Hm, (fneqb a fzero) eqn:Ha.
  - apply scalarAdditionKernel_lookup; [done|].
    by apply scalarMultiplicationKernel_lookup.
  - rewrite (Hzero eq_refl). by apply scalarMultiplicationKernel_lookup.
  - rewrite (Hone eq_refl). by apply scalarAdditionKernel_lookup.
  - by rewrite (Hzero eq_refl), (Hone eq_refl).
Qed.

End NodeTick.

Section Api.
Context {F D : Type} `{!Float F} `{!NodeConstants} `{!Kernels F D}.

Local Abbreviation M := (M F D).
Local Abbreviation Node := (Node F D).
Local Abbreviation Simulation := (Simulation F D).

Implicit Types (s : Simulation) (nd : Node).

Lemma incomingObject_reads handle : reads (F:=F) (D:=D) (incomingObject handle).
Proof. intros s. unfold incomingObject. by destruct (_ && _). Qed.

Lemma readProperty_reads r : reads (F:=F) (D:=D) (readProperty r).
Proof.
  intros s. unfold readProperty, bind, getNode.
  destruct (nodes s !! r.1) as [nd|]; [|done]. by destruct (properties nd !! r.2).
Qed.

Lemma reads_bind {A B} (m : M A) (f : A -> M B) :
  reads m -> (forall a, reads (f a)) -> reads (bind m f).
Proof.
  intros Hm Hf s. unfold bind. specialize (Hm s).
  destruct (m s) as [a s'|e s'|]; subst; try done. apply Hf.
Qed.

Lemma ptype_neqb_arrays t :
  ptype_neqb t Lav_PROPERTYTYPE_FLOAT_ARRAY || ptype_neqb t Lav_PROPERTYTYPE_INT_ARRAY
  = true.
Proof. by destruct t. Qed.

Lemma getProperty_throws fuel n slot s e s' :
  getProperty fuel n slot s = Throw e s' ->
  e = Lav_ERROR_RANGE \/ e = Lav_ERROR_INTERNAL.
Proof.
  revert n slot. induction fuel as [|fuel IH]; intros n slot; [done|].
  cbn [getProperty]. unfold bind, getNode.
  destruct (nodes s !! n) as [nd|]; [|intros [= <- _]; by right].
  destruct (forwarded_properties nd !! slot) as [[target sl]|]; [apply IH|].
  destruct (properties nd !! slot); [done|]. intros [= <- _]. by left.
Qed.

Lemma readProperty_throws r s e s' :
  readProperty r s = Throw e s' ->
  e = Lav_ERROR_RANGE \/ e = Lav_ERROR_INTERNAL.
Proof.
  unfold readProperty, bind, getNode.
  destruct (nodes s !! r.1) as [nd|]; [|intros [= <- _]; by right].
  destruct (properties nd !! r.2); [done|]. intros [= <- _]. by left.
Qed.

(** Whatever the type of the addressed property, the operation does not
    return NONE, assigns nothing to its out-parameters and leaves the store
    as it is. *)
Lemma Lav_nodeGetArrayPropertyLengthRange_fails fuel handle slot s e o s' :
  Lav_nodeGetArrayPropertyLengthRange fuel handle slot s = Some (e, o, s') ->
  e <> Lav_ERROR_NONE /\ o = None /\ s' = s.
Proof.
  unfold Lav_nodeGetArrayPropertyLengthRange, PUB_out.
  unfold bind at 1. unfold incomingObject.
  destruct (_ && _); [|by intros [= <- <- <-]].
  unfold bind at 1.
  pose proof (getProperty_reads fuel (Z.to_nat handle) slot s) as Hr.
  pose proof (getProperty_throws fuel (Z.to_nat handle) slot s) as Ht.
  destruct (getProperty _ _ _ _) as [r s1|e1 s1|]; subst; [| |done].
  2: { intros [= <- <- <-]. by destruct (Ht _ _ eq_refl) as [-> | ->]. }
  clear Ht. unfold bind at 1.
  pose proof (readProperty_reads r s) as Hr.
  pose proof (readProperty_throws r s) as Ht.
  destruct (readProperty r s) as [p s1|e1 s1|]; subst; [| |done].
  2: { intros [= <- <- <-]. by destruct (Ht _ _ eq_refl) as [-> | ->]. }
  rewrite ptype_neqb_arrays. by intros [= <- <- <-].
Qed.

(** The body of [Lav_nodeResetProperty] only reads the store. *)
Lemma Lav_nodeResetProperty_unchanged fuel handle slot s e s' :
  Lav_nodeResetProperty fuel handle slot s = Some (e, s') -> s' = s.
Proof.
  unfold Lav_nodeResetProperty, PUB.
  match goal with |- context [match ?body s with _ => _ end] =>
    set (b := body); assert (reads (F:=F) (D:=D) b) as Hr end.
  { apply reads_bind; [apply incomingObject_reads|intros n].
    apply reads_bind; [apply getProperty_reads|intros r].
    apply reads_bind; [apply readProperty_reads|intros p].
    by destruct (isReadOnly p). }
  specialize (Hr s).
  destruct (b s) as [[] s1|e1 s1|]; [| |done]; by intros [= <- <-].
Qed.

(** A reset does change a property whose value is not its default. *)
Lemma Property_reset_changes (p : Property F) :
  p_int (p_data p) <> p_default_int (p_data p) -> Property_reset p <> p.
Proof.
  intros Hne Heq. apply Hne. apply (f_equal (fun q => p_int (p_data q))) in Heq.
  by rewrite <- Heq.
Qed.

End Api.


(** ** Statements about the graph *)



(** C9.  In a store whose subgraph and forwarding links are well founded
    and whose dependency graph has no cycle, a tick from any node returns
    (normally or by an exception) once the fuel exceeds the number of
    unprocessed nodes by the link bound, so does a server tick through the
    final output connection, and so does the cycle check
    [doesEdgePreserveAcyclicity] from any pair of nodes. *)
Theorem tick_and_cycle_check_terminate {F D : Type}
    `{!Float F} `{!NodeConstants} `{!Kernels F D}
    (s : Simulation F D) (lrank : nat -> nat) (L : nat) :
  well_linked lrank L s -> acyclic s ->
  (forall n fuel, unprocessed s + L < fuel -> tick fuel n s <> OutOfFuel) /\
  (forall fuel, length (nodes s) + L < fuel -> Simulation_tick fuel s <> OutOfFuel) /\
  (forall start end_ fuel, length (nodes s) + L < fuel ->
     doesEdgePreserveAcyclicity fuel start end_ s <> OutOfFuel).
Proof.
  intros Hw Hacyc. split; [|split].
  - intros n fuel Hfuel. by eapply tick_terminates.
  - intros fuel Hfuel. by eapply Simulation_tick_terminates.
  - intros start end_ fuel Hfuel. by eapply doesEdgePreserveAcyclicity_total.
Qed.

Lemma diamond_well_linked : well_linked (fun _ => 0) 1 diamond.
Proof.
  intros n nd Hn. split; [lia|]. intros m Hm. exfalso.
  assert (node_links nd = []) as Hnil.
  { destruct n as [|[|[|[|n]]]]; simpl in Hn; simplify_eq; reflexivity. }
  rewrite Hnil in Hm. by apply elem_of_nil in Hm.
Qed.

Lemma diamond_dep n m : dep diamond n m -> m < n.
Proof.
  intros Hd. pose proof (dep_valid _ _ _ Hd) as Hn.
  destruct n as [|[|[|[|n]]]]; [| | | |simpl in Hn; lia].
  - assert (getDependencies 1 0 diamond = Ok ∅ diamond) as H0
      by (vm_compute; reflexivity).
    apply (dep_elem _ _ _ _ _ m H0) in Hd. set_solver.
  - assert (getDependencies 1 1 diamond = Ok {[0]} diamond) as H0
      by (vm_compute; reflexivity).
    apply (dep_elem _ _ _ _ _ m H0) in Hd.
    apply elem_of_singleton in Hd. lia.
  - assert (getDependencies 1 2 diamond = Ok {[0]} diamond) as H0
      by (vm_compute; reflexivity).
    apply (dep_elem _ _ _ _ _ m H0) in Hd.
    apply elem_of_singleton in Hd. lia.
  - assert (getDependencies 1 3 diamond = Ok {[1; 2]} diamond) as H0
      by (vm_compute; reflexivity).
    apply (dep_elem _ _ _ _ _ m H0) in Hd.
    apply elem_of_union in Hd as [Hd|Hd]; apply elem_of_singleton in Hd; lia.
Qed.

Lemma diamond_acyclic : acyclic diamond.
Proof. apply (ranked_acyclic (fun n => n)). apply diamond_dep. Qed.

Lemma tick_and_cycle_check_terminate_witness :
  well_linked (fun _ => 0) 1 diamond /\ acyclic diamond /\
  tick 6 3 diamond <> OutOfFuel /\
  Simulation_tick 6 diamond <> OutOfFuel /\
  doesEdgePreserveAcyclicity 6 3 0 diamond <> OutOfFuel.
Proof.
  pose proof (tick_and_cycle_check_terminate diamond (fun _ => 0) 1
                diamond_well_linked diamond_acyclic) as (Ht & Hs & Hd).
  split; [exact diamond_well_linked|]. split; [exact diamond_acyclic|].
  split; [|split].
  - apply Ht. vm_compute. lia.
  - apply Hs. simpl. lia.
  - apply Hd. simpl. lia.
Defined.

Section ConnectResults.
Context {F D : Type} `{!Float F} `{!NodeConstants} `{!Kernels F D}.

Lemma getInputConnection_base fuel toNode input (s : Simulation F D) tnd :
  nodes s !! toNode = Some tnd -> node_class tnd = NodeBase ->
  getInputConnection (S fuel) toNode input s =
  if (input >=? Z.of_nat (length (input_connections tnd)))%Z || (input <? 0)%Z
  then Throw Lav_ERROR_RANGE s
  else Ok (NodeInput toNode (Z.to_nat input)) s.
Proof.
  intros Hn Hc. cbn [getInputConnection]. unfold bind, getNode.
  rewrite Hn, Hc. by destruct (_ || _).
Qed.


End ConnectResults.



(** C3.  For a playing node of class [Node] whose tick has reached the
    call of [process()], leaving the store [s_p], and whose mul and add
    properties are then k-rate with values [m] and [a]: the tick completes,
    and every sample [y] that [process()] left at an offset below the block
    size in an output buffer is [y * m + a] afterwards (the product first,
    then the sum; the product is written in the operand order of the code,
    [outputs[j][i] *= mul]).  The samples need only satisfy what the two
    skipped cases rely on: a factor that compares equal to 1 is a right unit
    of the product and a summand that compares equal to 0 is a right unit of
    the sum. *)
Theorem tick_output_is_mul_y_plus_add {F D : Type}
    `{!Float F} `{!NodeConstants} `{!Kernels F D}
    (rec : nat -> M F D unit) fuel n (s s_p : Simulation F D) nd nd_p st
    mulProp addProp mulP addP (m a : F) :
  (fneqb m fone = false -> forall x, fmul x m = x) ->
  (fneqb a fzero = false -> forall x, fadd x a = x) ->
  nodes s !! n = Some nd -> node_class nd = NodeBase ->
  last_processed nd <> tick_count s ->
  getState fuel n (zeroed n nd s) = Ok st (zeroed n nd s) ->
  st <> Lav_NODESTATE_PAUSED ->
  Node_tick_process rec fuel n (zeroed n nd s) = Ok tt s_p ->
  nodes s_p !! n = Some nd_p -> node_class nd_p = NodeBase ->
  getProperty fuel n Lav_NODE_MUL s_p = Ok mulProp s_p ->
  readProperty mulProp s_p = Ok mulP s_p ->
  needsARate mulP = false -> getFloatValue mulP = m ->
  getProperty fuel n Lav_NODE_ADD s_p = Ok addProp s_p ->
  readProperty addProp s_p = Ok addP s_p ->
  needsARate addP = false -> getFloatValue addP = a ->
  exists s' nd',
    Node_tick rec fuel n s = Ok tt s' /\
    nodes s' !! n = Some nd' /\
    length (output_buffers nd') = length (output_buffers nd_p) /\
    forall j buf i y,
      output_buffers nd_p !! j = Some buf -> buf !! i = Some y ->
      i < block_size nd_p ->
      exists buf', output_buffers nd' !! j = Some buf' /\
                   buf' !! i = Some (fadd (fmul y m) a).
Proof.
  intros Hone Hzero Hn Hc Hlp Hst Hplay Hproc Hnp Hcp Hmul HmulP Hkm Hm
    Hadd HaddP Hka Ha.
  destruct (Node_tick_gain rec fuel n s nd s_p nd_p st mulProp addProp mulP addP
              Hn Hc Hlp Hst Hplay Hproc Hnp Hcp Hmul Hadd HmulP Hkm HaddP Hka)
    as (s' & nd' & Ht & Hn' & Hout).
  exists s', nd'. split; [done|]. split; [done|]. rewrite Hout, Hm, Ha.
  split; [by rewrite length_fmap|].
  intros j buf i y Hj Hi Hbs. eexists. split.
  - by rewrite list_lookup_fmap, Hj.
  - by apply gain_sample.
Qed.

Lemma tick_output_is_mul_y_plus_add_witness :
  exists s' nd',
    Node_tick (tick 1) 2 0 gain_example = Ok tt s' /\
    nodes s' !! 0 = Some nd' /\
    forall i, i < 2 ->
      exists buf', output_buffers nd' !! 0 = Some buf' /\
                   buf' !! i = Some (5 * 3 + 2)%Z.
Proof.
  pose (nd := example_node 1 3 2 5 0 [] [0%Z; 0%Z]).
  pose (nd_p := match nodes gain_processed !! 0 with Some x => x | None => nd end).
  assert (forall x : Z, fneqb 3%Z fone = false -> fmul x 3%Z = x) as Hone
    by (intros x H; vm_compute in H; discriminate).
  assert (forall x : Z, fneqb 2%Z fzero = false -> fadd x 2%Z = x) as Hzero
    by (intros x H; vm_compute in H; discriminate).
  assert (nodes gain_example !! 0 = Some nd) as Hn by reflexivity.
  assert (node_class nd = NodeBase) as Hc by reflexivity.
  assert (last_processed nd <> tick_count gain_example) as Hlp
    by (vm_compute; discriminate).
  assert (getState 2 0 (zeroed 0 nd gain_example) = Ok 1%Z (zeroed 0 nd gain_example))
    as Hst by (vm_compute; reflexivity).
  assert (1%Z <> Lav_NODESTATE_PAUSED) as Hplay by (vm_compute; discriminate).
  assert (Node_tick_process (tick 1) 2 0 (zeroed 0 nd gain_example)
          = Ok tt gain_processed) as Hproc by (vm_compute; reflexivity).
  assert (nodes gain_processed !! 0 = Some nd_p) as Hnp by (vm_compute; reflexivity).
  assert (node_class nd_p = NodeBase) as Hcp by (vm_compute; reflexivity).
  assert (output_buffers nd_p !! 0 = Some [5%Z; 5%Z]) as Hbuf
    by (vm_compute; reflexivity).
  assert (block_size nd_p = 2) as Hbs by (vm_compute; reflexivity).
  assert (getProperty 2 0 Lav_NODE_MUL gain_processed = Ok (0, (-2)%Z) gain_processed)
    as Hmul by (vm_compute; reflexivity).
  assert (readProperty (0, (-2)%Z) gain_processed
          = Ok (example_float_property 3) gain_processed)
    as HmulP by (vm_compute; reflexivity).
  assert (getProperty 2 0 Lav_NODE_ADD gain_processed = Ok (0, (-3)%Z) gain_processed)
    as Hadd by (vm_compute; reflexivity).
  assert (readProperty (0, (-3)%Z) gain_processed
          = Ok (example_float_property 2) gain_processed)
    as HaddP by (vm_compute; reflexivity).
  destruct (tick_output_is_mul_y_plus_add (tick 1) 2 0 gain_example gain_processed
              nd nd_p 1%Z (0, (-2)%Z) (0, (-3)%Z)
              (example_float_property 3) (example_float_property 2) 3%Z 2%Z
              (fun H x => Hone x H) (fun H x => Hzero x H)
              Hn Hc Hlp Hst Hplay Hproc Hnp Hcp
              Hmul HmulP eq_refl eq_refl Hadd HaddP eq_refl eq_refl)
    as (s' & nd' & Ht & Hn' & Hlen & Hsamples).
  exists s', nd'. split; [exact Ht|]. split; [exact Hn'|].
  intros i Hi.
  assert ([5%Z; 5%Z] !! i = Some 5%Z) as Hy
    by (destruct i as [|[|i]]; [reflexivity|reflexivity|lia]).
  rewrite <- Hbs in Hi.
  exact (Hsamples 0 [5%Z; 5%Z] i 5%Z Hbuf Hy Hi).
Defined.

(** C2: the code at the failing input.  One server tick of a store whose
    final output is fed by a paused subgraph node (node 1) with internal
    output node 0: the subgraph node is still paused and no [process()] has
    run, yet the buffers behind its [getOutputBufferArray], and with them
    the final output, hold the block 7, 7 that node 0 produced earlier; they
    are not zeroed. *)
Theorem paused_subgraph_emits_stale_block :
  exists s',
    Simulation_tick 3 paused_subgraph = Ok tt s' /\
    getState 3 1 s' = Ok Lav_NODESTATE_PAUSED s' /\
    process_calls <$> nodes s' = [0; 0] /\
    visible_outputs 3 1 paused_subgraph = Some [[7; 7]]%Z /\
    visible_outputs 3 1 s' = Some [[7; 7]]%Z /\
    final_output_buffers s' = [[7; 7]]%Z.
Proof.
  eexists. split; [vm_compute; reflexivity|].
  repeat split; vm_compute; reflexivity.
Qed.

(** C5: the code at the failing input.  For the float-array property in
    slot 7 of node 0 the operation returns TYPE_MISMATCH and assigns nothing
    to its out-parameters, where the check the spec asks for returns NONE
    with the length range 1 to 8; and the operation returns NONE for no
    property at all. *)
Theorem array_length_range_always_mismatch :
  Lav_nodeGetArrayPropertyLengthRange 2 0 7 array_example =
    Some (Lav_ERROR_TYPE_MISMATCH, None, array_example) /\
  spec_GetArrayPropertyLengthRange 2 0 7 array_example =
    Some (Lav_ERROR_NONE, Some (1, 8), array_example) /\
  (forall (F D : Type) (HF : Float F) (HC : NodeConstants) (HK : Kernels F D)
          fuel handle slot (s : Simulation F D) o s',
     Lav_nodeGetArrayPropertyLengthRange fuel handle slot s
       <> Some (Lav_ERROR_NONE, o, s')).
Proof.
  split; [vm_compute; reflexivity|]. split; [vm_compute; reflexivity|].
  intros F D HF HC HK fuel handle slot s o s' Heq.
  by destruct (Lav_nodeGetArrayPropertyLengthRange_fails _ _ _ _ _ _ _ Heq).
Qed.

(** C10.  [Lav_nodeResetProperty] resets a copy: whatever error code it
    returns, NONE included, the store it leaves is the store it was called
    in, so every property reads as before. *)
Theorem reset_property_leaves_store_unchanged {F D : Type}
    `{!Float F} `{!NodeConstants} `{!Kernels F D}
    fuel nodeHandle slot (s s' : Simulation F D) :
  Lav_nodeResetProperty fuel nodeHandle slot s = Some (Lav_ERROR_NONE, s') ->
  s' = s /\
  forall r, readProperty r s' = readProperty r s.
Proof.
  intros Hr. apply Lav_nodeResetProperty_unchanged in Hr. by subst.
Qed.

Lemma reset_property_leaves_store_unchanged_witness :
  Lav_nodeResetProperty 2 0 (-2) gain_example = Some (Lav_ERROR_NONE, gain_example) /\
  (gain_example = gain_example /\
   forall r, readProperty r gain_example = readProperty r gain_example) /\
  Property_reset (example_float_property 3) <> example_float_property 3.
Proof.
  assert (Lav_nodeResetProperty 2 0 (-2) gain_example
          = Some (Lav_ERROR_NONE, gain_example)) as Hr by (vm_compute; reflexivity).
  split; [exact Hr|]. split.
  - exact (reset_property_leaves_store_unchanged 2 0 (-2)%Z gain_example gain_example Hr).
  - intros Heq. apply (f_equal (fun p => p_float (p_data p))) in Heq.
    vm_compute in Heq. discriminate.
Defined.

(** ** Statements about the delay line *)

(** What [setDelay] does for every line and every argument: the new tap is
    the argument itself converted to an integer, not the clamped local; the
    weights are kept and the crossfade is on. *)
Lemma setDelay_effect (dl : DelayLine.LavDelayLine) (d : Q) :
  DelayLine.new_delay (DelayLine.setDelay dl d) = DelayLine.to_unsigned d /\
  DelayLine.delay (DelayLine.setDelay dl d) = DelayLine.delay dl /\
  DelayLine.weight1 (DelayLine.setDelay dl d) = DelayLine.weight1 dl /\
  DelayLine.weight2 (DelayLine.setDelay dl d) = DelayLine.weight2 dl /\
  DelayLine.is_interpolating (DelayLine.setDelay dl d) = true.
Proof. repeat split. Qed.

(** C6: the code at the failing input.  On a one-second line at 44100 Hz
    (44101 samples), [setDelay(0.5)] stores the tap 0, the integer part of
    the argument in seconds, where the requested delay converted to samples
    and clamped to [line_length - 1] is 22050; the weights are unchanged and
    the crossfade is started. *)
Theorem setDelay_stores_seconds_not_samples :
  DelayLine.line_length line_44100 = 44101%Z /\
  DelayLine.spec_new_delay line_44100 (1 # 2) = 22050%Z /\
  DelayLine.new_delay (DelayLine.setDelay line_44100 (1 # 2)) = 0%Z /\
  DelayLine.weight1 (DelayLine.setDelay line_44100 (1 # 2)) = DelayLine.weight1 line_44100 /\
  DelayLine.weight2 (DelayLine.setDelay line_44100 (1 # 2)) = DelayLine.weight2 line_44100 /\
  DelayLine.is_interpolating (DelayLine.setDelay line_44100 (1 # 2)) = true.
Proof. repeat split; vm_compute; reflexivity. Qed.

(** C7: the code at the failing input.  On a line of 9 samples at 4 Hz,
    after [setDelay(0.5)] (2 samples) with a delta that completes the
    crossfade in one step and the samples 1, 2, 3, 4, 5 advanced in, the
    crossfade is over and the write position is 5; the sample written 2
    steps earlier is 3, and [read()] returns 0, the content of [line[0]]. *)
Theorem read_is_not_the_delayed_sample :
  let dl := foldl DelayLine.advance
                  (DelayLine.setDelay DelayLine.example_line (1 # 2))
                  [1; 2; 3; 4; 5]%Q in
  DelayLine.is_interpolating dl = false /\
  DelayLine.weight1 dl = 1%Q /\ DelayLine.weight2 dl = 0%Q /\
  DelayLine.write_head dl = 5%Z /\
  DelayLine.spec_new_delay DelayLine.example_line (1 # 2) = 2%Z /\
  DelayLine.line_at dl
    (DelayLine.ringmodi (DelayLine.write_head dl - 2) (DelayLine.line_length dl)) = 3%Q /\
  DelayLine.delay dl = 0%Z /\
  DelayLine.read dl = 0%Q /\
  DelayLine.read dl = DelayLine.line_at dl 0 /\
  DelayLine.read (DelayLine.advance dl 6) = 0%Q.
Proof. repeat split; vm_compute; reflexivity. Qed.

(** ** Statements about the late-reflections delay table *)



(** ** Further statements about the accessors *)

Section AccessorResults.
Context {F D : Type} `{!Float F} `{!NodeConstants} `{!Kernels F D}.

Local Abbreviation M := (M F D).
Local Abbreviation Node := (Node F D).
Local Abbreviation Simulation := (Simulation F D).

Implicit Types (s : Simulation) (nd : Node).

Lemma links_valid_lookup s n nd m :
  links_valid s -> nodes s !! n = Some nd -> m ∈ node_links nd ->
  is_Some (nodes s !! m).
Proof. intros Hv Hn Hm. apply lookup_lt_is_Some_2. by eapply Hv. Qed.

Lemma getProperty_valid fuel n slot s r s' :
  getProperty fuel n slot s = Ok r s' ->
  s' = s /\
  exists nd p, nodes s !! r.1 = Some nd /\
               forwarded_properties nd !! r.2 = None /\
               properties nd !! r.2 = Some p /\
               readProperty r s = Ok p s.
Proof.
  revert n slot. induction fuel as [|fuel IH]; intros n slot Hg; [done|].
  simpl in Hg. unfold bind, getNode in Hg.
  destruct (nodes s !! n) as [nd|] eqn:Hn; [|done].
  destruct (forwarded_properties nd !! slot) as [[target sl]|] eqn:Hfw.
  - by apply IH in Hg.
  - destruct (properties nd !! slot) as [p|] eqn:Hp; [|done].
    injection Hg as <- <-. split; [done|]. exists nd, p. simpl.
    repeat split; try done. unfold readProperty, bind, getNode. simpl.
    by rewrite Hn, Hp.
Qed.

(** X1.  [Node::getProperty] only reads the store, and the reference it
    returns names a property that exists: the table of a node of the store
    holds it in that slot, the slot is not itself forwarded there, and
    reading through the reference succeeds. *)
Theorem getProperty_returns_existing_property fuel n slot s r s' :
  getProperty fuel n slot s = Ok r s' ->
  s' = s /\
  exists nd p, nodes s !! r.1 = Some nd /\
               forwarded_properties nd !! r.2 = None /\
               properties nd !! r.2 = Some p /\
               readProperty r s = Ok p s.
Proof. apply getProperty_valid. Qed.

Lemma getInputConnectionCount_subgraph fuel n s nd i o :
  nodes s !! n = Some nd -> node_class nd = SubgraphNodeClass (Some i) o ->
  getInputConnectionCount (S fuel) n s = getInputConnectionCount fuel i s.
Proof. intros Hn Hc. simpl. unfold bind, getNode. by rewrite Hn, Hc. Qed.

Lemma getInputConnection_subgraph fuel n s nd i o c which :
  nodes s !! n = Some nd -> node_class nd = SubgraphNodeClass i o ->
  getInputConnectionCount (S fuel) n s = Ok c s ->
  getInputConnection (S fuel) n which s =
  if (which <? 0)%Z || (which >=? Z.of_nat c)%Z then Throw Lav_ERROR_RANGE s
  else match i with
       | Some i => getInputConnection fuel i which s
       | None => Throw Lav_ERROR_INTERNAL s
       end.
Proof.
  intros Hn Hc Hcount. cbn [getInputConnection]. unfold bind at 1. unfold getNode.
  rewrite Hn, Hc. unfold bind. rewrite Hcount.
  destruct (_ || _); [done|]. by destruct i.
Qed.

Lemma input_connections_consistent lrank L s :
  well_linked lrank L s -> links_valid s ->
  forall fuel n nd, nodes s !! n = Some nd -> lrank n < fuel ->
  exists c,
    getInputConnectionCount fuel n s = Ok c s /\
    forall which,
      ((0 <= which < Z.of_nat c)%Z ->
       exists owner i conn,
         getInputConnection fuel n which s = Ok (NodeInput owner i) s /\
         readInput (NodeInput owner i) s = Ok conn s) /\
      ((which < 0 \/ Z.of_nat c <= which)%Z ->
       getInputConnection fuel n which s = Throw Lav_ERROR_RANGE s).
Proof.
  intros Hw Hv. induction fuel as [|fuel IH]; intros n nd Hn Hf; [lia|].
  destruct (node_class nd) as [|i o] eqn:Hc.
  - exists (length (input_connections nd)). split.
    { simpl. unfold bind, getNode. by rewrite Hn, Hc. }
    intros which.
    assert (getInputConnection (S fuel) n which s =
            if (which >=? Z.of_nat (length (input_connections nd)))%Z || (which <? 0)%Z
            then Throw Lav_ERROR_RANGE s
            else Ok (NodeInput n (Z.to_nat which)) s) as ->.
    { cbn [getInputConnection]. unfold bind, getNode. rewrite Hn, Hc.
      by destruct (_ || _). }
    split.
    + intros Hr.
      replace ((which >=? Z.of_nat (length (input_connections nd)))%Z || (which <? 0)%Z)
        with false by (symmetry; apply orb_false_iff; lia).
      destruct (lookup_lt_is_Some_2 (input_connections nd) (Z.to_nat which))
        as [conn Hconn]; [lia|].
      exists n, (Z.to_nat which), conn. split; [done|].
      unfold readInput, bind, getNode. by rewrite Hn, Hconn.
    + intros Hr.
      replace ((which >=? Z.of_nat (length (input_connections nd)))%Z || (which <? 0)%Z)
        with true; [done|].
      symmetry. apply orb_true_iff. destruct Hr; [right|left]; lia.
  - destruct i as [i|].
    + assert (i ∈ node_links nd) as Hi by (by eapply node_links_input).
      destruct (links_valid_lookup s n nd i Hv Hn Hi) as [ind Hin].
      destruct (Hw n nd Hn) as [_ Hrank]. specialize (Hrank i Hi).
      destruct (IH i ind Hin ltac:(lia)) as (c & Hcount & Hget).
      exists c.
      assert (getInputConnectionCount (S fuel) n s = Ok c s) as Hcount'.
      { by rewrite (getInputConnectionCount_subgraph _ _ _ _ _ _ Hn Hc). }
      split; [done|].
      intros which.
      rewrite (getInputConnection_subgraph _ _ _ _ _ _ _ which Hn Hc Hcount').
      split.
      * intros Hr.
        replace ((which <? 0)%Z || (which >=? Z.of_nat c)%Z)
          with false by (symmetry; apply orb_false_iff; lia).
        by apply Hget.
      * intros Hr.
        replace ((which <? 0)%Z || (which >=? Z.of_nat c)%Z) with true; [reflexivity|].
        symmetry. apply orb_true_iff. destruct Hr; [left|right]; lia.
    + exists 0. split.
      { simpl. unfold bind, getNode. by rewrite Hn, Hc. }
      intros which. split; [lia|]. intros _.
      assert (getInputConnectionCount (S fuel) n s = Ok 0 s) as Hcount.
      { simpl. unfold bind, getNode. by rewrite Hn, Hc. }
      rewrite (getInputConnection_subgraph _ _ _ _ _ _ _ which Hn Hc Hcount).
      replace ((which <? 0)%Z || (which >=? Z.of_nat 0)%Z) with true; [reflexivity|].
      symmetry. apply orb_true_iff.
      destruct (Z.lt_ge_cases which 0); [left; lia|right].
      apply Z.geb_le. simpl. lia.
Qed.

(** X2.  In a store whose links are well founded and resolve, the input
    connections of any node, of class [Node] or [SubgraphNode], are
    consistent with their count: [getInputConnectionCount] returns a count
    [c], [getInputConnection(which)] returns an input side that exists when
    [0 <= which < c], and throws RANGE for every other index.  In
    particular a subgraph node without input node has no input connection
    and its null [subgraph_input] is never dereferenced. *)
Theorem getInputConnection_agrees_with_count lrank L s fuel n nd :
  well_linked lrank L s -> links_valid s ->
  nodes s !! n = Some nd -> L <= fuel ->
  exists c,
    getInputConnectionCount fuel n s = Ok c s /\
    (forall o, node_class nd = SubgraphNodeClass None o -> c = 0) /\
    forall which,
      ((0 <= which < Z.of_nat c)%Z ->
       exists owner i conn,
         getInputConnection fuel n which s = Ok (NodeInput owner i) s /\
         readInput (NodeInput owner i) s = Ok conn s) /\
      ((which < 0 \/ Z.of_nat c <= which)%Z ->
       getInputConnection fuel n which s = Throw Lav_ERROR_RANGE s).
Proof.
  intros Hw Hv Hn Hfuel.
  destruct (Hw n nd Hn) as [Hrank _].
  destruct (input_connections_consistent lrank L s Hw Hv fuel n nd Hn ltac:(lia))
    as (c & Hcount & Hget).
  exists c. split; [done|]. split; [|done].
  intros o Hc. destruct fuel as [|fuel]; [lia|].
  simpl in Hcount. unfold bind, getNode in Hcount. rewrite Hn, Hc in Hcount.
  by injection Hcount.
Qed.

Lemma output_buffers_consistent lrank L s :
  well_linked lrank L s -> links_valid s ->
  forall fuel n nd, nodes s !! n = Some nd -> lrank n < fuel ->
  exists c p,
    getOutputBufferCount fuel n s = Ok c s /\
    getOutputBufferArray fuel n s = Ok p s /\
    match p with
    | Some o => exists ond, nodes s !! o = Some ond /\ node_class ond = NodeBase /\
                            c = length (output_buffers ond) /\ 0 < c
    | None => c = 0
    end.
Proof.
  intros Hw Hv. induction fuel as [|fuel IH]; intros n nd Hn Hf; [lia|].
  destruct (node_class nd) as [|i [o|]] eqn:Hc.
  - exists (length (output_buffers nd)).
    exists (if bool_decide (length (output_buffers nd) = 0) then None else Some n).
    split; [by apply getOutputBufferCount_base|].
    split; [by apply getOutputBufferArray_base|].
    case_bool_decide; [done|]. exists nd. repeat split; try done. lia.
  - assert (o ∈ node_links nd) as Ho by (by eapply node_links_output).
    destruct (links_valid_lookup s n nd o Hv Hn Ho) as [ond Hon].
    destruct (Hw n nd Hn) as [_ Hrank]. specialize (Hrank o Ho).
    destruct (IH o ond Hon ltac:(lia)) as (c & p & Hcount & Harr & Hp).
    exists c, p. split; [|split; [|done]].
    + simpl. unfold bind, getNode. by rewrite Hn, Hc.
    + simpl. unfold bind, getNode. by rewrite Hn, Hc.
  - exists 0, None. split; [|split; [|done]].
    + simpl. unfold bind, getNode. by rewrite Hn, Hc.
    + simpl. unfold bind, getNode. by rewrite Hn, Hc.
Qed.

(** X3.  In a store whose links are well founded and resolve, the output
    buffer array and the output buffer count of any node agree: the array
    is the [output_buffers] vector of a node of class [Node] (the node
    itself, or the innermost output node of a subgraph node) and the count
    is the length of that vector, or the array is [nullptr] and the count
    is 0.  A loop over [0 .. count-1] on the array stays inside the
    vector. *)
Theorem getOutputBufferArray_agrees_with_count lrank L s fuel n nd :
  well_linked lrank L s -> links_valid s ->
  nodes s !! n = Some nd -> L <= fuel ->
  exists c p,
    getOutputBufferCount fuel n s = Ok c s /\
    getOutputBufferArray fuel n s = Ok p s /\
    match p with
    | Some o => exists ond, nodes s !! o = Some ond /\ node_class ond = NodeBase /\
                            c = length (output_buffers ond) /\ 0 < c
    | None => c = 0
    end.
Proof.
  intros Hw Hv Hn Hfuel. destruct (Hw n nd Hn) as [Hrank _].
  apply (output_buffers_consistent lrank L s Hw Hv fuel n nd Hn). lia.
Qed.

End AccessorResults.

(** ** Further statements about the buffers and the tick *)

Section BufferResults.
Context {F D : Type} `{!Float F} `{!NodeConstants} `{!Kernels F D}.

Local Abbreviation M := (M F D).
Local Abbreviation Node := (Node F D).
Local Abbreviation Simulation := (Simulation F D).

Implicit Types (s : Simulation) (nd : Node) (bufs : list (list F)).

Lemma with_outputs_framed n bufs s : framed s (with_outputs n bufs s).
Proof.
  split.
  - unfold structure. simpl. f_equal.
    rewrite (list_fmap_alter _ _ id); [by apply list_alter_id|].
    by apply Forall_forall.
  - unfold marks. simpl.
    rewrite (list_fmap_alter _ _ id); [by apply list_alter_id|].
    by apply Forall_forall.
Qed.

Lemma getOutputBufferArray_with_outputs o ond bufs s :
  nodes s !! o = Some ond -> length bufs = length (output_buffers ond) ->
  forall fuel n p,
    getOutputBufferArray fuel n s = Ok p s ->
    getOutputBufferArray fuel n (with_outputs o bufs s) = Ok p (with_outputs o bufs s).
Proof.
  intros Ho Hlen. induction fuel as [|fuel IH]; intros n p Hg; [done|].
  simpl in *. unfold bind, getNode in *.
  destruct (decide (n = o)) as [->|Hne].
  - simpl. rewrite list_lookup_alter_eq, Ho. rewrite Ho in Hg. simpl.
    destruct (node_class ond) as [|i [o'|]]; [|by apply IH|by injection Hg as <-].
    rewrite Hlen. by destruct (bool_decide _); injection Hg as <-.
  - simpl. rewrite list_lookup_alter_ne by done.
    destruct (nodes s !! n) as [nd|]; [|done].
    destruct (node_class nd) as [|i [o'|]]; [|by apply IH|].
    + by destruct (bool_decide _); injection Hg as <-.
    + by injection Hg as <-.
Qed.

(** X4.  In a store whose links are well founded and resolve,
    [zeroOutputBuffers] on any node returns, and the buffers a consumer
    reads through the node's [getOutputBufferArray] are afterwards the ones
    it read before with their first [block_size] samples set to zero (for a
    subgraph node these are the buffers of its innermost output node, and
    the block size is the subgraph node's own); their number and lengths,
    the graph, the dedup marks and the [process()] counts are unchanged. *)
Theorem zeroOutputBuffers_zeroes_visible_outputs lrank L s fuel n nd :
  well_linked lrank L s -> links_valid s ->
  nodes s !! n = Some nd -> L <= fuel ->
  exists s' bufs,
    zeroOutputBuffers fuel n s = Ok tt s' /\
    visible_outputs fuel n s = Some bufs /\
    visible_outputs fuel n s' = Some (memset0 (block_size nd) <$> bufs) /\
    framed s s' /\
    forall j buf i,
      (memset0 (block_size nd) <$> bufs) !! j = Some buf ->
      i < block_size nd -> i < length buf -> buf !! i = Some fzero.
Proof.
  intros Hw Hv Hn Hfuel.
  assert (lrank n < fuel) as Hrank by (destruct (Hw n nd Hn); lia).
  destruct (output_buffers_consistent lrank L s Hw Hv fuel n nd Hn Hrank)
    as (c & p & Hcount & Harr & Hp).
  assert (forall bufs j buf i,
            (memset0 (block_size nd) <$> bufs) !! j = Some buf ->
            i < block_size nd -> i < length buf -> buf !! i = Some fzero) as Hzero.
  { intros bufs j buf i Hj Hi Hlen. rewrite list_lookup_fmap in Hj.
    destruct (bufs !! j) as [buf0|]; [|done]. simpl in Hj.
    injection Hj as <-. apply memset0_lookup; [done|].
    unfold memset0 in Hlen.
    rewrite length_app, length_replicate, length_drop in Hlen. lia. }
  unfold zeroOutputBuffers.
  unfold bind at 1. rewrite Harr. unfold bind at 1. rewrite Hcount.
  unfold bind at 1. unfold getNode. rewrite Hn.
  destruct p as [o|].
  - destruct Hp as (ond & Ho & Hclass & -> & Hpos).
    exists (with_outputs o (memset0 (block_size nd) <$> output_buffers ond) s),
           (output_buffers ond).
    split.
    { rewrite <- (with_outputs_same o s ond Ho) at 1.
      rewrite forM_memset. by rewrite foldl_alter_all. }
    split. { unfold visible_outputs. by rewrite Harr, Ho. }
    split.
    { unfold visible_outputs.
      assert (length (memset0 (block_size nd) <$> output_buffers ond)
              = length (output_buffers ond)) as Hlen by (by rewrite length_fmap).
      rewrite (getOutputBufferArray_with_outputs o ond _ s Ho Hlen fuel n (Some o) Harr).
      by rewrite (with_outputs_lookup _ _ _ _ Ho). }
    split; [apply with_outputs_framed|apply Hzero].
  - subst c. exists s, []. split; [done|].
    split. { unfold visible_outputs. by rewrite Harr. }
    split. { unfold visible_outputs. by rewrite Harr. }
    split; [reflexivity|apply Hzero].
Qed.

Lemma with_inputs_same n s nd :
  nodes s !! n = Some nd -> with_inputs n (input_buffers nd) s = s.
Proof.
  intros Hn. unfold with_inputs. destruct s as [tc bs fc fb ns]. simpl in *.
  unfold set_nodes. simpl. f_equal.
  apply list_eq. intros i. rewrite list_lookup_alter.
  case_decide; [|done]. subst. rewrite Hn. simpl. by destruct nd.
Qed.

Lemma modifyInputBuffer_with_inputs n j g bufs s :
  modifyInputBuffer (Some n) j g (with_inputs n bufs s) =
  Ok tt (with_inputs n (alter g j bufs) s).
Proof.
  unfold modifyInputBuffer, modifyNode. f_equal.
  unfold with_inputs, set_nodes. simpl. f_equal.
  rewrite list_alter_alter_eq. apply list_alter_ext; [|done]. by intros nd _.
Qed.

Lemma forM_memset_inputs n s k a bufs :
  forM (seq a k) (fun i =>
    let* bs := getBlockSize in
    modifyInputBuffer (Some n) i (memset0 bs)) (with_inputs n bufs s) =
  Ok tt (with_inputs n
           (foldl (fun acc i => alter (memset0 (sim_block_size s)) i acc) bufs (seq a k)) s).
Proof.
  revert a bufs. induction k as [|k IH]; intros a bufs; [done|].
  cbn [forM seq]. unfold bind at 1. unfold bind at 1. unfold getBlockSize at 1.
  cbv beta iota. rewrite modifyInputBuffer_with_inputs.
  change (sim_block_size (with_inputs n bufs s)) with (sim_block_size s).
  apply IH.
Qed.

(** X5.  [zeroInputBuffers] on a node returns and sets the first
    [simulation->getBlockSize()] samples of each of the node's own input
    buffers to zero; nothing else in the store changes: the node's output
    buffers, properties and connections, and every other node, are as
    before. *)
Theorem zeroInputBuffers_zeroes_own_inputs n s nd :
  nodes s !! n = Some nd ->
  exists s' nd',
    zeroInputBuffers n s = Ok tt s' /\
    s' = with_inputs n (memset0 (sim_block_size s) <$> input_buffers nd) s /\
    nodes s' !! n = Some nd' /\
    input_buffers nd' = memset0 (sim_block_size s) <$> input_buffers nd /\
    nd' = set_input_buffers (input_buffers nd') nd /\
    (forall m, m <> n -> nodes s' !! m = nodes s !! m) /\
    forall j buf i,
      input_buffers nd' !! j = Some buf ->
      i < sim_block_size s -> i < length buf -> buf !! i = Some fzero.
Proof.
  intros Hn.
  exists (with_inputs n (memset0 (sim_block_size s) <$> input_buffers nd) s),
         (set_input_buffers (memset0 (sim_block_size s) <$> input_buffers nd) nd).
  split.
  { unfold zeroInputBuffers, getInputBufferCount, getInputBufferArray.
    unfold bind at 1. unfold bind at 1. unfold getNode at 1. rewrite Hn.
    unfold ret at 1. unfold bind at 1. unfold bind at 1. unfold getNode at 1.
    rewrite Hn. case_bool_decide as Hlen.
    - apply nil_length_inv in Hlen. rewrite Hlen. simpl.
      rewrite <- Hlen. by rewrite (with_inputs_same _ _ _ Hn).
    - unfold ret at 1. rewrite <- (with_inputs_same n s nd Hn) at 1.
      rewrite forM_memset_inputs. by rewrite foldl_alter_all. }
  split; [done|].
  split. { simpl. by rewrite list_lookup_alter_eq, Hn. }
  split; [done|]. split; [done|].
  split. { intros m Hm. simpl. by rewrite list_lookup_alter_ne. }
  intros j buf i Hj Hi Hlen. simpl in Hj. rewrite list_lookup_fmap in Hj.
  destruct (input_buffers nd !! j) as [buf0|]; [|done]. simpl in Hj.
  injection Hj as <-. apply memset0_lookup; [done|].
  unfold memset0 in Hlen.
  rewrite length_app, length_replicate, length_drop in Hlen. lia.
Qed.

End BufferResults.

Section TickFurther.
Context {F D : Type} `{!Float F} `{!NodeConstants} `{!Kernels F D}.

Local Abbreviation M := (M F D).
Local Abbreviation Node := (Node F D).
Local Abbreviation Simulation := (Simulation F D).

Implicit Types (s : Simulation) (nd : Node) (bufs : list (list F)).

Lemma getState_own fuel n s nd p :
  nodes s !! n = Some nd ->
  forwarded_properties nd !! Lav_NODE_STATE = None ->
  properties nd !! Lav_NODE_STATE = Some p ->
  getState (S fuel) n s = Ok (getIntValue p) s.
Proof.
  intros Hn Hfw Hp. unfold getState. cbn [getProperty].
  unfold bind at 1. unfold bind at 1. unfold getNode at 1. rewrite Hn, Hfw, Hp.
  unfold ret at 1. unfold bind at 1. unfold readProperty, bind, getNode. simpl.
  by rewrite Hn, Hp.
Qed.

(** X6.  A tick on a PAUSED node of class [Node] that is not yet processed
    returns; the node is marked as processed, its output buffers keep their
    number and have their first [block_size] samples zero, [process()] is
    not called, its input buffers and properties are untouched, and no
    other node of the store is changed: the producers of a paused node are
    not pulled. *)
Theorem tick_of_paused_node_is_silent fuel n s nd p :
  nodes s !! n = Some nd -> node_class nd = NodeBase ->
  last_processed nd <> tick_count s ->
  forwarded_properties nd !! Lav_NODE_STATE = None ->
  properties nd !! Lav_NODE_STATE = Some p ->
  getIntValue p = Lav_NODESTATE_PAUSED ->
  exists s' nd',
    tick (S fuel) n s = Ok tt s' /\
    nodes s' !! n = Some nd' /\
    (forall m, m <> n -> nodes s' !! m = nodes s !! m) /\
    final_output_buffers s' = final_output_buffers s /\
    last_processed nd' = tick_count s /\
    process_calls nd' = process_calls nd /\
    input_buffers nd' = input_buffers nd /\
    properties nd' = properties nd /\
    length (output_buffers nd') = length (output_buffers nd) /\
    forall j buf i, output_buffers nd' !! j = Some buf ->
      i < block_size nd -> i < length buf -> buf !! i = Some fzero.
Proof.
  intros Hn Hc Hlp Hfw Hp Hpaused.
  assert (getState (S fuel) n (zeroed n nd s) = Ok Lav_NODESTATE_PAUSED (zeroed n nd s))
    as Hst.
  { rewrite <- Hpaused.
    eapply getState_own; [by apply zeroed_lookup|done|done]. }
  destruct (Node_tick_paused (tick fuel) fuel n s nd Hn Hc Hlp Hst)
    as (Ht & nd' & Hn' & Hcalls & Hlen & Hzero).
  exists (zeroed n nd s), nd'. split.
  { cbn [tick]. unfold bind at 1. unfold getNode. by rewrite Hn, Hc. }
  split; [done|].
  rewrite (zeroed_lookup _ _ _ Hn) in Hn'. injection Hn' as <-.
  split.
  { intros m Hm. unfold zeroed. rewrite with_outputs_lookup_ne by done.
    simpl. by rewrite list_lookup_alter_ne. }
  by repeat split.
Qed.

Lemma tick_pre_True lrank L k s : tick_pre True lrank L k s.
Proof. by left. Qed.

(** A tick that returns, normally or by an exception, leaves the node it
    was called on marked as processed. *)
Lemma tick_marks fuel n s :
  match tick fuel n s with
  | Ok _ s' | Throw _ s' =>
      forall nd', nodes s' !! n = Some nd' -> last_processed nd' = tick_count s'
  | OutOfFuel => True
  end.
Proof.
  destruct fuel as [|fuel]; [done|].
  cbn [tick]. unfold bind at 1. unfold getNode.
  destruct (nodes s !! n) as [nd|] eqn:Hn.
  2: { simpl. intros nd' Hn'. by rewrite Hn in Hn'. }
  assert (Hrest : forall (rest : M unit),
    spec True (tick_pre True (fun _ => 0) 0 0) (body_rel n) rest ->
    match (let* nd := getNode n in
           let* tc := getTickCount in
           if bool_decide (last_processed nd = tc) then ret tt else
           modifyNode n (set_last_processed tc) >> rest) s with
    | Ok _ s' | Throw _ s' =>
        forall nd', nodes s' !! n = Some nd' -> last_processed nd' = tick_count s'
    | OutOfFuel => True
    end).
  { intros rest Hrest. unfold bind at 1. unfold getNode. rewrite Hn.
    unfold bind at 1. unfold getTickCount.
    case_bool_decide as Hlp.
    { simpl. intros nd' Hn'. by simplify_eq. }
    unfold bind at 1. unfold modifyNode.
    change (set_nodes _ s) with (mark n s).
    specialize (Hrest (mark n s) (tick_pre_True _ _ _ _)).
    assert (forall s', body_rel n (mark n s) s' ->
              forall nd', nodes s' !! n = Some nd' ->
                          last_processed nd' = tick_count s') as Hb.
    { intros s' [Hs Hb] nd' Hn'.
      specialize (Hb n _ nd' (mark_lookup _ _ _ Hn) Hn').
      rewrite decide_True in Hb by done.
      rewrite (structure_tick_count _ _ Hs). simpl.
      by destruct (Hb eq_refl). }
    destruct (rest _) as [[] s'|e s'|]; [by apply Hb|by apply Hb|done]. }
  assert (Hrec : forall m, spec True (tick_pre True (fun _ => 0) 0 0) tick_rel
                             (tick fuel m)).
  { intros m. apply spec_tick. by left. }
  destruct (node_class nd) as [|i o].
  - apply Hrest. apply spec_Node_tick_rest; [by left|done].
  - apply Hrest. eapply spec_weaken; [done|apply tick_rel_body_rel|].
    apply spec_SubgraphNode_tick_rest; [by left|done].
Qed.

(** X7.  A tick that returns, normally or by an exception, leaves the node
    marked as processed in the current server tick, so a further tick on
    the same node before the counter advances returns at once, with any
    positive fuel, and changes nothing. *)
Theorem tick_again_is_a_no_op fuel n s s' :
  (tick fuel n s = Ok tt s' \/ exists e, tick fuel n s = Throw e s') ->
  forall nd', nodes s' !! n = Some nd' ->
    last_processed nd' = tick_count s' /\
    forall fuel', tick (S fuel') n s' = Ok tt s'.
Proof.
  intros Ht nd' Hn'. pose proof (tick_marks fuel n s) as Hm.
  assert (last_processed nd' = tick_count s') as Hlp.
  { destruct Ht as [Ht|[e Ht]]; rewrite Ht in Hm; by apply Hm. }
  split; [done|]. intros fuel'.
  cbn [tick]. unfold bind at 1. unfold getNode. rewrite Hn'.
  destruct (node_class nd'); unfold Node_tick, SubgraphNode_tick;
    unfold bind at 1; unfold getNode; rewrite Hn';
    unfold bind at 1; unfold getTickCount;
    by rewrite bool_decide_true.
Qed.

(** X8.  A tick that returns, normally or by an exception, does not change
    the graph: the tick counter, the block size, the final output
    connection and the number of nodes are the same, and every node keeps
    its class, its forwarding table, its input and output connections with
    what is connected to them, its block size, the slots of its property
    table and the automation input of each property. *)
Theorem tick_preserves_the_graph fuel n s s' :
  (tick fuel n s = Ok tt s' \/ exists e, tick fuel n s = Throw e s') ->
  tick_count s' = tick_count s /\
  sim_block_size s' = sim_block_size s /\
  final_output_connection s' = final_output_connection s /\
  length (nodes s') = length (nodes s) /\
  forall m nd, nodes s !! m = Some nd ->
    exists nd', nodes s' !! m = Some nd' /\
      node_class nd' = node_class nd /\
      forwarded_properties nd' = forwarded_properties nd /\
      input_connections nd' = input_connections nd /\
      output_connections nd' = output_connections nd /\
      block_size nd' = block_size nd /\
      forall slot, p_connection <$> (properties nd' !! slot)
                   = p_connection <$> (properties nd !! slot).
Proof.
  intros Ht. pose proof (tick_tick_rel fuel n s) as Hrel.
  assert (structure s' = structure s) as Hs.
  { destruct Ht as [Ht|[e Ht]]; rewrite Ht in Hrel; by destruct Hrel. }
  split; [by apply structure_tick_count|].
  split; [by injection Hs|]. split; [by injection Hs|].
  split; [by apply structure_length|].
  intros m nd Hm.
  destruct (structure_skeleton _ _ _ _ Hs Hm) as (nd' & Hm' & Hsk).
  exists nd'. split; [done|]. unfold node_skeleton in Hsk.
  injection Hsk as -> -> -> -> -> Hp. repeat split; try done.
  intros slot. apply (f_equal (fun t => t !! slot)) in Hp.
  by rewrite !lookup_fmap in Hp.
Qed.

End TickFurther.

(** ** Further statements about dependencies and connections *)

Section ConnectFurther.
Context {F D : Type} `{!Float F} `{!NodeConstants} `{!Kernels F D}.

Local Abbreviation M := (M F D).
Local Abbreviation Node := (Node F D).
Local Abbreviation Simulation := (Simulation F D).

Implicit Types (s : Simulation) (nd : Node).

Lemma elem_of_map_fst (l : list (nat * nat)) m :
  m ∈ map fst l <-> exists out, (m, out) ∈ l.
Proof.
  change (map fst l) with (fst <$> l). rewrite list_elem_of_fmap. split.
  - intros [[a b] [-> Hin]]. by exists b.
  - intros [out Hin]. by exists (m, out).
Qed.

Lemma getInputConnection_own fuel n s nd i :
  nodes s !! n = Some nd -> node_class nd = NodeBase ->
  i < length (input_connections nd) ->
  getInputConnection (S fuel) n (Z.of_nat i) s = Ok (NodeInput n i) s.
Proof.
  intros Hn Hc Hi. cbn [getInputConnection]. unfold bind, getNode. rewrite Hn, Hc.
  replace ((Z.of_nat i >=? Z.of_nat (length (input_connections nd)))%Z
           || (Z.of_nat i <? 0)%Z) with false
    by (symmetry; apply orb_false_iff; lia).
  unfold ret. by rewrite Nat2Z.id.
Qed.

Lemma getDependencies_inputs fuel n s nd :
  nodes s !! n = Some nd -> node_class nd = NodeBase ->
  forall k a (acc : gset nat), a + k <= length (input_connections nd) ->
  exists acc',
    foldM (fun (retval : gset node_id) i =>
             let* c := getInputConnection (S fuel) n (Z.of_nat i) in
             let* j := getConnectedNodes c in
             ret (retval ∪ list_to_set j)) acc (seq a k) s = Ok acc' s /\
    forall m, m ∈ acc' <->
      m ∈ acc \/ exists i c out, a <= i < a + k /\
                  input_connections nd !! i = Some c /\ (m, out) ∈ ic_connected c.
Proof.
  intros Hn Hc. induction k as [|k IH]; intros a acc Hk.
  { exists acc. split; [done|]. intros m. split; [by left|].
    intros [?|(i & ? & ? & ? & _)]; [done|lia]. }
  destruct (lookup_lt_is_Some_2 (input_connections nd) a) as [c Hca]; [lia|].
  destruct (IH (S a) (acc ∪ list_to_set (map fst (ic_connected c))) ltac:(lia))
    as (acc' & Hfold & Hmem).
  exists acc'. split.
  - cbn [foldM seq]. unfold bind at 1. unfold bind at 1.
    rewrite (getInputConnection_own _ _ _ _ _ Hn Hc) by lia.
    unfold bind at 1. unfold getConnectedNodes, readInput.
    unfold bind at 1. unfold bind at 1. unfold getNode at 1. rewrite Hn, Hca.
    exact Hfold.
  - intros m. rewrite Hmem, elem_of_union, elem_of_list_to_set, elem_of_map_fst.
    split.
    + intros [[?|[out Hout]]|(i & c' & out & Hi & Hci & Hout)].
      * by left.
      * right. exists a, c, out. split; [lia|done].
      * right. exists i, c', out. split; [lia|done].
    + intros [?|(i & c' & out & Hi & Hci & Hout)]; [by left; left|].
      destruct (decide (i = a)) as [->|Hia].
      * left. right. exists out. by simplify_eq.
      * right. exists i, c', out. split; [lia|done].
Qed.

Lemma getDependencies_properties (l : list (Z * Property F)) (acc : gset nat) m :
  m ∈ foldr (fun (p : Z * Property F) (retval : gset node_id) =>
               match p_connection p.2 with
               | Some conn => retval ∪ list_to_set (map fst (ic_connected conn))
               | None => retval
               end) acc l <->
  m ∈ acc \/ exists p c out, p ∈ l /\ p_connection p.2 = Some c /\ (m, out) ∈ ic_connected c.
Proof.
  induction l as [|p l IH]; simpl.
  { split; [by left|]. intros [?|(p & ? & ? & Hp & _)]; [done|].
    by apply elem_of_nil in Hp. }
  destruct (p_connection p.2) as [conn|] eqn:Hconn.
  - rewrite elem_of_union, IH, elem_of_list_to_set, elem_of_map_fst. split.
    + intros [[?|(q & c & out & Hq & Hqc & Hout)]|[out Hout]].
      * by left.
      * right. exists q, c, out. split; [by right|done].
      * right. exists p, conn, out. split; [by left|done].
    + intros [?|(q & c & out & Hq & Hqc & Hout)]; [by left; left|].
      apply elem_of_cons in Hq as [->|Hq].
      * right. exists out. by simplify_eq.
      * left. right. by exists q, c, out.
  - rewrite IH. split.
    + intros [?|(q & c & out & Hq & Hqc & Hout)]; [by left|].
      right. exists q, c, out. split; [by right|done].
    + intros [?|(q & c & out & Hq & Hqc & Hout)]; [by left|].
      apply elem_of_cons in Hq as [->|Hq]; [congruence|].
      right. by exists q, c, out.
Qed.

Lemma getDependencies_base fuel n s nd :
  nodes s !! n = Some nd -> node_class nd = NodeBase ->
  exists deps,
    getDependencies (S fuel) n s = Ok deps s /\
    forall m, m ∈ deps <-> feeds nd m.
Proof.
  intros Hn Hc.
  destruct (getDependencies_inputs fuel n s nd Hn Hc
              (length (input_connections nd)) 0 ∅ ltac:(lia))
    as (acc & Hfold & Hacc).
  eexists. split.
  - unfold getDependencies. unfold bind at 1.
    assert (getInputConnectionCount (S fuel) n s
            = Ok (length (input_connections nd)) s) as ->.
    { simpl. unfold bind, getNode. by rewrite Hn, Hc. }
    unfold bind at 1. rewrite Hfold. unfold bind at 1. unfold getNode. rewrite Hn.
    reflexivity.
  - intros m. rewrite getDependencies_properties, Hacc. unfold feeds. split.
    + intros [[?|(i & c & out & _ & Hi & Hout)]|(p & c & out & Hp & Hpc & Hout)].
      * set_solver.
      * left. by exists i, c, out.
      * right. destruct p as [slot p]. apply elem_of_map_to_list in Hp.
        by exists slot, p, c, out.
    + intros [(i & c & out & Hi & Hout)|(slot & p & c & out & Hp & Hpc & Hout)].
      * left. right. exists i, c, out. split; [|done].
        apply lookup_lt_Some in Hi. lia.
      * right. exists (slot, p), c, out. split; [|done].
        by apply elem_of_map_to_list.
Qed.

(** X9.  For a node of class [Node], [getDependencies] returns, leaves the
    store as it is, and its result holds exactly the nodes that own an
    output side connected to one of the node's input connections or to the
    automation input of one of its properties. *)
Theorem getDependencies_are_the_connected_producers fuel n s nd :
  nodes s !! n = Some nd -> node_class nd = NodeBase ->
  exists deps,
    getDependencies (S fuel) n s = Ok deps s /\
    forall m, m ∈ deps <-> feeds nd m.
Proof. apply getDependencies_base. Qed.

Lemma dep_feeds s n nd m :
  nodes s !! n = Some nd -> node_class nd = NodeBase ->
  dep s n m <-> feeds nd m.
Proof.
  intros Hn Hc.
  destruct (getDependencies_base 0 n s nd Hn Hc) as (deps & Hd & Hmem).
  by rewrite (dep_elem _ _ _ _ _ m Hd).
Qed.

Lemma dep_plain s n m :
  plain s -> dep s n m <-> exists nd, nodes s !! n = Some nd /\ feeds nd m.
Proof.
  intros Hp. split.
  - intros Hd. destruct (lookup_lt_is_Some_2 (nodes s) n) as [nd Hn].
    { by eapply dep_valid. }
    exists nd. split; [done|]. destruct (Hp n nd Hn) as [Hc _].
    by apply (dep_feeds s n nd m Hn Hc).
  - intros (nd & Hn & Hf). destruct (Hp n nd Hn) as [Hc _].
    by apply (dep_feeds s n nd m Hn Hc).
Qed.

(** Adding one edge t -> n to a relation without a path from n to t
    creates no cycle. *)
Lemma tc_add_edge (R R' : nat -> nat -> Prop) t n :
  (forall a b, R' a b -> R a b \/ (a = t /\ b = n)) ->
  ~ rtc R n t ->
  forall x y, tc R' x y -> tc R x y \/ (rtc R x t /\ rtc R n y).
Proof.
  intros Hsub Hnt x y Htc. induction Htc as [x y Hxy|x y z Hxy Hyz IH].
  - destruct (Hsub _ _ Hxy) as [?|[-> ->]]; [left; by apply tc_once|by right].
  - destruct (Hsub _ _ Hxy) as [HR|[-> ->]].
    + destruct IH as [IH|[IH1 IH2]].
      * left. by apply tc_l with y.
      * right. split; [by apply rtc_l with y|done].
    + destruct IH as [IH|[IH1 IH2]]; [|done].
      right. split; [done|]. by apply tc_rtc.
Qed.

Lemma acyclic_add_edge s s' t n :
  (forall a b, dep s' a b -> dep s a b \/ (a = t /\ b = n)) ->
  ~ rtc (dep s) n t -> acyclic s -> acyclic s'.
Proof.
  intros Hsub Hnt Hac x Hx.
  destruct (tc_add_edge (dep s) (dep s') t n Hsub Hnt x x Hx) as [?|[H1 H2]].
  - by apply (Hac x).
  - apply Hnt. by etrans.
Qed.

Lemma elem_of_add_edge (e x : nat * nat) (c : InputConnection) :
  x ∈ ic_connected (add_edge e c) <-> (x ∈ ic_connected c /\ x <> e) \/ x = e.
Proof.
  unfold add_edge. simpl. rewrite elem_of_app, list_elem_of_filter, list_elem_of_singleton.
  tauto.
Qed.

Lemma connect_plain fuel n output toNode input s s' :
  plain s ->
  connect fuel n output toNode input s = Ok tt s' ->
  exists nd tnd,
    nodes s !! n = Some nd /\ nodes s !! toNode = Some tnd /\
    (0 <= output < Z.of_nat (length (output_connections nd)))%Z /\
    (0 <= input < Z.of_nat (length (input_connections tnd)))%Z /\
    ~ rtc (dep s) n toNode /\
    s' = set_nodes
           (alter (fun x => set_input_connections
                              (alter (add_edge (n, Z.to_nat output)) (Z.to_nat input)
                                     (input_connections x)) x)
                  toNode (nodes s)) s.
Proof.
  intros Hp Hc. unfold connect in Hc. unfold bind at 1 in Hc.
  pose proof (doesEdgePreserveAcyclicity_reads fuel n toNode s) as Hr.
  destruct (doesEdgePreserveAcyclicity fuel n toNode s) as [b s0| |] eqn:Hdfs;
    [|done|done].
  subst s0. destruct b; [|done]. simpl in Hc.
  assert (~ rtc (dep s) n toNode) as Hnr.
  { intros Hrtc. by apply (doesEdgePreserveAcyclicity_reach _ _ _ _ _ _ Hdfs) in Hrtc. }
  destruct fuel as [|fuel]; [done|].
  unfold bind at 1 in Hc. unfold getOutputConnection in Hc.
  unfold bind at 1 in Hc. unfold getNode at 1 in Hc.
  destruct (nodes s !! n) as [nd|] eqn:Hn; [|done].
  destruct ((output <? 0)%Z || (output >=? Z.of_nat (length (output_connections nd)))%Z)
    eqn:Hout; [done|].
  apply orb_false_iff in Hout as [Ho1 Ho2].
  unfold ret at 1 in Hc. unfold bind at 1 in Hc.
  destruct (nodes s !! toNode) as [tnd|] eqn:Htn.
  2: { cbn [getInputConnection] in Hc. unfold bind, getNode in Hc.
       by rewrite Htn in Hc. }
  destruct (Hp toNode tnd Htn) as [Htc _].
  rewrite (getInputConnection_base fuel toNode input s tnd Htn Htc) in Hc.
  destruct ((input >=? Z.of_nat (length (input_connections tnd)))%Z || (input <? 0)%Z)
    eqn:Hin; [done|].
  apply orb_false_iff in Hin as [Hi1 Hi2].
  exists nd, tnd. split; [done|]. split; [done|].
  split; [lia|]. split; [lia|]. split; [done|].
  unfold makeConnection, modifyInput, modifyNode in Hc. by injection Hc as <-.
Qed.

Lemma add_dependency_acyclic s t tnd n (upd : Node -> Node) :
  plain s -> acyclic s ->
  nodes s !! t = Some tnd ->
  node_class (upd tnd) = NodeBase -> forwarded_properties (upd tnd) = ∅ ->
  (forall m, feeds (upd tnd) m <-> feeds tnd m \/ m = n) ->
  ~ rtc (dep s) n t ->
  plain (set_nodes (alter upd t (nodes s)) s) /\
  acyclic (set_nodes (alter upd t (nodes s)) s) /\
  (forall a b, dep (set_nodes (alter upd t (nodes s)) s) a b <->
               dep s a b \/ (a = t /\ b = n)).
Proof.
  intros Hp Hac Htn Hclass Hfwd Hfeeds Hnr.
  set (s' := set_nodes (alter upd t (nodes s)) s).
  assert (plain s') as Hp'.
  { intros m md Hm. simpl in Hm. rewrite list_lookup_alter in Hm.
    case_decide; [|by apply (Hp m md)]. subst m. rewrite Htn in Hm.
    simpl in Hm. by injection Hm as <-. }
  assert (forall a b, dep s' a b <-> dep s a b \/ (a = t /\ b = n)) as Hdep.
  { intros a b. rewrite (dep_plain s' a b Hp'), (dep_plain s a b Hp). simpl.
    split.
    - intros (ad & Ha & Hf). rewrite list_lookup_alter in Ha.
      case_decide as Hat.
      + subst a. rewrite Htn in Ha. simpl in Ha. injection Ha as <-.
        apply Hfeeds in Hf as [Hf| ->]; [left; by exists tnd|by right].
      + left. by exists ad.
    - intros [(ad & Ha & Hf)|[-> ->]].
      + rewrite list_lookup_alter. case_decide as Hat.
        * subst a. rewrite Htn in Ha. injection Ha as <-.
          rewrite Htn. simpl. eexists. split; [done|]. apply Hfeeds. by left.
        * by exists ad.
      + rewrite list_lookup_alter_eq, Htn. simpl.
        eexists. split; [done|]. apply Hfeeds. by right. }
  split; [done|]. split; [|done].
  apply (acyclic_add_edge s s' t n); [|done|done].
  intros a b Hab. by apply Hdep.
Qed.

(** X10.  In a store without subgraph nodes and property forwards whose
    dependency graph has no cycle, a [connect] that succeeds leaves a store
    of the same kind whose dependency graph has no cycle either: the only
    new dependency is that of [toNode] on the connecting node, and the
    cycle check has excluded a path back. *)
Theorem connect_keeps_the_graph_acyclic fuel n output toNode input s s' :
  plain s -> acyclic s ->
  connect fuel n output toNode input s = Ok tt s' ->
  plain s' /\ acyclic s' /\
  (forall a b, dep s' a b <-> dep s a b \/ (a = toNode /\ b = n)).
Proof.
  intros Hp Hac Hc.
  destruct (connect_plain _ _ _ _ _ _ _ Hp Hc)
    as (nd & tnd & Hn & Htn & Hout & Hin & Hnr & ->).
  set (e := (n, Z.to_nat output)).
  set (upd := fun x : Node =>
                set_input_connections
                  (alter (add_edge e) (Z.to_nat input) (input_connections x)) x).
  destruct (Hp toNode tnd Htn) as [Hclass Hfwd].
  apply (add_dependency_acyclic s toNode tnd n upd); try done.
  intros m. unfold feeds. simpl. split.
  - intros [(i & c & out & Hi & Hm)|Hprop]; [|by left; right].
    rewrite list_lookup_alter in Hi. case_decide as Hii.
    + subst i.
      destruct (input_connections tnd !! Z.to_nat input) as [c0|] eqn:Hc0;
        [|by simpl in Hi].
      simpl in Hi. injection Hi as <-.
      apply elem_of_add_edge in Hm as [[Hm _]|Hm].
      * left. left. by exists (Z.to_nat input), c0, out.
      * right. unfold e in Hm. by injection Hm.
    + left. left. by exists i, c, out.
  - intros [[(i & c & out & Hi & Hm)|Hprop]| ->]; [|by right|].
    + left. destruct (decide (Z.to_nat input = i)) as [<-|Hii].
      * exists (Z.to_nat input), (add_edge e c).
        destruct (decide ((m, out) = e)) as [He|He].
        -- exists out. split.
           ++ by rewrite list_lookup_alter, decide_True, Hi.
           ++ apply elem_of_add_edge. by right.
        -- exists out. split.
           ++ by rewrite list_lookup_alter, decide_True, Hi.
           ++ apply elem_of_add_edge. by left.
      * exists i, c, out. split; [|done].
        by rewrite list_lookup_alter, decide_False.
    + left.
      destruct (lookup_lt_is_Some_2 (input_connections tnd) (Z.to_nat input))
        as [c Hci]; [lia|].
      exists (Z.to_nat input), (add_edge e c), (Z.to_nat output). split.
      * by rewrite list_lookup_alter, decide_True, Hci.
      * apply elem_of_add_edge. by right.
Qed.

Lemma makeConnection_PropertyInput e r s c :
  readInput (PropertyInput r) s = Ok c s ->
  exists s', makeConnection e (PropertyInput r) s = Ok tt s' /\
             edge_added s s' e (PropertyInput r).
Proof.
  destruct r as [owner slot].
  unfold readInput, readProperty, bind, getNode. simpl. intros Hr.
  destruct (nodes s !! owner) as [ond|] eqn:Ho; [|done].
  destruct (properties ond !! slot) as [p|] eqn:Hp; [|done]. simpl in Hr.
  destruct (p_connection p) as [c0|] eqn:Hpc; [|done].
  injection Hr as ->. eexists. split; [reflexivity|].
  exists c. split; [|split].
  - unfold readInput, readProperty, bind, getNode. simpl. rewrite Ho, Hp. simpl.
    by rewrite Hpc.
  - unfold readInput, readProperty, bind, getNode. simpl.
    rewrite list_lookup_alter_eq, Ho. simpl.
    rewrite lookup_alter_eq, Hp. simpl. by rewrite Hpc.
  - intros r' c' Hne. destruct r' as [m j|pr|]; simpl.
    + unfold bind, getNode. simpl.
      destruct (decide (m = owner)) as [->|Hm].
      * rewrite list_lookup_alter_eq, Ho. simpl.
        destruct (input_connections ond !! j); [|done]. by intros [= ->].
      * rewrite list_lookup_alter_ne by done.
        destruct (nodes s !! m) as [mnd|]; [|done].
        destruct (input_connections mnd !! j); [|done]. by intros [= ->].
    + destruct pr as [m sl]. unfold readProperty, bind, getNode. simpl.
      destruct (decide (m = owner)) as [->|Hm].
      * rewrite list_lookup_alter_eq, Ho. simpl.
        assert (sl <> slot) by congruence.
        rewrite lookup_alter_ne by done.
        destruct (properties ond !! sl) as [q|]; [|done]. simpl.
        destruct (p_connection q); [|done]. by intros [= ->].
      * rewrite list_lookup_alter_ne by done.
        destruct (nodes s !! m) as [mnd|]; [|done].
        destruct (properties mnd !! sl) as [q|]; [|done]. simpl.
        destruct (p_connection q); [|done]. by intros [= ->].
    + by intros [= ->].
Qed.

(** X11.  [Node::connectProperty] checks, in this order: the cycle
    (CAUSES_CYCLE when the target node is the node itself or one of its
    direct or transitive dependencies), the slot (the error of
    [getProperty], RANGE for a slot the target does not have), the
    automation input of the property (CANNOT_CONNECT_TO_PROPERTY when it
    has none, whatever the output index), and last the output index
    (RANGE).  Every failure leaves the store unchanged; otherwise exactly
    the edge from that output side to the automation input of the property
    that the slot resolves to is added. *)
Theorem connectProperty_checks_in_order fuel s n output node slot b s0 :
  doesEdgePreserveAcyclicity fuel n node s = Ok b s0 ->
  (b = false <-> rtc (dep s) n node) /\
  (b = false ->
   connectProperty fuel n output node slot s = Throw Lav_ERROR_CAUSES_CYCLE s) /\
  (b = true ->
   (forall e s1, getProperty fuel node slot s = Throw e s1 ->
      connectProperty fuel n output node slot s = Throw e s) /\
   (forall r s1, getProperty fuel node slot s = Ok r s1 ->
      exists p nd, readProperty r s = Ok p s /\ nodes s !! n = Some nd /\
        (p_connection p = None ->
         connectProperty fuel n output node slot s
           = Throw Lav_ERROR_CANNOT_CONNECT_TO_PROPERTY s) /\
        (is_Some (p_connection p) ->
         ((output < 0)%Z \/ (Z.of_nat (length (output_connections nd)) <= output)%Z ->
          connectProperty fuel n output node slot s = Throw Lav_ERROR_RANGE s) /\
         ((0 <= output < Z.of_nat (length (output_connections nd)))%Z ->
          exists s', connectProperty fuel n output node slot s = Ok tt s' /\
                     edge_added s s' (n, Z.to_nat output) (PropertyInput r))))).
Proof.
  intros Hdfs. pose proof (doesEdgePreserveAcyclicity_reads fuel n node s) as Hr.
  rewrite Hdfs in Hr. subst s0.
  split; [by eapply doesEdgePreserveAcyclicity_reach|].
  assert (connectProperty fuel n output node slot s =
          if b then
            (let* prop := getProperty fuel node slot in
             let* p := readProperty prop in
             match getInputConnectionOfProperty p with
             | None => throw Lav_ERROR_CANNOT_CONNECT_TO_PROPERTY
             | Some _ =>
               let* outputConn := getOutputConnection n output in
               makeConnection outputConn (PropertyInput prop)
             end) s
          else Throw Lav_ERROR_CAUSES_CYCLE s) as ->.
  { unfold connectProperty, bind at 1. rewrite Hdfs. by destruct b. }
  split.
  { by intros ->. }
  intros ->.
  assert (is_Some (nodes s !! n)) as [nd Hn].
  { destruct fuel as [|fuel]; [done|]. cbn [doesEdgePreserveAcyclicity] in Hdfs.
    case_bool_decide; [done|]. unfold bind in Hdfs.
    destruct (getDependencies (S fuel) n s) as [deps s1| |] eqn:Hd; [|done|done].
    by eapply getDependencies_valid. }
  split.
  { intros e s1 He. pose proof (getProperty_reads fuel node slot s) as Hrd.
    rewrite He in Hrd. subst s1. unfold bind at 1. by rewrite He. }
  intros r s1 Hg.
  destruct (getProperty_valid _ _ _ _ _ _ Hg)
    as (-> & pnd & p & Hpn & Hfw & Hp & Hread).
  exists p, nd. split; [done|]. split; [done|].
  assert (getOutputConnection n output s =
          if (output <? 0)%Z || (output >=? Z.of_nat (length (output_connections nd)))%Z
          then Throw Lav_ERROR_RANGE s else Ok (n, Z.to_nat output) s) as Hout.
  { unfold getOutputConnection, bind, getNode. rewrite Hn. by destruct (_ || _). }
  split.
  { intros Hnone. unfold bind at 1. rewrite Hg. unfold bind at 1. rewrite Hread.
    unfold getInputConnectionOfProperty. by rewrite Hnone. }
  intros [c Hc]. split.
  - intros Hrange. unfold bind at 1. rewrite Hg. unfold bind at 1. rewrite Hread.
    unfold getInputConnectionOfProperty. rewrite Hc.
    unfold bind at 1. rewrite Hout.
    replace ((output <? 0)%Z || (output >=? Z.of_nat (length (output_connections nd)))%Z)
      with true; [done|].
    symmetry. apply orb_true_iff. destruct Hrange; [left|right]; lia.
  - intros Hrange.
    replace ((output <? 0)%Z || (output >=? Z.of_nat (length (output_connections nd)))%Z)
      with false in Hout by (symmetry; apply orb_false_iff; lia).
    unfold bind at 1. rewrite Hg. unfold bind at 1. rewrite Hread.
    unfold getInputConnectionOfProperty. rewrite Hc.
    unfold bind at 1. rewrite Hout.
    apply makeConnection_PropertyInput with c.
    unfold readInput. unfold bind at 1. rewrite Hread. by rewrite Hc.
Qed.

Lemma connectProperty_plain fuel n output node slot s s' :
  plain s ->
  connectProperty fuel n output node slot s = Ok tt s' ->
  exists nd tnd p c,
    nodes s !! n = Some nd /\ nodes s !! node = Some tnd /\
    properties tnd !! slot = Some p /\ p_connection p = Some c /\
    (0 <= output < Z.of_nat (length (output_connections nd)))%Z /\
    ~ rtc (dep s) n node /\
    s' = set_nodes
           (alter (fun x => set_properties
                              (alter (fun q => set_p_connection
                                                 (add_edge (n, Z.to_nat output)
                                                    <$> p_connection q) q)
                                     slot (properties x)) x)
                  node (nodes s)) s.
Proof.
  intros Hp Hc. unfold connectProperty in Hc. unfold bind at 1 in Hc.
  pose proof (doesEdgePreserveAcyclicity_reads fuel n node s) as Hr.
  destruct (doesEdgePreserveAcyclicity fuel n node s) as [b s0| |] eqn:Hdfs;
    [|done|done].
  subst s0. destruct b; [|done]. simpl in Hc.
  assert (~ rtc (dep s) n node) as Hnr.
  { intros Hrtc. by apply (doesEdgePreserveAcyclicity_reach _ _ _ _ _ _ Hdfs) in Hrtc. }
  destruct fuel as [|fuel]; [done|].
  unfold bind at 1 in Hc. cbn [getProperty] in Hc.
  unfold bind at 1 in Hc. unfold getNode at 1 in Hc.
  destruct (nodes s !! node) as [tnd|] eqn:Htn; [|done].
  destruct (Hp node tnd Htn) as [Htc Hfw]. rewrite Hfw, lookup_empty in Hc.
  destruct (properties tnd !! slot) as [p|] eqn:Hps; [|done].
  unfold ret at 1 in Hc. unfold bind at 1 in Hc.
  unfold readProperty in Hc. unfold bind at 1 in Hc. unfold getNode at 1 in Hc.
  simpl in Hc. rewrite Htn, Hps in Hc. unfold ret at 1 in Hc.
  unfold getInputConnectionOfProperty in Hc.
  destruct (p_connection p) as [c|] eqn:Hpc; [|done].
  unfold bind at 1 in Hc. unfold getOutputConnection in Hc.
  unfold bind at 1 in Hc. unfold getNode at 1 in Hc.
  destruct (nodes s !! n) as [nd|] eqn:Hn; [|done].
  destruct ((output <? 0)%Z || (output >=? Z.of_nat (length (output_connections nd)))%Z)
    eqn:Hout; [done|].
  apply orb_false_iff in Hout as [Ho1 Ho2].
  exists nd, tnd, p, c. repeat split; try done; try lia.
  unfold ret at 1 in Hc.
  unfold makeConnection, modifyInput, modifyProperty, modifyNode in Hc.
  by injection Hc as <-.
Qed.

(** X12.  In a store without subgraph nodes and property forwards whose
    dependency graph has no cycle, a [connectProperty] that succeeds leaves
    a store of the same kind whose dependency graph has no cycle either;
    the only new dependency is that of the node owning the property on the
    connecting node. *)
Theorem connectProperty_keeps_the_graph_acyclic fuel n output node slot s s' :
  plain s -> acyclic s ->
  connectProperty fuel n output node slot s = Ok tt s' ->
  plain s' /\ acyclic s' /\
  (forall a b, dep s' a b <-> dep s a b \/ (a = node /\ b = n)).
Proof.
  intros Hp Hac Hc.
  destruct (connectProperty_plain _ _ _ _ _ _ _ Hp Hc)
    as (nd & tnd & p & c & Hn & Htn & Hps & Hpc & Hout & Hnr & ->).
  set (e := (n, Z.to_nat output)).
  set (g := fun q : Property F => set_p_connection (add_edge e <$> p_connection q) q).
  set (upd := fun x : Node => set_properties (alter g slot (properties x)) x).
  destruct (Hp node tnd Htn) as [Hclass Hfwd].
  apply (add_dependency_acyclic s node tnd n upd); try done.
  intros m. unfold feeds. simpl. split.
  - intros [Hin|(sl & q & c' & out & Hq & Hqc & Hm)]; [by left; left|].
    rewrite lookup_alter in Hq. case_decide as Hsl.
    + subst sl. rewrite Hps in Hq. simpl in Hq. injection Hq as <-.
      simpl in Hqc. rewrite Hpc in Hqc. simpl in Hqc. injection Hqc as <-.
      apply elem_of_add_edge in Hm as [[Hm _]|Hm].
      * left. right. by exists slot, p, c, out.
      * right. unfold e in Hm. by injection Hm.
    + left. right. by exists sl, q, c', out.
  - intros [[Hin|(sl & q & c' & out & Hq & Hqc & Hm)]| ->]; [by left| |].
    + right. destruct (decide (slot = sl)) as [<-|Hsl].
      * assert (q = p) as -> by congruence.
        assert (c' = c) as -> by congruence.
        exists slot, (g p), (add_edge e c), out. split; [|split].
        -- by rewrite lookup_alter_eq, Hps.
        -- simpl. by rewrite Hpc.
        -- apply elem_of_add_edge.
           destruct (decide ((m, out) = e)); [by right|by left].
      * exists sl, q, c', out. split; [|done].
        by rewrite lookup_alter_ne.
    + right. exists slot, (g p), (add_edge e c), (Z.to_nat output). split; [|split].
      * by rewrite lookup_alter_eq, Hps.
      * simpl. by rewrite Hpc.
      * apply elem_of_add_edge. by right.
Qed.

Lemma makeConnection_returns e r s : exists s', makeConnection e r s = Ok tt s'.
Proof. destruct r; eexists; reflexivity. Qed.

Lemma getOutputConnection_reads n which :
  reads (F:=F) (D:=D) (getOutputConnection n which).
Proof.
  intros s. unfold getOutputConnection, bind, getNode.
  destruct (nodes s !! n); [|done]. by destruct (_ || _).
Qed.

Lemma connect_throws_unchanged fuel n output toNode input s e s' :
  connect fuel n output toNode input s = Throw e s' -> s' = s.
Proof.
  unfold connect. unfold bind at 1.
  pose proof (doesEdgePreserveAcyclicity_reads fuel n toNode s) as Hr.
  destruct (doesEdgePreserveAcyclicity fuel n toNode s) as [b s0| |];
    [subst s0|by intros [= _ ->]|done].
  destruct b; simpl; [|by intros [= _ ->]].
  unfold bind at 1. pose proof (getOutputConnection_reads n output s) as Ho.
  destruct (getOutputConnection n output s) as [oc s0| |];
    [subst s0|by intros [= _ ->]|done].
  unfold bind at 1. pose proof (getInputConnection_reads fuel toNode input s) as Hi.
  destruct (getInputConnection fuel toNode input s) as [r s0| |];
    [subst s0|by intros [= _ ->]|done].
  destruct (makeConnection_returns oc r s) as [s1 ->]. done.
Qed.

Lemma connectProperty_throws_unchanged fuel n output node slot s e s' :
  connectProperty fuel n output node slot s = Throw e s' -> s' = s.
Proof.
  unfold connectProperty. unfold bind at 1.
  pose proof (doesEdgePreserveAcyclicity_reads fuel n node s) as Hr.
  destruct (doesEdgePreserveAcyclicity fuel n node s) as [b s0| |];
    [subst s0|by intros [= _ ->]|done].
  destruct b; simpl; [|by intros [= _ ->]].
  unfold bind at 1. pose proof (getProperty_reads fuel node slot s) as Hg.
  destruct (getProperty fuel node slot s) as [r s0| |];
    [subst s0|by intros [= _ ->]|done].
  unfold bind at 1. pose proof (readProperty_reads r s) as Hrp.
  destruct (readProperty r s) as [p s0| |];
    [subst s0|by intros [= _ ->]|done].
  destruct (getInputConnectionOfProperty p); [|by intros [= _ ->]].
  unfold bind at 1. pose proof (getOutputConnection_reads n output s) as Ho.
  destruct (getOutputConnection n output s) as [oc s0| |];
    [subst s0|by intros [= _ ->]|done].
  cbv beta iota. unfold modifyProperty, modifyNode. done.
Qed.

Lemma connectSimulation_throws_unchanged n which s e s' :
  connectSimulation n which s = Throw e s' -> s' = s.
Proof.
  unfold connectSimulation. unfold bind at 1.
  pose proof (getOutputConnection_reads n which s) as Ho.
  destruct (getOutputConnection n which s) as [oc s0| |];
    [subst s0|by intros [= _ ->]|done].
  destruct (makeConnection_returns oc FinalOutput s) as [s1 ->]. done.
Qed.

Lemma incomingObject_cases handle s :
  ((0 <= handle < Z.of_nat (length (nodes s)))%Z /\
   incomingObject handle s = Ok (Z.to_nat handle) s) \/
  (~ (0 <= handle < Z.of_nat (length (nodes s)))%Z /\
   incomingObject handle s = Throw Lav_ERROR_INVALID_HANDLE s).
Proof.
  unfold incomingObject.
  destruct ((0 <=? handle)%Z && (handle <? Z.of_nat (length (nodes s)))%Z) eqn:Hh.
  - left. apply andb_true_iff in Hh. split; [lia|done].
  - right. apply andb_false_iff in Hh. split; [|done]. destruct Hh; lia.
Qed.

(** X13.  The three public connect operations are all-or-nothing: a call
    that returns an error code other than NONE returns the store it was
    called in.  A node handle that names no node makes each of them return
    INVALID_HANDLE; for [Lav_nodeConnect] and [Lav_nodeConnectProperty]
    the first handle is looked at before the second, and both before the
    cycle check and the indexes. *)
Theorem public_connects_fail_without_effect fuel (s : Simulation) :
  (forall h o d i e s', Lav_nodeConnect fuel h o d i s = Some (e, s') ->
     e <> Lav_ERROR_NONE -> s' = s) /\
  (forall h o d sl e s', Lav_nodeConnectProperty fuel h o d sl s = Some (e, s') ->
     e <> Lav_ERROR_NONE -> s' = s) /\
  (forall h o e s', Lav_nodeConnectSimulation h o s = Some (e, s') ->
     e <> Lav_ERROR_NONE -> s' = s) /\
  (forall h o d i,
     ~ (0 <= h < Z.of_nat (length (nodes s)))%Z \/
     ~ (0 <= d < Z.of_nat (length (nodes s)))%Z ->
     Lav_nodeConnect fuel h o d i s = Some (Lav_ERROR_INVALID_HANDLE, s) /\
     Lav_nodeConnectProperty fuel h o d i s = Some (Lav_ERROR_INVALID_HANDLE, s)) /\
  (forall h o, ~ (0 <= h < Z.of_nat (length (nodes s)))%Z ->
     Lav_nodeConnectSimulation h o s = Some (Lav_ERROR_INVALID_HANDLE, s)).
Proof.
  split; [|split; [|split; [|split]]].
  - intros h o d i e s'. unfold Lav_nodeConnect, PUB. unfold bind at 1.
    destruct (incomingObject_cases h s) as [[_ ->]|[_ ->]]; [|by intros [= <- <-]].
    unfold bind at 1.
    destruct (incomingObject_cases d s) as [[_ ->]|[_ ->]]; [|by intros [= <- <-]].
    destruct (connect _ _ _ _ _ s) as [[] s1|e1 s1|] eqn:Hc; [|intros [= <- <-] _|done].
    + by intros [= <- <-].
    + by eapply connect_throws_unchanged.
  - intros h o d sl e s'. unfold Lav_nodeConnectProperty, PUB. unfold bind at 1.
    destruct (incomingObject_cases h s) as [[_ ->]|[_ ->]]; [|by intros [= <- <-]].
    unfold bind at 1.
    destruct (incomingObject_cases d s) as [[_ ->]|[_ ->]]; [|by intros [= <- <-]].
    destruct (connectProperty _ _ _ _ _ s) as [[] s1|e1 s1|] eqn:Hc;
      [|intros [= <- <-] _|done].
    + by intros [= <- <-].
    + by eapply connectProperty_throws_unchanged.
  - intros h o e s'. unfold Lav_nodeConnectSimulation, PUB. unfold bind at 1.
    destruct (incomingObject_cases h s) as [[_ ->]|[_ ->]]; [|by intros [= <- <-]].
    destruct (connectSimulation _ _ s) as [[] s1|e1 s1|] eqn:Hc;
      [|intros [= <- <-] _|done].
    + by intros [= <- <-].
    + by eapply connectSimulation_throws_unchanged.
  - intros h o d i Hbad.
    split; unfold Lav_nodeConnect, Lav_nodeConnectProperty, PUB; unfold bind at 1;
      (destruct (incomingObject_cases h s) as [[Hh ->]|[_ ->]]; [|done]);
      unfold bind at 1;
      (destruct (incomingObject_cases d s) as [[Hd ->]|[_ ->]]; [|done]);
      by destruct Hbad.
  - intros h o Hbad. unfold Lav_nodeConnectSimulation, PUB. unfold bind at 1.
    by destruct (incomingObject_cases h s) as [[Hh ->]|[_ ->]].
Qed.

End ConnectFurther.

(** ** Further statements about forwarding, the cycle check and the
    property API *)

Section ForwardingResults.
Context {F D : Type} `{!Float F} `{!NodeConstants} `{!Kernels F D}.

Local Abbreviation M := (M F D).
Local Abbreviation Node := (Node F D).
Local Abbreviation Simulation := (Simulation F D).

Implicit Types (s : Simulation) (nd : Node).

(** X14.  Forwarding a slot that is not forwarded and then stopping the
    forward is a round trip.  After [forwardProperty] every [getProperty]
    on the slot is answered by the target, also when the node has a
    property of its own in that slot; [stopForwardingProperty] then returns
    the very store one started from; and on a slot that is not forwarded
    [stopForwardingProperty] throws INTERNAL and changes nothing. *)
Theorem forwardProperty_then_stop_is_a_round_trip n slot toNode toProperty s nd :
  nodes s !! n = Some nd -> forwarded_properties nd !! slot = None ->
  exists s1,
    forwardProperty n slot toNode toProperty s = Ok tt s1 /\
    (forall fuel, getProperty (S fuel) n slot s1 = getProperty fuel toNode toProperty s1) /\
    (forall fuel slot', slot' <> slot ->
       outcome (getProperty (S fuel) n slot' s1) = outcome (getProperty (S fuel) n slot' s)
       \/ exists t sl, forwarded_properties nd !! slot' = Some (t, sl)) /\
    stopForwardingProperty n slot s1 = Ok tt s /\
    stopForwardingProperty n slot s = Throw Lav_ERROR_INTERNAL s.
Proof.
  intros Hn Hfw. eexists. split; [reflexivity|].
  split; [|split; [|split]].
  - intros fuel. cbn [getProperty]. unfold bind at 1. unfold getNode. simpl.
    rewrite list_lookup_alter_eq, Hn. simpl. by rewrite lookup_insert_eq.
  - intros fuel slot' Hne.
    destruct (forwarded_properties nd !! slot') as [[t sl]|] eqn:Hfw'; [right; eauto|].
    left. cbn [getProperty]. unfold bind, getNode. simpl.
    rewrite list_lookup_alter_eq, Hn. simpl.
    rewrite lookup_insert_ne by done. rewrite Hfw'.
    by destruct (properties nd !! slot').
  - unfold stopForwardingProperty. unfold bind at 1. unfold getNode. simpl.
    rewrite list_lookup_alter_eq, Hn. simpl.
    rewrite bool_decide_true by (rewrite lookup_insert_eq; eauto).
    unfold modifyNode. f_equal. destruct s as [tc bs fc fb ns]. simpl in *.
    unfold set_nodes. simpl. f_equal.
    rewrite list_alter_alter_eq. apply list_eq. intros i.
    rewrite list_lookup_alter. case_decide; [|done]. subst i. rewrite Hn. simpl.
    f_equal. destruct nd. unfold set_forwarded_properties. simpl in *. f_equal.
    by rewrite delete_insert_eq, delete_id.
  - unfold stopForwardingProperty. unfold bind at 1. unfold getNode. rewrite Hn.
    rewrite bool_decide_false; [done|]. rewrite Hfw. by intros [? ?].
Qed.

Lemma allM_never {X} (f : X -> M bool) (l : list X) s y :
  (forall x, reads (f x)) ->
  y ∈ l ->
  (forall b s', f y s <> Ok b s') ->
  (forall z s', z ∈ l -> f z s <> Ok false s') ->
  forall b s', allM f l s <> Ok b s'.
Proof.
  intros Hreads Hy Hny Hnf. induction l as [|z l IH]; [by apply elem_of_nil in Hy|].
  intros b s'. cbn [allM]. unfold bind. pose proof (Hreads z s) as Hr.
  destruct (f z s) as [bz sz| |] eqn:Hz; [subst sz|done|done].
  destruct bz.
  - apply elem_of_cons in Hy as [->|Hy]; [by destruct (Hny true s)|].
    apply IH; [done|]. intros z' s'' Hz'. apply Hnf. by right.
  - exfalso. apply (Hnf z s); [by left|done].
Qed.

(** X15.  The cycle check needs the graph it searches to be acyclic: when
    [start] lies in a set of nodes each of which has a dependency in the
    set (a cycle, or a path into one) and [end_] is not reachable from
    [start], [doesEdgePreserveAcyclicity] returns no verdict, with any
    amount of fuel: the recursion of the source does not end. *)
Theorem cycle_check_does_not_return_on_a_cycle s (X : node_id -> Prop) start end_ :
  (forall x, X x -> exists y, dep s x y /\ X y) ->
  X start -> ~ rtc (dep s) start end_ ->
  forall fuel b s', doesEdgePreserveAcyclicity fuel start end_ s <> Ok b s'.
Proof.
  intros Hclosed HX Hnr fuel. revert start HX Hnr.
  induction fuel as [|fuel IH]; intros start HX Hnr b s'; [done|].
  cbn [doesEdgePreserveAcyclicity]. case_bool_decide as Hse.
  { subst. exfalso. by apply Hnr. }
  unfold bind. pose proof (getDependencies_reads (S fuel) start s) as Hr.
  destruct (getDependencies (S fuel) start s) as [deps s0| |] eqn:Hd;
    [subst s0|done|done].
  destruct (Hclosed start HX) as (y & Hy & HXy).
  apply (allM_never _ _ s y).
  - intros x. apply doesEdgePreserveAcyclicity_reads.
  - apply elem_of_elements. by apply (dep_elem _ _ _ _ _ y Hd).
  - apply IH; [done|]. intros Hrt. apply Hnr. by apply rtc_l with y.
  - intros z s'' Hz Hfalse. apply Hnr. apply rtc_l with z.
    + apply (dep_elem _ _ _ _ _ z Hd). by apply elem_of_elements.
    + by apply (doesEdgePreserveAcyclicity_reach _ _ _ _ _ _ Hfalse).
Qed.

(** X16.  [Lav_nodeGetIntProperty] never changes the store and assigns its
    out-parameter exactly when it returns NONE.  It returns NONE with the
    stored value of the int property that the slot resolves to (through
    forwards), INVALID_HANDLE for a handle that names no node,
    TYPE_MISMATCH when the slot resolves to a property of another type,
    and otherwise the error of the lookup, RANGE or INTERNAL; it returns no
    other code. *)
Theorem Lav_nodeGetIntProperty_result fuel h slot s e o s' :
  Lav_nodeGetIntProperty fuel h slot s = Some (e, o, s') ->
  s' = s /\
  ((e = Lav_ERROR_NONE /\ (0 <= h < Z.of_nat (length (nodes s)))%Z /\
    exists r p, getProperty fuel (Z.to_nat h) slot s = Ok r s /\
                readProperty r s = Ok p s /\
                getType p = Lav_PROPERTYTYPE_INT /\ o = Some (getIntValue p)) \/
   (e = Lav_ERROR_INVALID_HANDLE /\ o = None /\
    ~ (0 <= h < Z.of_nat (length (nodes s)))%Z) \/
   (e = Lav_ERROR_TYPE_MISMATCH /\ o = None /\
    exists r p, getProperty fuel (Z.to_nat h) slot s = Ok r s /\
                readProperty r s = Ok p s /\
                getType p <> Lav_PROPERTYTYPE_INT) \/
   ((e = Lav_ERROR_RANGE \/ e = Lav_ERROR_INTERNAL) /\ o = None /\
    exists s1, getProperty fuel (Z.to_nat h) slot s = Throw e s1)).
Proof.
  unfold Lav_nodeGetIntProperty, PUB_out, PROP_PREAMBLE.
  unfold bind at 1. unfold bind at 1.
  destruct (incomingObject_cases h s) as [[Hh ->]|[Hh ->]].
  2: { intros [= <- <- <-]. split; [done|]. right. left. done. }
  unfold bind at 1. pose proof (getProperty_reads fuel (Z.to_nat h) slot s) as Hr.
  destruct (getProperty fuel (Z.to_nat h) slot s) as [r s0|e0 s0|] eqn:Hg;
    [subst s0| |done].
  2: { intros [= <- <- <-]. subst s0. split; [done|]. right. right. right.
       split; [by eapply getProperty_throws|]. split; [done|]. by exists s. }
  destruct (getProperty_valid _ _ _ _ _ _ Hg)
    as (_ & pnd & p & Hpn & Hfw & Hp & Hread).
  unfold bind at 1. rewrite Hread.
  destruct (ptype_neqb (getType p) Lav_PROPERTYTYPE_INT) eqn:Ht.
  - intros [= <- <- <-]. split; [done|]. right. right. left.
    split; [done|]. split; [done|]. exists r, p. split; [done|]. split; [done|].
    intros Heq. rewrite Heq in Ht. done.
  - intros [= <- <- <-]. split; [done|]. left.
    split; [done|]. split; [done|]. exists r, p. split; [done|]. split; [done|].
    split; [|done]. by destruct (getType p).
Qed.

End ForwardingResults.

Section SetterResults.
Context {F D : Type} `{!Float F} `{!NodeConstants} `{!Kernels F D} `{!PropertySetters F}.

Local Abbreviation Simulation := (Simulation F D).

(** X17.  [Lav_nodeSetIntProperty] looks at the handle, the slot, the type
    and the read-only flag, in this order, before it calls the setter, and
    each of these failures leaves the store unchanged: INVALID_HANDLE, the
    error of the lookup, TYPE_MISMATCH for a property that is not an int
    (read-only or not), PROPERTY_IS_READ_ONLY for a read-only int
    property, then the error of the setter.  When the setter accepts the
    value the call returns NONE, the property that the slot resolves to is
    the one the setter returned, every other property reads as before, and
    [Lav_nodeGetIntProperty] on the same handle and slot returns what the
    new property holds, provided the setter kept the type. *)
Theorem Lav_nodeSetIntProperty_result fuel h slot v (s : Simulation) r p :
  (0 <= h < Z.of_nat (length (nodes s)))%Z ->
  getProperty fuel (Z.to_nat h) slot s = Ok r s ->
  readProperty r s = Ok p s ->
  (getType p <> Lav_PROPERTYTYPE_INT ->
   Lav_nodeSetIntProperty fuel h slot v s = Some (Lav_ERROR_TYPE_MISMATCH, s)) /\
  (getType p = Lav_PROPERTYTYPE_INT -> isReadOnly p = true ->
   Lav_nodeSetIntProperty fuel h slot v s = Some (Lav_ERROR_PROPERTY_IS_READ_ONLY, s)) /\
  (getType p = Lav_PROPERTYTYPE_INT -> isReadOnly p = false ->
   (forall e, setIntValue v p = inl e ->
      Lav_nodeSetIntProperty fuel h slot v s = Some (e, s)) /\
   (forall p', setIntValue v p = inr p' ->
      exists s', Lav_nodeSetIntProperty fuel h slot v s = Some (Lav_ERROR_NONE, s') /\
        readProperty r s' = Ok p' s' /\
        (forall r' q, r' <> r -> readProperty r' s = Ok q s ->
                      readProperty r' s' = Ok q s') /\
        (getType p' = Lav_PROPERTYTYPE_INT ->
         Lav_nodeGetIntProperty fuel h slot s'
           = Some (Lav_ERROR_NONE, Some (getIntValue p'), s')))).
Proof.
  intros Hh Hg Hread.
  assert (incomingObject h s = Ok (Z.to_nat h) s) as Hin.
  { by destruct (incomingObject_cases h s) as [[_ ->]|[? _]]. }
  assert (forall t, PROP_PREAMBLE fuel h slot t s =
            if ptype_neqb (getType p) t then Throw Lav_ERROR_TYPE_MISMATCH s
            else Ok (r, p) s) as Hpre.
  { intros t. unfold PROP_PREAMBLE. unfold bind at 1. rewrite Hin.
    unfold bind at 1. rewrite Hg. unfold bind at 1. rewrite Hread.
    by destruct (ptype_neqb _ _). }
  assert (Lav_nodeSetIntProperty fuel h slot v s =
          if ptype_neqb (getType p) Lav_PROPERTYTYPE_INT
          then Some (Lav_ERROR_TYPE_MISMATCH, s)
          else if isReadOnly p then Some (Lav_ERROR_PROPERTY_IS_READ_ONLY, s)
          else match setIntValue v p with
               | inl e => Some (e, s)
               | inr p' =>
                 Some (Lav_ERROR_NONE,
                       set_nodes (alter (fun nd => set_properties
                                    (alter (fun _ => p') r.2 (properties nd)) nd)
                                  r.1 (nodes s)) s)
               end) as Hset.
  { unfold Lav_nodeSetIntProperty, PUB. unfold bind at 1. rewrite Hpre.
    destruct (ptype_neqb _ _); [done|]. simpl. unfold bind at 1.
    unfold READONLY_CHECK. destruct (isReadOnly p); [done|]. unfold ret at 1.
    by destruct (setIntValue v p). }
  rewrite Hset. clear Hset.
  split; [|split].
  - intros Ht.
    replace (ptype_neqb (getType p) Lav_PROPERTYTYPE_INT) with true; [done|].
    by destruct (getType p).
  - intros Ht Hro. by rewrite Ht, Hro.
  - intros Ht Hro. rewrite Ht, Hro. simpl. split.
    + by intros e ->.
    + intros p' ->. eexists. split; [reflexivity|].
      destruct r as [owner sl].
      unfold readProperty, bind, getNode in Hread. simpl in Hread.
      destruct (nodes s !! owner) as [ond|] eqn:Ho; [|done].
      destruct (properties ond !! sl) as [p0|] eqn:Hp0; [|done].
      injection Hread as ->.
      assert (forall s1, readProperty (owner, sl)
                (set_nodes (alter (fun nd => set_properties
                     (alter (fun _ => p') sl (properties nd)) nd) owner (nodes s)) s1)
              = Ok p' (set_nodes (alter (fun nd => set_properties
                     (alter (fun _ => p') sl (properties nd)) nd) owner (nodes s)) s1))
        as Hnew.
      { intros s1. unfold readProperty, bind, getNode. simpl.
        rewrite list_lookup_alter_eq, Ho. simpl. by rewrite lookup_alter_eq, Hp0. }
      split; [apply Hnew|]. split.
      * intros [m sl'] q Hne. unfold readProperty, bind, getNode. simpl.
        destruct (decide (m = owner)) as [->|Hm].
        -- rewrite list_lookup_alter_eq, Ho. simpl.
           assert (sl' <> sl) by congruence.
           rewrite lookup_alter_ne by done.
           destruct (properties ond !! sl'); [|done]. by intros [= ->].
        -- rewrite list_lookup_alter_ne by done.
           destruct (nodes s !! m) as [mnd|]; [|done].
           destruct (properties mnd !! sl'); [|done]. by intros [= ->].
      * intros Ht'. unfold Lav_nodeGetIntProperty, PUB_out, PROP_PREAMBLE.
        unfold bind at 1. unfold bind at 1.
        assert (forall s1 : Simulation, length (nodes s1) = length (nodes s) ->
                  incomingObject h s1 = Ok (Z.to_nat h) s1) as Hin'.
        { intros s1 Hlen. unfold incomingObject. rewrite Hlen.
          replace ((0 <=? h)%Z && (h <? Z.of_nat (length (nodes s)))%Z) with true;
            [done|]. symmetry. apply andb_true_iff. lia. }
        rewrite Hin' by (simpl; by rewrite length_alter).
        unfold bind at 1.
        set (s' := set_nodes _ s).
        assert (getProperty fuel (Z.to_nat h) slot s' = Ok (owner, sl) s') as ->.
        { clear Hin Hin' Hpre Hh. revert Hg. generalize (Z.to_nat h) as n.
          generalize slot as slot0. clear slot.
          induction fuel as [|fuel IH]; intros slot0 n Hg; [done|].
          cbn [getProperty] in *. unfold bind, getNode in *. simpl.
          rewrite list_lookup_alter.
          destruct (nodes s !! n) as [nd|] eqn:Hn; [|done].
          case_decide as Hon.
          - subst n. rewrite Hn. simpl. rewrite Hn in Ho. injection Ho as ->.
            destruct (forwarded_properties ond !! slot0) as [[t sl0]|] eqn:Hf.
            + by apply IH.
            + rewrite lookup_alter.
              destruct (properties ond !! slot0) as [q|] eqn:Hq; [|done].
              injection Hg as <-.
              case_decide; [by rewrite Hq|done].
          - destruct (forwarded_properties nd !! slot0) as [[t sl0]|] eqn:Hf.
            + by apply IH.
            + destruct (properties nd !! slot0) as [q|] eqn:Hq; [|done].
              by injection Hg as <-. }
        unfold bind at 1. unfold s'. rewrite Hnew.
        replace (ptype_neqb (getType p') Lav_PROPERTYTYPE_INT) with false; [done|].
        by rewrite Ht'.
Qed.

End SetterResults.

(** ** Further statements about the delay line *)

Section DelayLineResults.
Import DelayLine.
Local Open Scope Q_scope.

Lemma advance_line dl sample :
  line (advance dl sample) =
  <[Z.to_nat (ringmodi (write_head dl + 1) (line_length dl)) := sample]> (line dl).
Proof.
  unfold advance. cbn [is_interpolating write].
  destruct (is_interpolating dl); [|done].
  cbn. destruct (Qlt_bool _ _); cbn; destruct (Qle_bool _ _); done.
Qed.

Lemma advance_write_head dl sample :
  write_head (advance dl sample) = ringmodi (write_head dl + 1) (line_length dl).
Proof.
  unfold advance. cbn [is_interpolating write].
  destruct (is_interpolating dl); [|done].
  cbn. destruct (Qlt_bool _ _); cbn; destruct (Qle_bool _ _); done.
Qed.

Lemma advance_line_length dl sample :
  line_length (advance dl sample) = line_length dl.
Proof.
  unfold advance. cbn [is_interpolating write].
  destruct (is_interpolating dl); [|done].
  cbn. destruct (Qlt_bool _ _); cbn; destruct (Qle_bool _ _); done.
Qed.

Lemma foldl_advance_line_length samples dl :
  line_length (foldl advance dl samples) = line_length dl.
Proof.
  revert dl. induction samples as [|x l IH]; intros dl; [done|].
  simpl. by rewrite IH, advance_line_length.
Qed.

Lemma foldl_advance_length samples dl :
  length (line (foldl advance dl samples)) = length (line dl).
Proof.
  revert dl. induction samples as [|x l IH]; intros dl; [done|].
  simpl. by rewrite IH, advance_line, length_insert.
Qed.

Lemma line_at_insert (l : list Q) i j x :
  (0 <= i)%Z -> (0 <= j)%Z -> (Z.to_nat i < length l)%nat ->
  nth (Z.to_nat j) (<[Z.to_nat i := x]> l) 0 =
  if decide (i = j) then x else nth (Z.to_nat j) l 0.
Proof.
  intros Hi Hj Hlen. case_decide as Hij.
  - subst. apply nth_lookup_Some. by apply list_lookup_insert_eq.
  - destruct (decide (Z.to_nat j < length l)%nat) as [Hjl|Hjl].
    + destruct (lookup_lt_is_Some_2 l (Z.to_nat j) Hjl) as [y Hy].
      rewrite (nth_lookup_Some _ _ _ _ Hy).
      apply nth_lookup_Some. rewrite list_lookup_insert_ne by lia. done.
    + rewrite !nth_overflow; [done| |]; rewrite ?length_insert; lia.
Qed.

(** X18.  The line is a ring that keeps the most recent samples: after
    any sequence of [advance] calls on a line whose array has [line_length]
    cells, the write position is inside the array, the array has kept its
    length, and for every [j] below both the number of samples advanced and
    [line_length], the cell [j] positions behind the write position
    (modulo [line_length]) holds the sample advanced [j] calls before the
    last one. *)
Theorem advance_keeps_the_latest_samples dl samples :
  (0 < line_length dl)%Z ->
  length (line dl) = Z.to_nat (line_length dl) ->
  let dl' := foldl advance dl samples in
  line_length dl' = line_length dl /\
  length (line dl') = length (line dl) /\
  (samples <> [] -> (0 <= write_head dl' < line_length dl)%Z) /\
  forall j, (j < length samples)%nat -> (Z.of_nat j < line_length dl)%Z ->
    line_at dl' (ringmodi (write_head dl' - Z.of_nat j) (line_length dl))
    = nth j (rev samples) 0.
Proof.
  intros Hpos Hlen. cbv zeta.
  split; [apply foldl_advance_line_length|].
  split; [apply foldl_advance_length|].
  induction samples as [|x samples IH] using rev_ind.
  { split; [done|]. simpl. lia. }
  rewrite foldl_app. simpl.
  set (dl0 := foldl advance dl samples) in *.
  assert (line_length dl0 = line_length dl) as HL
    by apply foldl_advance_line_length.
  assert (length (line dl0) = Z.to_nat (line_length dl)) as Hlen0.
  { unfold dl0. by rewrite foldl_advance_length. }
  rewrite advance_write_head, HL. unfold ringmodi in *.
  assert (0 <= (write_head dl0 + 1) mod line_length dl < line_length dl)%Z as Hwh
    by (apply Z.mod_pos_bound; lia).
  split; [done|].
  intros j Hj HjL. rewrite rev_app_distr. simpl.
  unfold line_at. rewrite advance_line, HL. unfold ringmodi.
  rewrite line_at_insert; [| lia | apply Z.mod_pos_bound; lia | lia].
  destruct j as [|j].
  - rewrite Z.sub_0_r, Z.mod_mod by lia. by rewrite decide_True.
  - assert (((write_head dl0 + 1) mod line_length dl - Z.of_nat (S j))
              mod line_length dl
            = (write_head dl0 - Z.of_nat j) mod line_length dl)%Z as Hidx.
    { rewrite Zminus_mod_idemp_l. f_equal. lia. }
    rewrite Hidx. rewrite decide_False.
    + destruct IH as [_ IH]. unfold line_at in IH. apply IH.
      * rewrite length_app in Hj. simpl in Hj. lia.
      * lia.
    + intros Heq.
      assert (((write_head dl0 + 1) - (write_head dl0 - Z.of_nat j))
                mod line_length dl = 0)%Z as Hz.
      { rewrite Zminus_mod, Heq, Z.sub_diag. apply Z.mod_0_l. lia. }
      replace (write_head dl0 + 1 - (write_head dl0 - Z.of_nat j))%Z
        with (Z.of_nat (S j)) in Hz by lia.
      rewrite Z.mod_small in Hz by lia. lia.
Qed.







End DelayLineResults.

(** ** Statements about the pull node *)

Section PullNodeResults.
Context {A : Type} (d : A).
Import PullNode.

Lemma foldl_alter_indexed (g : nat -> list A -> list A) k a (bufs : list (list A)) x :
  foldl (fun acc j => alter (g j) j acc) bufs (seq a k) !! x =
  if decide (a <= x < a + k) then g x <$> bufs !! x else bufs !! x.
Proof.
  revert a bufs. induction k as [|k IH]; intros a bufs; simpl.
  { case_decide; [lia|done]. }
  rewrite IH, list_lookup_alter.
  repeat case_decide; subst; try lia; done.
Qed.

Lemma frame_lookup channels r i (bufs : list (list A)) j :
  frame d channels r i bufs !! j =
  if decide (j < channels) then <[i / channels := nth (i + j) r d]> <$> bufs !! j
  else bufs !! j.
Proof.
  unfold frame.
  rewrite (foldl_alter_indexed
             (fun j => <[i / channels := nth (i + j) r d]>) channels 0 bufs j).
  repeat case_decide; try lia; done.
Qed.

Lemma frames_lookup fuel bs channels r :
  0 < channels ->
  forall m (bufs : list (list A)) j buf,
    bs <= m + fuel ->
    bufs !! j = Some buf -> j < channels ->
    exists buf',
      frames d fuel bs channels r (m * channels) bufs !! j = Some buf' /\
      length buf' = length buf /\
      forall k, buf' !! k =
        if decide (m <= k < bs /\ k < length buf)
        then Some (nth (k * channels + j) r d) else buf !! k.
Proof.
  intros Hch. induction fuel as [|fuel IH]; intros m bufs j buf Hfuel Hj Hjc.
  { exists buf. split; [done|]. split; [done|]. intros k.
    case_decide; [lia|done]. }
  cbn [frames]. destruct (Nat.ltb_spec (m * channels) (bs * channels)) as [Hlt|Hge].
  - assert (m < bs) as Hm by nia.
    assert (frame d channels r (m * channels) bufs !! j
            = Some (<[m := nth (m * channels + j) r d]> buf)) as Hframe.
    { rewrite frame_lookup, decide_True, Hj by done. simpl.
      by rewrite Nat.div_mul by lia. }
    replace (m * channels + channels) with (S m * channels) by lia.
    destruct (IH (S m) _ j _ ltac:(lia) Hframe Hjc) as (buf' & Hb & Hlen & Hk).
    exists buf'. split; [done|]. split; [by rewrite Hlen, length_insert|].
    intros k. rewrite Hk, length_insert.
    destruct (decide (k = m)) as [->|Hkm].
    + destruct (decide (m < length buf)) as [Hml|Hml].
      * rewrite decide_False by lia. rewrite decide_True by lia.
        by rewrite list_lookup_insert_eq.
      * rewrite decide_False by lia. rewrite decide_False by lia.
        rewrite list_insert_ge by lia. done.
    + rewrite list_lookup_insert_ne by done.
      repeat case_decide; try lia; done.
  - assert (bs <= m) as Hm by nia.
    exists buf. split; [done|]. split; [done|]. intros k.
    case_decide; [lia|done].
Qed.

(** X21.  The last loop of [PullNode::process] de-interleaves: with a
    positive channel count, sample [k] of output buffer [j] is afterwards
    sample [k * channels + j] of the resampled block, for every channel
    [j] below [channels] and every [k] below [block_size] that the buffer
    has; the other samples and the other buffers, and all lengths, are as
    before.  With 0 channels the loop does nothing. *)
Theorem uninterleave_spreads_the_frames block_size channels r
    (output_buffers : list (list A)) :
  length (uninterleave d block_size channels r output_buffers)
    = length output_buffers /\
  (channels = 0 -> uninterleave d block_size channels r output_buffers = output_buffers) /\
  (0 < channels ->
   forall j buf, output_buffers !! j = Some buf ->
     exists buf',
       uninterleave d block_size channels r output_buffers !! j = Some buf' /\
       length buf' = length buf /\
       (channels <= j -> buf' = buf) /\
       (j < channels ->
        forall k, buf' !! k =
          if decide (k < block_size /\ k < length buf)
          then Some (nth (k * channels + j) r d) else buf !! k)).
Proof.
  assert (forall fuel i (bufs : list (list A)),
            length (frames d fuel block_size channels r i bufs) = length bufs) as Hlen.
  { induction fuel as [|fuel IH]; intros i bufs; [done|].
    cbn [frames]. destruct (_ <? _); [|done]. rewrite IH.
    unfold frame. generalize (seq 0 channels) as l. revert bufs.
    intros bufs l. revert bufs. induction l as [|x l IHl]; intros bufs; [done|].
    simpl. by rewrite IHl, length_alter. }
  split; [apply Hlen|]. split.
  - intros ->. unfold uninterleave. destruct block_size; [done|].
    cbn [frames]. by rewrite Nat.mul_0_r.
  - intros Hch j buf Hj. unfold uninterleave.
    destruct (decide (j < channels)) as [Hjc|Hjc].
    + destruct (frames_lookup block_size block_size channels r Hch 0
                  output_buffers j buf ltac:(lia) Hj Hjc) as (buf' & Hb & Hl & Hk).
      exists buf'. split; [done|]. split; [done|]. split; [lia|].
      intros _ k. rewrite Hk. repeat case_decide; try lia; done.
    + exists buf. split; [|split; [done|split; [done|lia]]].
      assert (forall fuel i (bufs : list (list A)),
                frames d fuel block_size channels r i bufs !! j = bufs !! j) as Hsame.
      { induction fuel as [|fuel IH]; intros i bufs; [done|].
        cbn [frames]. destruct (_ <? _); [|done].
        rewrite IH, frame_lookup. by rewrite decide_False. }
      by rewrite Hsame.
Qed.

End PullNodeResults.

(** ** Gain and bias at either rate *)

Section GainFurther.
Context {F D : Type} `{!Float F} `{!NodeConstants} `{!Kernels F D}.

Local Abbreviation M := (M F D).
Local Abbreviation Node := (Node F D).
Local Abbreviation Simulation := (Simulation F D).

Implicit Types (s : Simulation) (nd : Node) (bufs : list (list F)).

Lemma forM_modify n s (g : list F -> list F) k a bufs :
  forM (seq a k) (fun j => modifyOutputBuffer (Some n) j g) (with_outputs n bufs s) =
  Ok tt (with_outputs n (foldl (fun acc j => alter g j acc) bufs (seq a k)) s).
Proof.
  revert a bufs. induction k as [|k IH]; intros a bufs; [done|].
  cbn [forM seq]. unfold bind at 1.
  rewrite modifyOutputBuffer_with_outputs. apply IH.
Qed.

Lemma arate_loop fuel n s nd r p (op : F -> F -> F) k a bufs :
  nodes s !! n = Some nd -> node_class nd = NodeBase ->
  readProperty r s = Ok p s ->
  forM (seq a k) (fun i =>
    let* q := readProperty r in
    let v := getFloatValueAt q i in
    let* count := getOutputBufferCount (S fuel) n in
    forM (seq 0 count) (fun j =>
      modifyOutputBuffer (Some n) j (alter (fun x => op x v) i)))
    (with_outputs n bufs s) =
  Ok tt (with_outputs n
           ((fun buf => foldl (fun b i => alter (fun x => op x (getFloatValueAt p i)) i b)
                              buf (seq a k)) <$> bufs) s).
Proof.
  intros Hn Hc Hr. revert a bufs. induction k as [|k IH]; intros a bufs.
  { simpl. by rewrite list_fmap_id. }
  cbn [forM seq]. unfold bind at 1. unfold bind at 1.
  rewrite (readProperty_with_outputs _ _ _ _ _ Hr). cbv beta iota zeta.
  unfold bind at 1.
  rewrite (getOutputBufferCount_base _ _ _ _ (with_outputs_lookup _ _ _ _ Hn) Hc).
  simpl output_buffers. rewrite forM_modify, foldl_alter_all.
  rewrite IH. f_equal. f_equal. rewrite <- list_fmap_compose.
  apply list_fmap_ext. intros _ buf _. done.
Qed.

Lemma arate_stage_lookup (op : F -> F -> F) len p (buf : list F) i :
  arate_stage op len p buf !! i =
  if decide (i < len) then (fun x => op x (getFloatValueAt p i)) <$> buf !! i
  else buf !! i.
Proof.
  unfold arate_stage.
  assert (forall a, foldl (fun b i0 => alter (fun x => op x (getFloatValueAt p i0)) i0 b)
                          buf (seq a len) !! i =
                    if decide (a <= i < a + len)
                    then (fun x => op x (getFloatValueAt p i)) <$> buf !! i
                    else buf !! i) as Hgen.
  { revert buf. induction len as [|len IH]; intros buf a; simpl.
    { case_decide; [lia|done]. }
    rewrite IH, list_lookup_alter.
    repeat case_decide; subst; try lia; done. }
  rewrite (Hgen 0).
  repeat case_decide; try lia; done.
Qed.

Lemma applyMulAdd_any_rate fuel n s nd mulProp addProp mulP addP :
  nodes s !! n = Some nd -> node_class nd = NodeBase ->
  getProperty fuel n Lav_NODE_MUL s = Ok mulProp s ->
  getProperty fuel n Lav_NODE_ADD s = Ok addProp s ->
  readProperty mulProp s = Ok mulP s ->
  readProperty addProp s = Ok addP s ->
  applyMulAdd fuel n s =
  Ok tt (with_outputs n
           ((fun buf => add_stage_of (block_size nd) addP
                          (mul_stage_of (block_size nd) mulP buf))
              <$> output_buffers nd) s).
Proof.
  intros Hn Hc Hmul Hadd HmulP HaddP.
  destruct (needsARate mulP) eqn:Hkm, (needsARate addP) eqn:Hka.
  4: { rewrite (applyMulAdd_k_rate _ _ _ _ _ _ _ _ Hn Hc Hmul Hadd HmulP Hkm HaddP Hka).
       unfold add_stage_of, mul_stage_of. by rewrite Hkm, Hka. }
  all: destruct fuel as [|fuel]; [done|].
  all: unfold applyMulAdd; unfold bind at 1; rewrite Hmul;
       unfold bind at 1; rewrite Hadd;
       unfold bind at 1; rewrite (getOutputBufferArray_base _ _ _ _ Hn Hc);
       unfold bind at 1; unfold getNode at 1; rewrite Hn;
       unfold bind at 1; rewrite HmulP; rewrite Hkm.
  all: set (bs := block_size nd).
  all: unfold add_stage_of, mul_stage_of; rewrite Hkm, Hka.
  all: case_bool_decide as Hlen.
  (* no output buffer: every loop is empty *)
  all: try (apply nil_length_inv in Hlen).
  - assert (forall (g : nat -> M unit) k a s0,
              (forall i, g i s0 = Ok tt s0) -> forM (seq a k) g s0 = Ok tt s0) as Hloop.
    { intros g k. induction k as [|k IH]; intros a s0 Hg; [done|].
      cbn [forM seq]. unfold bind. rewrite Hg. by apply IH. }
    assert (forall r q (op : F -> F -> F) i,
              readProperty r s = Ok q s ->
              (let* q := readProperty r in
               let v := getFloatValueAt q i in
               let* count := getOutputBufferCount (S fuel) n in
               forM (seq 0 count) (fun j =>
                 modifyOutputBuffer None j (alter (fun x => op x v) i))) s = Ok tt s)
      as Hbody.
    { intros r q op i Hq. unfold bind at 1. rewrite Hq. cbv zeta. unfold bind at 1.
      rewrite (getOutputBufferCount_base _ _ _ _ Hn Hc), Hlen. done. }
    unfold bind at 1. rewrite Hloop.
    2: { intros i. by apply (Hbody mulProp mulP fmul i). }
    unfold bind at 1. rewrite HaddP, Hka. rewrite Hloop.
    2: { intros i. by apply (Hbody addProp addP fadd i). }
    rewrite Hlen. simpl. rewrite <- Hlen. by rewrite (with_outputs_same _ _ _ Hn).
  - unfold bind at 1. rewrite <- (with_outputs_same n s nd Hn) at 1.
    rewrite (arate_loop _ _ _ _ _ _ fmul _ _ _ Hn Hc HmulP).
    unfold bind at 1. rewrite (readProperty_with_outputs _ _ _ _ _ HaddP), Hka.
    rewrite (arate_loop _ _ _ _ _ _ fadd _ _ _ Hn Hc HaddP).
    by rewrite <- list_fmap_compose.
  - assert (forall (g : nat -> M unit) k a s0,
              (forall i, g i s0 = Ok tt s0) -> forM (seq a k) g s0 = Ok tt s0) as Hloop.
    { intros g k. induction k as [|k IH]; intros a s0 Hg; [done|].
      cbn [forM seq]. unfold bind. rewrite Hg. by apply IH. }
    unfold bind at 1. rewrite Hloop.
    2: { intros i. unfold bind at 1. rewrite HmulP. cbv zeta. unfold bind at 1.
         rewrite (getOutputBufferCount_base _ _ _ _ Hn Hc), Hlen. done. }
    unfold bind at 1. rewrite HaddP, Hka. unfold add_stage.
    destruct (fneqb (getFloatValue addP) fzero).
    + unfold bind at 1. rewrite (getOutputBufferCount_base _ _ _ _ Hn Hc), Hlen.
      simpl. rewrite <- Hlen. by rewrite (with_outputs_same _ _ _ Hn).
    + rewrite Hlen. simpl. rewrite <- Hlen. by rewrite (with_outputs_same _ _ _ Hn).
  - unfold bind at 1. rewrite <- (with_outputs_same n s nd Hn) at 1.
    rewrite (arate_loop _ _ _ _ _ _ fmul _ _ _ Hn Hc HmulP).
    unfold bind at 1. rewrite (readProperty_with_outputs _ _ _ _ _ HaddP), Hka.
    unfold add_stage. destruct (fneqb (getFloatValue addP) fzero).
    + unfold bind at 1.
      rewrite (getOutputBufferCount_base _ _ _ _ (with_outputs_lookup _ _ _ _ Hn) Hc).
      simpl output_buffers.
      rewrite (forM_buffers n s nd addProp addP
                 (fun q => scalarAdditionKernel bs (getFloatValue q))
                 _ _ _ Hn HaddP).
      rewrite foldl_alter_all. by rewrite <- list_fmap_compose.
    + reflexivity.
  - assert (forall (g : nat -> M unit) k a s0,
              (forall i, g i s0 = Ok tt s0) -> forM (seq a k) g s0 = Ok tt s0) as Hloop.
    { intros g k. induction k as [|k IH]; intros a s0 Hg; [done|].
      cbn [forM seq]. unfold bind. rewrite Hg. by apply IH. }
    unfold mul_stage.
    assert ((if fneqb (getFloatValue mulP) fone then
               let* count := getOutputBufferCount (S fuel) n in
               forM (seq 0 count) (fun i =>
                 let* mulP := readProperty mulProp in
                 modifyOutputBuffer None i
                   (scalarMultiplicationKernel bs (getFloatValue mulP)))
             else ret tt) s = Ok tt s) as Hm.
    { destruct (fneqb _ _); [|done]. unfold bind at 1.
      by rewrite (getOutputBufferCount_base _ _ _ _ Hn Hc), Hlen. }
    unfold bind at 1. rewrite Hm.
    unfold bind at 1. rewrite HaddP, Hka. rewrite Hloop.
    2: { intros i. unfold bind at 1. rewrite HaddP. cbv zeta. unfold bind at 1.
         rewrite (getOutputBufferCount_base _ _ _ _ Hn Hc), Hlen. done. }
    rewrite Hlen. simpl. rewrite <- Hlen. by rewrite (with_outputs_same _ _ _ Hn).
  - unfold mul_stage.
    assert ((if fneqb (getFloatValue mulP) fone then
               let* count := getOutputBufferCount (S fuel) n in
               forM (seq 0 count) (fun i =>
                 let* mulP := readProperty mulProp in
                 modifyOutputBuffer (Some n) i
                   (scalarMultiplicationKernel bs (getFloatValue mulP)))
             else ret tt) s =
            Ok tt (with_outputs n
                     ((if fneqb (getFloatValue mulP) fone
                       then scalarMultiplicationKernel bs (getFloatValue mulP)
                       else id) <$> output_buffers nd) s)) as Hm.
    { destruct (fneqb _ _).
      - unfold bind at 1. rewrite (getOutputBufferCount_base _ _ _ _ Hn Hc).
        rewrite <- (with_outputs_same n s nd Hn) at 1.
        rewrite (forM_buffers n s nd mulProp mulP
                   (fun q => scalarMultiplicationKernel bs (getFloatValue q))
                   _ _ _ Hn HmulP).
        by rewrite foldl_alter_all.
      - rewrite list_fmap_id. by rewrite (with_outputs_same _ _ _ Hn). }
    unfold bind at 1. rewrite Hm.
    unfold bind at 1. rewrite (readProperty_with_outputs _ _ _ _ _ HaddP), Hka.
    rewrite (arate_loop _ _ _ _ _ _ fadd _ _ _ Hn Hc HaddP).
    rewrite <- list_fmap_compose. f_equal. f_equal.
    apply list_fmap_ext. intros _ buf _. simpl. by destruct (fneqb _ _).
Qed.

(** X22.  The gain and bias stage at the end of [Node::tick], for mul and
    add properties of either rate, on a node of class [Node]: it returns,
    and sample [i] of every output buffer, for [i] below the block size,
    goes from [y] to [y * mul(i) + add(i)], where [mul(i)] and [add(i)] are
    the per-sample values of an a-rate property and the current value of a
    k-rate one; the samples from the block size on are untouched.  For a
    k-rate property the two skipped cases need what they rely on, that a
    factor comparing equal to 1 and a summand comparing equal to 0 are
    right units; an a-rate property is applied to every sample. *)
Theorem gain_and_bias_at_either_rate fuel n s nd mulProp addProp mulP addP :
  (needsARate mulP = false -> fneqb (getFloatValue mulP) fone = false ->
   forall x, fmul x (getFloatValue mulP) = x) ->
  (needsARate addP = false -> fneqb (getFloatValue addP) fzero = false ->
   forall x, fadd x (getFloatValue addP) = x) ->
  nodes s !! n = Some nd -> node_class nd = NodeBase ->
  getProperty fuel n Lav_NODE_MUL s = Ok mulProp s ->
  getProperty fuel n Lav_NODE_ADD s = Ok addProp s ->
  readProperty mulProp s = Ok mulP s ->
  readProperty addProp s = Ok addP s ->
  exists s' nd',
    applyMulAdd fuel n s = Ok tt s' /\
    nodes s' !! n = Some nd' /\
    length (output_buffers nd') = length (output_buffers nd) /\
    forall j buf, output_buffers nd !! j = Some buf ->
      exists buf', output_buffers nd' !! j = Some buf' /\
        forall i y, buf !! i = Some y ->
          buf' !! i = Some (if decide (i < block_size nd)
                            then fadd (fmul y (value_at mulP i)) (value_at addP i)
                            else y).
Proof.
  intros Hone Hzero Hn Hc Hmul Hadd HmulP HaddP.
  rewrite (applyMulAdd_any_rate _ _ _ _ _ _ _ _ Hn Hc Hmul Hadd HmulP HaddP).
  eexists. eexists. split; [reflexivity|].
  split; [by apply with_outputs_lookup|]. simpl.
  split; [by rewrite length_fmap|].
  intros j buf Hj. eexists. split; [by rewrite list_lookup_fmap, Hj|].
  intros i y Hy.
  assert (mul_stage_of (block_size nd) mulP buf !! i =
          Some (if decide (i < block_size nd) then fmul y (value_at mulP i) else y))
    as Hm.
  { unfold mul_stage_of, value_at. destruct (needsARate mulP) eqn:Hk.
    - rewrite arate_stage_lookup, Hy. by case_decide.
    - unfold mul_stage. destruct (fneqb (getFloatValue mulP) fone) eqn:Hf.
      + case_decide.
        * by apply scalarMultiplicationKernel_lookup.
        * apply lookup_lt_Some in Hy as Hlt.
          unfold scalarMultiplicationKernel.
          rewrite lookup_app_r by (rewrite length_map, length_take; lia).
          rewrite length_map, length_take, lookup_drop. rewrite <- Hy. f_equal. lia.
      + case_decide; [|done]. by rewrite (Hone eq_refl eq_refl). }
  unfold add_stage_of, value_at. destruct (needsARate addP) eqn:Hk.
  - rewrite arate_stage_lookup, Hm. by case_decide.
  - unfold add_stage. destruct (fneqb (getFloatValue addP) fzero) eqn:Hf.
    + case_decide.
      * by apply scalarAdditionKernel_lookup.
      * apply lookup_lt_Some in Hm as Hlt.
        unfold scalarAdditionKernel.
        rewrite lookup_app_r by (rewrite length_map, length_take; lia).
        rewrite length_map, length_take, lookup_drop. rewrite <- Hm. f_equal. lia.
    + rewrite Hm. case_decide; [|done]. by rewrite (Hzero eq_refl eq_refl).
Qed.

End GainFurther.

(** ** Further statements about the late-reflections node *)

Section LateReflectionsResults.
Import PanReduction.
Local Open Scope Q_scope.




End LateReflectionsResults.

Section CoprimeResults.

Lemma index_check :
  forallb (fun i =>
    ((i mod 4) * 4 + i / 4 <? 16)%nat &&
    ((((i mod 4) * 4 + i / 4) mod 4 * 4 + ((i mod 4) * 4 + i / 4) / 4 =? i)%nat))
    (seq 0 16) = true.
Proof. vm_compute. reflexivity. Qed.

Lemma divide_pow (p : Z) (a : Z) : (0 < a)%Z -> (p | p ^ a)%Z.
Proof.
  intros Ha. exists (p ^ (a - 1))%Z.
  replace a with (Z.succ (a - 1)) at 1 by lia.
  rewrite Z.pow_succ_r by lia. lia.
Qed.

(** X24.  The index [(i mod 4) * 4 + i / 4] that [recompute] reads the
    table with is a permutation of 0..15 (it is its own inverse), so each
    of the sixteen entries is the base of exactly one line.  The entries
    are not pairwise coprime, though the table is introduced as a set of
    coprime integers: lines 0 and 1 of the loop have the bases 3 and 9, and
    their lengths in samples, positive powers of these, are both divisible
    by 3. *)
Theorem delay_bases_are_a_permutation_not_coprime :
  (forall i, i < 16 ->
     (i mod 4) * 4 + i / 4 < 16 /\
     ((i mod 4) * 4 + i / 4) mod 4 * 4 + ((i mod 4) * 4 + i / 4) / 4 = i) /\
  LateReflections.spec_prime_order ≡ₚ LateReflections.coprimes /\
  nth ((0 mod 4) * 4 + 0 / 4) LateReflections.coprimes 0%Z = 3%Z /\
  nth ((1 mod 4) * 4 + 1 / 4) LateReflections.coprimes 0%Z = 9%Z /\
  forall a b, (0 < a)%Z -> (0 < b)%Z ->
    (3 | Z.gcd (nth ((0 mod 4) * 4 + 0 / 4) LateReflections.coprimes 0 ^ a)
               (nth ((1 mod 4) * 4 + 1 / 4) LateReflections.coprimes 0 ^ b))%Z.
Proof.
  split.
  { pose proof index_check as Hcheck. rewrite forallb_forall in Hcheck.
    intros i Hi. specialize (Hcheck i ltac:(apply in_seq; lia)).
    apply andb_true_iff in Hcheck as [H1 H2].
    apply Nat.ltb_lt in H1. apply Nat.eqb_eq in H2. done. }
  split.
  { assert (Forall (fun x => x ∈ LateReflections.coprimes)
                   LateReflections.spec_prime_order) as H1
      by (apply (bool_decide_unpack _); vm_compute; exact I).
    assert (Forall (fun x => x ∈ LateReflections.spec_prime_order)
                   LateReflections.coprimes) as H2
      by (apply (bool_decide_unpack _); vm_compute; exact I).
    rewrite Forall_forall in H1, H2.
    apply NoDup_Permutation.
    - apply (bool_decide_unpack _). vm_compute. exact I.
    - apply (bool_decide_unpack _). vm_compute. exact I.
    - intros x. split; [apply H1|apply H2]. }
  split; [reflexivity|]. split; [reflexivity|].
  intros a b Ha Hb.
  change (nth ((0 mod 4) * 4 + 0 / 4) LateReflections.coprimes 0%Z) with 3%Z.
  change (nth ((1 mod 4) * 4 + 1 / 4) LateReflections.coprimes 0%Z) with 9%Z.
  apply Z.gcd_greatest.
  - by apply divide_pow.
  - apply Z.divide_trans with 9%Z; [by exists 3%Z|by apply divide_pow].
Qed.

End CoprimeResults.

(** ** Connecting to a subgraph node *)

Section SubgraphResults.
Context {F D : Type} `{!Float F} `{!NodeConstants} `{!Kernels F D}.

Local Abbreviation M := (M F D).
Local Abbreviation Node := (Node F D).
Local Abbreviation Simulation := (Simulation F D).

Implicit Types (s : Simulation) (nd : Node).

(** X25.  A subgraph node presents the input connections of its input
    node as its own.  After [setInputNode(i)] on a subgraph node [n], for
    [i] another node, of class [Node]: the input connection count of [n]
    is that of [i]; and a [connect] from an output of a node [src] to
    input [k] of [n] that passes the cycle check and the index checks
    records the edge on input [k] of [i], so that afterwards [i] depends on
    [src]. *)
Theorem connect_to_subgraph_reaches_its_input_node fuel s n nd i0 o i ind src srcnd
    output k :
  nodes s !! n = Some nd -> node_class nd = SubgraphNodeClass i0 o ->
  i <> n -> nodes s !! i = Some ind -> node_class ind = NodeBase ->
  nodes s !! src = Some srcnd ->
  (0 <= output < Z.of_nat (length (output_connections srcnd)))%Z ->
  (0 <= k < Z.of_nat (length (input_connections ind)))%Z ->
  exists s1,
    setInputNode n (Some i) s = Ok tt s1 /\
    getInputConnectionCount (S (S fuel)) n s1 = Ok (length (input_connections ind)) s1 /\
    (forall which, getInputConnection (S (S fuel)) n which s1
                   = getInputConnection (S fuel) i which s1) /\
    (doesEdgePreserveAcyclicity (S (S fuel)) src n s1 = Ok true s1 ->
     exists s',
       connect (S (S fuel)) src output n k s1 = Ok tt s' /\
       edge_added s1 s' (src, Z.to_nat output) (NodeInput i (Z.to_nat k)) /\
       dep s' i src).
Proof.
  intros Hn Hc Hin Hi Hic Hsrc Hout Hk.
  set (upd := fun x : Node =>
                match node_class x with
                | SubgraphNodeClass _ o => set_node_class (SubgraphNodeClass (Some i) o) x
                | NodeBase => x
                end).
  set (s1 := set_nodes (alter upd n (nodes s)) s).
  exists s1. split; [reflexivity|].
  assert (nodes s1 !! n = Some (set_node_class (SubgraphNodeClass (Some i) o) nd)) as Hn1.
  { simpl. rewrite list_lookup_alter_eq, Hn. simpl. unfold upd. by rewrite Hc. }
  assert (nodes s1 !! i = Some ind) as Hi1.
  { simpl. by rewrite list_lookup_alter_ne. }
  assert (getInputConnectionCount (S (S fuel)) n s1
          = Ok (length (input_connections ind)) s1) as Hcount.
  { rewrite (getInputConnectionCount_subgraph _ _ _ _ _ _ Hn1 eq_refl).
    simpl. unfold bind, getNode. by rewrite Hi1, Hic. }
  split; [done|].
  assert (forall which, getInputConnection (S (S fuel)) n which s1
                        = getInputConnection (S fuel) i which s1) as Hget.
  { intros which.
    rewrite (getInputConnection_subgraph _ _ _ _ _ _ _ which Hn1 eq_refl Hcount).
    rewrite (getInputConnection_base fuel i which s1 ind Hi1 Hic).
    rewrite orb_comm. by destruct (_ || _). }
  split; [done|].
  intros Hdfs.
  assert (nodes s1 !! src = Some (if decide (src = n)
                                  then set_node_class (SubgraphNodeClass (Some i) o) nd
                                  else srcnd)) as Hsrc1.
  { case_decide; [by subst|]. simpl. by rewrite list_lookup_alter_ne. }
  assert (getOutputConnection src output s1 = Ok (src, Z.to_nat output) s1) as Ho.
  { unfold getOutputConnection, bind, getNode. rewrite Hsrc1.
    assert (length (output_connections
              (if decide (src = n)
               then set_node_class (SubgraphNodeClass (Some i) o) nd else srcnd))
            = length (output_connections srcnd)) as ->.
    { case_decide; [|done]. subst. simpl. by simplify_eq. }
    replace ((output <? 0)%Z || (output >=? Z.of_nat (length (output_connections srcnd)))%Z)
      with false; [done|]. symmetry. apply orb_false_iff. lia. }
  assert (getInputConnection (S (S fuel)) n k s1 = Ok (NodeInput i (Z.to_nat k)) s1)
    as Hgk.
  { rewrite Hget, (getInputConnection_base fuel i k s1 ind Hi1 Hic).
    replace ((k >=? Z.of_nat (length (input_connections ind)))%Z || (k <? 0)%Z)
      with false; [done|]. symmetry. apply orb_false_iff. lia. }
  destruct (lookup_lt_is_Some_2 (input_connections ind) (Z.to_nat k)) as [c Hck]; [lia|].
  assert (readInput (NodeInput i (Z.to_nat k)) s1 = Ok c s1) as Hread.
  { unfold readInput, bind, getNode. by rewrite Hi1, Hck. }
  destruct (makeConnection_NodeInput (src, Z.to_nat output) i (Z.to_nat k) s1 c Hread)
    as (s' & Hmk & Hedge).
  exists s'. split.
  { unfold connect. unfold bind at 1. rewrite Hdfs. cbn [negb].
    unfold bind at 1. rewrite Ho. unfold bind at 1. by rewrite Hgk. }
  split; [done|].
  unfold makeConnection, modifyInput, modifyNode in Hmk. injection Hmk as <-.
  eapply dep_feeds.
  - simpl. by rewrite list_lookup_alter_eq, list_lookup_alter_ne, Hi.
  - done.
  - left. exists (Z.to_nat k), (add_edge (src, Z.to_nat output) c), (Z.to_nat output).
    split.
    + simpl. by rewrite list_lookup_alter_eq, Hck.
    + apply elem_of_add_edge. by right.
Qed.

End SubgraphResults.

(** ** Statements about the additive square wave and the read tap *)

Section AdditiveSquareResults.
Import AdditiveSquare.
Local Open Scope Q_scope.



End AdditiveSquareResults.

Section ReadResults.
Import DelayLine.
Local Open Scope Q_scope.


End ReadResults.

(** ** The further statements at concrete stores *)

Lemma getProperty_returns_existing_property_witness :
  getProperty 2 0 (-2) gain_example = Ok (0, (-2)%Z) gain_example /\
  exists nd p, nodes gain_example !! 0 = Some nd /\
               forwarded_properties nd !! (-2)%Z = None /\
               properties nd !! (-2)%Z = Some p /\
               readProperty (0, (-2)%Z) gain_example = Ok p gain_example.
Proof.
  assert (getProperty 2 0 (-2) gain_example = Ok (0, (-2)%Z) gain_example) as Hg
    by (vm_compute; reflexivity).
  split; [exact Hg|].
  exact (proj2 (getProperty_returns_existing_property 2 0 (-2)%Z gain_example
                  (0, (-2)%Z) gain_example Hg)).
Defined.

Lemma subgraph_example_well_linked :
  well_linked (fun n => if Nat.eqb n 2 then 1 else 0) 2 subgraph_example.
Proof.
  intros n nd Hn.
  destruct n as [|[|[|n]]]; simpl in Hn; simplify_eq; (split; [simpl; lia|]);
    intros m Hm.
  - by apply elem_of_nil in Hm.
  - by apply elem_of_nil in Hm.
  - change (m ∈ [1; 0]) in Hm.
    apply elem_of_cons in Hm as [->|Hm]; [simpl; lia|].
    apply list_elem_of_singleton in Hm as ->. simpl. lia.
Qed.

Lemma subgraph_example_links_valid : links_valid subgraph_example.
Proof.
  intros n nd Hn.
  destruct n as [|[|[|n]]]; simpl in Hn; simplify_eq; intros m Hm.
  - by apply elem_of_nil in Hm.
  - by apply elem_of_nil in Hm.
  - change (m ∈ [1; 0]) in Hm.
    apply elem_of_cons in Hm as [->|Hm]; [simpl; lia|].
    apply list_elem_of_singleton in Hm as ->. simpl. lia.
Qed.

Lemma getInputConnection_agrees_with_count_witness :
  exists c,
    getInputConnectionCount 2 2 subgraph_example = Ok c subgraph_example /\
    forall which,
      ((0 <= which < Z.of_nat c)%Z ->
       exists owner i conn,
         getInputConnection 2 2 which subgraph_example
           = Ok (NodeInput owner i) subgraph_example /\
         readInput (NodeInput owner i) subgraph_example = Ok conn subgraph_example) /\
      ((which < 0 \/ Z.of_nat c <= which)%Z ->
       getInputConnection 2 2 which subgraph_example
         = Throw Lav_ERROR_RANGE subgraph_example).
Proof.
  destruct (getInputConnection_agrees_with_count
              (fun n => if Nat.eqb n 2 then 1 else 0) 2 subgraph_example 2 2
              (example_subgraph 1 (Some 1) (Some 0))
              subgraph_example_well_linked subgraph_example_links_valid
              eq_refl (le_n 2)) as (c & Hc & _ & Hget).
  exists c. split; [exact Hc|exact Hget].
Defined.

Lemma getOutputBufferArray_agrees_with_count_witness :
  exists c p,
    getOutputBufferCount 2 2 subgraph_example = Ok c subgraph_example /\
    getOutputBufferArray 2 2 subgraph_example = Ok p subgraph_example /\
    match p with
    | Some o => exists ond, nodes subgraph_example !! o = Some ond /\
                            node_class ond = NodeBase /\
                            c = length (output_buffers ond) /\ 0 < c
    | None => c = 0
    end.
Proof.
  exact (getOutputBufferArray_agrees_with_count
           (fun n => if Nat.eqb n 2 then 1 else 0) 2 subgraph_example 2 2
           (example_subgraph 1 (Some 1) (Some 0))
           subgraph_example_well_linked subgraph_example_links_valid
           eq_refl (le_n 2)).
Defined.

Lemma zeroOutputBuffers_zeroes_visible_outputs_witness :
  exists s' bufs,
    zeroOutputBuffers 2 2 subgraph_example = Ok tt s' /\
    visible_outputs 2 2 subgraph_example = Some bufs /\
    visible_outputs 2 2 s' = Some (memset0 2 <$> bufs) /\
    framed subgraph_example s'.
Proof.
  destruct (zeroOutputBuffers_zeroes_visible_outputs
              (fun n => if Nat.eqb n 2 then 1 else 0) 2 subgraph_example 2 2
              (example_subgraph 1 (Some 1) (Some 0))
              subgraph_example_well_linked subgraph_example_links_valid
              eq_refl (le_n 2)) as (s' & bufs & H1 & H2 & H3 & H4 & _).
  exists s', bufs. split; [exact H1|]. split; [exact H2|]. split; [exact H3|exact H4].
Defined.

Lemma zeroInputBuffers_zeroes_own_inputs_witness :
  exists s' nd',
    zeroInputBuffers 3 diamond = Ok tt s' /\
    nodes s' !! 3 = Some nd' /\
    input_buffers nd' = memset0 2 <$> [[0%Z; 0%Z]].
Proof.
  destruct (zeroInputBuffers_zeroes_own_inputs 3 diamond
              (example_node 1 1 0 0 1 [(1, 0); (2, 0)] [0%Z; 0%Z]) eq_refl)
    as (s' & nd' & H1 & _ & H2 & H3 & _).
  exists s', nd'. split; [exact H1|]. split; [exact H2|exact H3].
Defined.

Lemma tick_of_paused_node_is_silent_witness :
  exists s' nd',
    tick 1 0 paused_example = Ok tt s' /\
    nodes s' !! 0 = Some nd' /\
    process_calls nd' = 0 /\
    output_buffers (example_node 0 1 0 7 0 [] [7%Z; 7%Z]) = [[7%Z; 7%Z]] /\
    forall j buf i, output_buffers nd' !! j = Some buf ->
      i < 2 -> i < length buf -> buf !! i = Some 0%Z.
Proof.
  assert (last_processed (example_node 0 1 0 7 0 [] [7%Z; 7%Z])
          <> tick_count paused_example) as Hlp by (vm_compute; discriminate).
  assert (forwarded_properties (example_node 0 1 0 7 0 [] [7%Z; 7%Z]) !! Lav_NODE_STATE
          = None) as Hfw by (vm_compute; reflexivity).
  assert (properties (example_node 0 1 0 7 0 [] [7%Z; 7%Z]) !! Lav_NODE_STATE
          = Some (example_int_property 0)) as Hp by (vm_compute; reflexivity).
  destruct (tick_of_paused_node_is_silent 0 0 paused_example
              (example_node 0 1 0 7 0 [] [7%Z; 7%Z]) (example_int_property 0)
              eq_refl eq_refl Hlp Hfw Hp eq_refl)
    as (s' & nd' & H1 & H2 & _ & _ & _ & H3 & _ & _ & _ & H4).
  exists s', nd'. split; [exact H1|]. split; [exact H2|]. split; [exact H3|].
  split; [reflexivity|exact H4].
Defined.

Lemma tick_again_is_a_no_op_witness :
  tick 4 3 diamond = Ok tt diamond_ticked /\
  forall nd', nodes diamond_ticked !! 3 = Some nd' ->
    last_processed nd' = tick_count diamond_ticked /\
    forall fuel', tick (S fuel') 3 diamond_ticked = Ok tt diamond_ticked.
Proof.
  assert (tick 4 3 diamond = Ok tt diamond_ticked) as Ht by (vm_compute; reflexivity).
  split; [exact Ht|].
  exact (tick_again_is_a_no_op 4 3 diamond diamond_ticked (or_introl Ht)).
Defined.

Lemma tick_preserves_the_graph_witness :
  tick 4 3 diamond = Ok tt diamond_ticked /\
  tick_count diamond_ticked = tick_count diamond /\
  final_output_connection diamond_ticked = final_output_connection diamond /\
  length (nodes diamond_ticked) = length (nodes diamond).
Proof.
  assert (tick 4 3 diamond = Ok tt diamond_ticked) as Ht by (vm_compute; reflexivity).
  destruct (tick_preserves_the_graph 4 3 diamond diamond_ticked (or_introl Ht))
    as (H1 & _ & H2 & H3 & _).
  split; [exact Ht|]. split; [exact H1|]. split; [exact H2|exact H3].
Defined.

Lemma getDependencies_are_the_connected_producers_witness :
  exists deps,
    getDependencies 1 3 diamond = Ok deps diamond /\
    forall m, m ∈ deps <-> feeds (example_node 1 1 0 0 1 [(1, 0); (2, 0)] [0%Z; 0%Z]) m.
Proof.
  exact (getDependencies_are_the_connected_producers 0 3 diamond
           (example_node 1 1 0 0 1 [(1, 0); (2, 0)] [0%Z; 0%Z]) eq_refl eq_refl).
Defined.

Lemma diamond_plain : plain diamond.
Proof.
  intros n nd Hn.
  destruct n as [|[|[|[|n]]]]; simpl in Hn; simplify_eq; by split.
Qed.

Lemma connect_keeps_the_graph_acyclic_witness :
  connect 5 0 0 3 0 diamond = Ok tt diamond_connected /\
  plain diamond_connected /\ acyclic diamond_connected /\
  dep diamond_connected 3 0.
Proof.
  assert (connect 5 0 0 3 0 diamond = Ok tt diamond_connected) as Hc
    by (vm_compute; reflexivity).
  destruct (connect_keeps_the_graph_acyclic 5 0 0 3 0 diamond diamond_connected
              diamond_plain diamond_acyclic Hc) as (H1 & H2 & H3).
  split; [exact Hc|]. split; [exact H1|]. split; [exact H2|].
  apply H3. right. split; reflexivity.
Defined.

Lemma connectProperty_checks_in_order_witness :
  doesEdgePreserveAcyclicity 5 0 3 diamond = Ok true diamond /\
  exists p nd, readProperty (3, (-2)%Z) diamond = Ok p diamond /\
    nodes diamond !! 0 = Some nd /\
    (is_Some (p_connection p) ->
     connectProperty 5 0 7 3 (-2) diamond = Throw Lav_ERROR_RANGE diamond /\
     exists s', connectProperty 5 0 0 3 (-2) diamond = Ok tt s').
Proof.
  assert (doesEdgePreserveAcyclicity 5 0 3 diamond = Ok true diamond) as Hd
    by (vm_compute; reflexivity).
  assert (getProperty 5 3 (-2) diamond = Ok (3, (-2)%Z) diamond) as Hg
    by (vm_compute; reflexivity).
  split; [exact Hd|].
  destruct (connectProperty_checks_in_order 5 diamond 0 7 3 (-2)%Z true diamond Hd)
    as (_ & _ & H7).
  destruct (proj2 (H7 eq_refl) (3, (-2)%Z) diamond Hg) as (p & nd & Hp & Hn & _ & Hsome7).
  destruct (connectProperty_checks_in_order 5 diamond 0 0 3 (-2)%Z true diamond Hd)
    as (_ & _ & H0).
  destruct (proj2 (H0 eq_refl) (3, (-2)%Z) diamond Hg) as (p' & nd' & Hp' & Hn' & _ & Hsome0).
  exists p, nd. split; [exact Hp|]. split; [exact Hn|]. intros Hc.
  assert (p' = p) as Hpp by congruence.
  assert (nd' = nd) as Hnn by congruence.
  assert (length (output_connections nd) = 1) as Hlen.
  { assert (nodes diamond !! 0 = Some (example_node 1 1 0 5 0 [] [0%Z; 0%Z])) as Hn0
      by reflexivity.
    rewrite Hn0 in Hn. by injection Hn as <-. }
  split.
  - apply (proj1 (Hsome7 Hc)). right. rewrite Hlen. lia.
  - subst p' nd'. destruct (proj2 (Hsome0 Hc)) as (s' & Hs' & _).
    + rewrite Hlen. lia.
    + by exists s'.
Defined.

Lemma connectProperty_keeps_the_graph_acyclic_witness :
  connectProperty 5 0 0 3 (-2) diamond = Ok tt diamond_modulated /\
  plain diamond_modulated /\ acyclic diamond_modulated /\
  dep diamond_modulated 3 0.
Proof.
  assert (connectProperty 5 0 0 3 (-2) diamond = Ok tt diamond_modulated) as Hc
    by (vm_compute; reflexivity).
  destruct (connectProperty_keeps_the_graph_acyclic 5 0 0 3 (-2)%Z diamond
              diamond_modulated diamond_plain diamond_acyclic Hc) as (H1 & H2 & H3).
  split; [exact Hc|]. split; [exact H1|]. split; [exact H2|].
  apply H3. right. split; reflexivity.
Defined.

Lemma public_connects_fail_without_effect_witness :
  Lav_nodeConnect 5 3 0 0 0 diamond = Some (Lav_ERROR_CAUSES_CYCLE, diamond) /\
  Lav_nodeConnect 5 9 0 0 0 diamond = Some (Lav_ERROR_INVALID_HANDLE, diamond) /\
  Lav_nodeConnectSimulation 9 0 diamond = Some (Lav_ERROR_INVALID_HANDLE, diamond).
Proof.
  destruct (public_connects_fail_without_effect 5 diamond)
    as (H1 & _ & _ & H4 & H5).
  assert (Lav_nodeConnect 5 3 0 0 0 diamond = Some (Lav_ERROR_CAUSES_CYCLE, diamond))
    as Hc by (vm_compute; reflexivity).
  split; [exact Hc|]. split.
  - apply (H4 9%Z 0%Z 0%Z 0%Z). left. simpl. lia.
  - apply (H5 9%Z 0%Z). simpl. lia.
Defined.

Lemma forwardProperty_then_stop_is_a_round_trip_witness :
  exists s1,
    forwardProperty 3 (-2) 0 (-3) diamond = Ok tt s1 /\
    (forall fuel, getProperty (S fuel) 3 (-2) s1 = getProperty fuel 0 (-3) s1) /\
    stopForwardingProperty 3 (-2) s1 = Ok tt diamond /\
    stopForwardingProperty 3 (-2) diamond = Throw Lav_ERROR_INTERNAL diamond.
Proof.
  assert (forwarded_properties (example_node 1 1 0 0 1 [(1, 0); (2, 0)] [0%Z; 0%Z])
            !! (-2)%Z = None) as Hfw by (vm_compute; reflexivity).
  destruct (forwardProperty_then_stop_is_a_round_trip 3 (-2)%Z 0 (-3)%Z diamond
              (example_node 1 1 0 0 1 [(1, 0); (2, 0)] [0%Z; 0%Z]) eq_refl Hfw)
    as (s1 & H1 & H2 & _ & H3 & H4).
  exists s1. split; [exact H1|]. split; [exact H2|]. split; [exact H3|exact H4].
Defined.

Lemma cyclic_example_dep_01 : dep cyclic_example 0 1.
Proof. exists 1, {[1]}. split; [vm_compute; reflexivity|set_solver]. Qed.

Lemma cyclic_example_dep_10 : dep cyclic_example 1 0.
Proof. exists 1, {[0]}. split; [vm_compute; reflexivity|set_solver]. Qed.

Lemma cyclic_example_closed n m :
  n = 0 \/ n = 1 -> dep cyclic_example n m -> m = 0 \/ m = 1.
Proof.
  intros [->| ->] Hd.
  - assert (getDependencies 1 0 cyclic_example = Ok {[1]} cyclic_example) as H0
      by (vm_compute; reflexivity).
    apply (dep_elem _ _ _ _ _ m H0) in Hd. apply elem_of_singleton in Hd. by right.
  - assert (getDependencies 1 1 cyclic_example = Ok {[0]} cyclic_example) as H0
      by (vm_compute; reflexivity).
    apply (dep_elem _ _ _ _ _ m H0) in Hd. apply elem_of_singleton in Hd. by left.
Qed.

Lemma cycle_check_does_not_return_on_a_cycle_witness :
  dep cyclic_example 0 1 /\ dep cyclic_example 1 0 /\
  forall fuel b s', doesEdgePreserveAcyclicity fuel 0 2 cyclic_example <> Ok b s'.
Proof.
  split; [exact cyclic_example_dep_01|]. split; [exact cyclic_example_dep_10|].
  apply (cycle_check_does_not_return_on_a_cycle cyclic_example
           (fun x => x = 0 \/ x = 1) 0 2).
  - intros x [->| ->].
    + exists 1. split; [exact cyclic_example_dep_01|by right].
    + exists 0. split; [exact cyclic_example_dep_10|by left].
  - by left.
  - intros Hr.
    assert (forall x y, rtc (dep cyclic_example) x y -> x = 0 \/ x = 1 -> y = 0 \/ y = 1)
      as Hinv.
    { intros x y Hxy. induction Hxy as [x|x y z Hxy Hyz IH]; [done|].
      intros Hx. apply IH. by apply (cyclic_example_closed x y). }
    destruct (Hinv 0 2 Hr (or_introl eq_refl)); lia.
Defined.

Lemma Lav_nodeGetIntProperty_result_witness :
  Lav_nodeGetIntProperty 2 0 (-1) gain_example = Some (Lav_ERROR_NONE, Some 1%Z, gain_example) /\
  Lav_nodeGetIntProperty 2 0 (-2) gain_example
    = Some (Lav_ERROR_TYPE_MISMATCH, None, gain_example) /\
  gain_example = gain_example.
Proof.
  assert (Lav_nodeGetIntProperty 2 0 (-1) gain_example
          = Some (Lav_ERROR_NONE, Some 1%Z, gain_example)) as H1
    by (vm_compute; reflexivity).
  assert (Lav_nodeGetIntProperty 2 0 (-2) gain_example
          = Some (Lav_ERROR_TYPE_MISMATCH, None, gain_example)) as H2
    by (vm_compute; reflexivity).
  split; [exact H1|]. split; [exact H2|].
  exact (proj1 (Lav_nodeGetIntProperty_result 2 0 (-1)%Z gain_example
                  Lav_ERROR_NONE (Some 1%Z) gain_example H1)).
Defined.

Lemma Lav_nodeSetIntProperty_result_witness :
  Lav_nodeSetIntProperty 2 0 (-1) (-5) gain_example = Some (Lav_ERROR_RANGE, gain_example) /\
  exists s', Lav_nodeSetIntProperty 2 0 (-1) 0 gain_example = Some (Lav_ERROR_NONE, s') /\
             Lav_nodeGetIntProperty 2 0 (-1) s' = Some (Lav_ERROR_NONE, Some 0%Z, s').
Proof.
  assert (0 <= 0 < Z.of_nat (length (nodes gain_example)))%Z as Hh by (simpl; lia).
  assert (getProperty 2 (Z.to_nat 0) (-1) gain_example = Ok (0, (-1)%Z) gain_example)
    as Hg by (vm_compute; reflexivity).
  assert (readProperty (0, (-1)%Z) gain_example = Ok (example_int_property 1) gain_example)
    as Hr by (vm_compute; reflexivity).
  destruct (Lav_nodeSetIntProperty_result 2 0 (-1)%Z (-5)%Z gain_example
              (0, (-1)%Z) (example_int_property 1) Hh Hg Hr) as (_ & _ & Hneg).
  destruct (Lav_nodeSetIntProperty_result 2 0 (-1)%Z 0%Z gain_example
              (0, (-1)%Z) (example_int_property 1) Hh Hg Hr) as (_ & _ & Hzero).
  split.
  - exact (proj1 (Hneg eq_refl eq_refl) Lav_ERROR_RANGE eq_refl).
  - destruct (proj2 (Hzero eq_refl eq_refl) _ eq_refl) as (s' & Hs & _ & _ & Hget).
    exists s'. split; [exact Hs|]. exact (Hget eq_refl).
Defined.

Lemma advance_keeps_the_latest_samples_witness :
  let dl' := foldl DelayLine.advance DelayLine.example_line [1; 2; 3]%Q in
  (0 <= DelayLine.write_head dl' < 9)%Z /\
  DelayLine.line_at dl' (DelayLine.ringmodi (DelayLine.write_head dl' - 1) 9) = 2%Q.
Proof.
  assert (0 < DelayLine.line_length DelayLine.example_line)%Z as Hpos
    by (vm_compute; reflexivity).
  destruct (advance_keeps_the_latest_samples DelayLine.example_line [1; 2; 3]%Q
              Hpos eq_refl) as (_ & _ & Hwh & Hj).
  cbv zeta. split.
  - apply Hwh. discriminate.
  - apply (Hj 1%nat); [simpl; lia|vm_compute; reflexivity].
Defined.



Lemma uninterleave_spreads_the_frames_witness :
  PullNode.uninterleave 0%Z 2 2 [1; 2; 3; 4]%Z [[0; 0]; [0; 0]]%Z = [[1; 3]; [2; 4]]%Z /\
  exists buf',
    PullNode.uninterleave 0%Z 2 2 [1; 2; 3; 4]%Z [[0; 0]; [0; 0]]%Z !! 1 = Some buf' /\
    buf' !! 1 = Some 4%Z.
Proof.
  split; [vm_compute; reflexivity|].
  destruct (uninterleave_spreads_the_frames 0%Z 2 2 [1; 2; 3; 4]%Z [[0; 0]; [0; 0]]%Z)
    as (_ & _ & H).
  destruct (H (Nat.lt_0_succ 1) 1 [0%Z; 0%Z] eq_refl) as (buf' & Hb & _ & _ & Hk).
  exists buf'. split; [exact Hb|].
  assert (1 < 2) as H12 by lia.
  rewrite (Hk H12 1). reflexivity.
Defined.

Lemma gain_and_bias_at_either_rate_witness :
  exists s' nd',
    applyMulAdd 2 0 arate_example = Ok tt s' /\
    nodes s' !! 0 = Some nd' /\
    output_buffers nd' = [[11%Z; 16%Z]].
Proof.
  pose (nd := match nodes arate_example !! 0 with
              | Some x => x
              | None => example_node 1 1 1 5 0 [] [5%Z; 5%Z]
              end).
  pose (mulP := match properties nd !! (-2)%Z with
                | Some p => p
                | None => example_float_property 1
                end).
  assert (nodes arate_example !! 0 = Some nd) as Hn by reflexivity.
  assert (node_class nd = NodeBase) as Hc by reflexivity.
  assert (getProperty 2 0 Lav_NODE_MUL arate_example = Ok (0, (-2)%Z) arate_example)
    as Hmul by (vm_compute; reflexivity).
  assert (getProperty 2 0 Lav_NODE_ADD arate_example = Ok (0, (-3)%Z) arate_example)
    as Hadd by (vm_compute; reflexivity).
  assert (readProperty (0, (-2)%Z) arate_example = Ok mulP arate_example)
    as HmulP by (vm_compute; reflexivity).
  assert (readProperty (0, (-3)%Z) arate_example
          = Ok (example_float_property 1) arate_example)
    as HaddP by (vm_compute; reflexivity).
  assert (needsARate mulP = false -> fneqb (getFloatValue mulP) fone = false ->
          forall x : Z, fmul x (getFloatValue mulP) = x) as Hone
    by (intros Hk; vm_compute in Hk; discriminate).
  assert (needsARate (example_float_property 1) = false ->
          fneqb (getFloatValue (example_float_property 1)) fzero = false ->
          forall x : Z, fadd x (getFloatValue (example_float_property 1)) = x) as Hzero
    by (intros _ Hk; vm_compute in Hk; discriminate).
  destruct (gain_and_bias_at_either_rate 2 0 arate_example nd (0, (-2)%Z) (0, (-3)%Z)
              mulP (example_float_property 1) Hone Hzero Hn Hc Hmul Hadd HmulP HaddP)
    as (s' & nd' & Hs & Hn' & Hlen & Hsample).
  exists s', nd'. split; [exact Hs|]. split; [exact Hn'|].
  destruct (Hsample 0 [5%Z; 5%Z] eq_refl) as (buf' & Hb & Hi).
  assert (output_buffers nd' = [buf']) as ->.
  { destruct (output_buffers nd') as [|b [|b' l]]; simpl in Hlen; try discriminate.
    simpl in Hb. by injection Hb as ->. }
  pose proof (Hi 0 5%Z eq_refl) as H0. pose proof (Hi 1 5%Z eq_refl) as H1.
  assert (buf' !! 2 = None) as H2.
  { destruct (buf' !! 2) as [z|] eqn:Hz; [|done].
    assert (length buf' = 2) as Hl.
    { (* the buffer keeps its length: it is the image of [5; 5] *)
      clear -Hs Hn' Hb. vm_compute in Hs. injection Hs as <-.
      vm_compute in Hn'. injection Hn' as <-. vm_compute in Hb. by injection Hb as <-. }
    apply lookup_lt_Some in Hz. lia. }
  f_equal. apply list_eq. intros [|[|i]].
  - rewrite H0. reflexivity.
  - rewrite H1. reflexivity.
  - simpl. destruct buf' as [|a [|b [|c l]]]; try done.
Defined.


Lemma connect_to_subgraph_reaches_its_input_node_witness :
  exists s1,
    setInputNode 2 (Some 1) subgraph_example = Ok tt s1 /\
    getInputConnectionCount 2 2 s1 = Ok 1 s1 /\
    exists s',
      connect 2 0 0 2 0 s1 = Ok tt s' /\
      edge_added s1 s' (0, 0) (NodeInput 1 0) /\
      dep s' 1 0.
Proof.
  assert (1 <> 2) as Hne by lia.
  assert (0 <= 0 < Z.of_nat (length (output_connections
                                       (example_node 1 1 0 7 0 [] [7%Z; 7%Z]))))%Z
    as Hout by (simpl; lia).
  assert (0 <= 0 < Z.of_nat (length (input_connections
                                       (example_node 1 1 0 0 1 [] [0%Z; 0%Z]))))%Z
    as Hin by (simpl; lia).
  destruct (connect_to_subgraph_reaches_its_input_node 0 subgraph_example 2
              (example_subgraph 1 (Some 1) (Some 0)) (Some 1) (Some 0) 1
              (example_node 1 1 0 0 1 [] [0%Z; 0%Z]) 0
              (example_node 1 1 0 7 0 [] [7%Z; 7%Z]) 0 0
              eq_refl eq_refl Hne eq_refl eq_refl eq_refl Hout Hin)
    as (s1 & Hs1 & Hcount & _ & Hconn).
  exists s1. split; [exact Hs1|]. split; [exact Hcount|].
  apply Hconn.
  vm_compute in Hs1. injection Hs1 as <-. vm_compute. reflexivity.
Defined.


